(** * Verification of the bit stream and of the physics snapshot codec

    Shallow embedding of three Go files:
    - [bit/bit.go]: the bit-packing [Writer] and [Reader];
    - [physicscompress/physics/encoding.go]: [State.Encode], [State.Decode]
      and the flattened field accessors [Value6], [Delta6], [Extra6];
    - [physicscompress/main.go]: [NewOrdering] and [Ordering.Improve].

    Go's [uint], [uint64] and [int] are 64-bit words and [int32] is a 32-bit
    word; they are carried as [Z] with the wrap-around written out.  A Go
    run-time panic is an explicit outcome of the [result] type. *)

From stdpp Require Import base list numbers sorting.
From Stdlib Require Import ZArith Lia.

Local Open Scope Z_scope.

(** ** Outcomes of Go code that may panic *)

Inductive panic : Type :=
| IndexOutOfRange   (* slice or array index out of range *)
| InvalidField      (* panic("invalid") of the six-field accessors *)
| DivideByZero      (* integer division by zero *)
| OutOfFuel.        (* the model's loop bound was reached: not a Go outcome *)

Inductive result (A : Type) : Type :=
| Ok (a : A)
| Panic (p : panic).
Arguments Ok {A} a.
Arguments Panic {A} p.

Definition result_bind {A B} (f : A -> result B) (r : result A) : result B :=
  match r with
  | Ok a => f a
  | Panic p => Panic p
  end.

#[global] Instance result_mbind : MBind result := @result_bind.
#[global] Instance result_mret : MRet result := @Ok.
#[global] Instance result_fmap : FMap result :=
  fun A B f r => result_bind (fun a => Ok (f a)) r.

Definition is_Ok {A} (r : result A) : Prop := exists a, r = Ok a.

(** ** Machine words *)

Definition u64 (z : Z) : Z := z mod 2 ^ 64.
Definition i64 (z : Z) : Z := (z + 2 ^ 63) mod 2 ^ 64 - 2 ^ 63.
Definition i32 (z : Z) : Z := (z + 2 ^ 31) mod 2 ^ 32 - 2 ^ 31.
Definition byte_of (z : Z) : Z := z mod 256.

(** [x << n] on a 64-bit unsigned word: bits shifted past bit 63 are lost. *)
Definition shl64 (x n : Z) : Z := u64 (Z.shiftl x n).
Definition shr64 (x n : Z) : Z := Z.shiftr x n.

(** ** bit/bit.go *)

Module Bit.

(** A Go [error] value, identified by a number; [None] is [nil]. *)
Definition error : Type := nat.

Section Streams.

(** The underlying [io.Writer]: the error its [Write] returns, given the
    buffers of the earlier calls and the buffer of this call. *)
Variable sink : list (list Z) -> list Z -> option error.

(** The underlying [io.Reader], always called with a one-byte buffer: the
    byte left in [temp[0]] and the error returned by the call number [k]. *)
Variable source : nat -> Z * option error.

Record Writer : Type := mkWriter {
  w_calls : list (list Z);   (* the calls of w.w.Write made so far *)
  w_bits  : Z;
  w_nbits : Z;
  w_err   : option error
}.

Definition NewWriter : Writer := mkWriter [] 0 0 None.

(** The loop of [flush]; [room] is what is left of [buf [16]byte]. *)
Fixpoint flush_loop (room : nat) (bits nbits : Z) (buf : list Z)
  : result (Z * Z * list Z) :=
  if 8 <? nbits then
    match room with
    | O => Panic IndexOutOfRange
    | S room' =>
        flush_loop room' (shr64 bits 8) (nbits - 8) (buf ++ [byte_of bits])
    end
  else Ok (bits, nbits, buf).

Definition Writer_flush (w : Writer) : result Writer :=
  match w_err w with
  | Some _ => Ok (mkWriter (w_calls w) (w_bits w) 0 (w_err w))
  | None =>
      '(bits, nbits, buf) ← flush_loop 16 (w_bits w) (w_nbits w) [];
      Ok (mkWriter (w_calls w ++ [buf]) bits nbits (sink (w_calls w) buf))
  end.

Definition Writer_flushpartial (w : Writer) : result Writer :=
  w1 ← Writer_flush w;
  match w_err w1 with
  | Some _ => Ok (mkWriter (w_calls w1) (w_bits w1) 0 (w_err w1))
  | None =>
      if 0 <? w_nbits w1 then
        let buf := [byte_of (w_bits w1)] in
        Ok (mkWriter (w_calls w1 ++ [buf]) 0 0 (sink (w_calls w1) buf))
      else Ok w1
  end.

Definition Writer_WriteBits (w : Writer) (x width : Z)
  : result (Writer * option error) :=
  let w1 := mkWriter (w_calls w)
                     (Z.lor (w_bits w) (shl64 (u64 x) (w_nbits w)))
                     (u64 (w_nbits w + width))
                     (w_err w) in
  w2 ← (if 16 <? w_nbits w1 then Writer_flush w1 else Ok w1);
  Ok (w2, w_err w2).

Definition Writer_WriteBit (w : Writer) (x : Z) : result (Writer * option error) :=
  Writer_WriteBits w (u64 (Z.land x 1)) 1.

Definition Writer_Align (w : Writer) : result (Writer * option error) :=
  w1 ← Writer_flushpartial w;
  Ok (w1, w_err w1).

Definition Writer_Close (w : Writer) : result (Writer * option error) :=
  Writer_Align w.

Record Reader : Type := mkReader {
  r_reads : nat;             (* the number of calls of r.r.Read made so far *)
  r_bits  : Z;
  r_nbits : Z;
  r_err   : option error
}.

Definition NewReader : Reader := mkReader 0 0 8 None.

Definition Reader_read (r : Reader) : Reader :=
  match r_err r with
  | Some _ => mkReader (r_reads r) (r_bits r) 8 (r_err r)
  | None =>
      let '(b, e) := source (r_reads r) in
      mkReader (S (r_reads r)) (u64 b) (r_nbits r) e
  end.

Definition Reader_Align (r : Reader) : Reader :=
  mkReader (r_reads r) (r_bits r) 8 (r_err r).

(** [uint(1<<width - 1)] *)
Definition mask (width : Z) : Z := u64 (shl64 1 width - 1).

(** The [for] loop of [ReadBits]. Each turn adds 8 to [n]; [fuel] bounds the
    number of turns. *)
Fixpoint ReadBits_loop (fuel : nat) (r : Reader) (width x n : Z)
  : result (Reader * Z * option error) :=
  if 0 <? i64 (i64 width - i64 n) then
    match fuel with
    | O => Panic OutOfFuel
    | S fuel' =>
        let r1 := Reader_read r in
        let r2 := mkReader (r_reads r1) (r_bits r1) (u64 (r_nbits r1 - 8)) (r_err r1) in
        match r_err r2 with
        | Some e => Ok (r2, 0, Some e)
        | None =>
            ReadBits_loop fuel' r2 width (Z.lor x (shl64 (r_bits r2) n)) (u64 (n + 8))
        end
    end
  else
    Ok (mkReader (r_reads r) (r_bits r) (u64 (r_nbits r + width)) (r_err r),
        Z.land x (mask width), None).

Definition Reader_ReadBits (r : Reader) (width : Z)
  : result (Reader * Z * option error) :=
  match r_err r with
  | Some e => Ok (r, 0, Some e)
  | None =>
      let left := i64 (8 - i64 (r_nbits r)) in
      if i64 width <? left then
        let x := shr64 (r_bits r) (r_nbits r) in
        Ok (mkReader (r_reads r) (r_bits r) (u64 (r_nbits r + width)) (r_err r),
            Z.land x (mask width), None)
      else
        let n := u64 (8 - r_nbits r) in
        let x := shr64 (r_bits r) (r_nbits r) in
        ReadBits_loop (Z.to_nat (width / 8 + 1)) r width x n
  end.

Definition Reader_ReadBit (r : Reader) : result (Reader * Z * option error) :=
  '(r', x, e) ← Reader_ReadBits r 1;
  Ok (r', i64 x, e).

(** Sequences of calls on one instance. *)

Inductive wop : Type :=
| OpWriteBits (x width : Z)
| OpWriteBit (x : Z)
| OpAlign
| OpClose.

Definition run_wop (w : Writer) (o : wop) : result (Writer * option error) :=
  match o with
  | OpWriteBits x width => Writer_WriteBits w x width
  | OpWriteBit x => Writer_WriteBit w x
  | OpAlign => Writer_Align w
  | OpClose => Writer_Close w
  end.

Fixpoint run_wops (w : Writer) (os : list wop)
  : result (Writer * list (option error)) :=
  match os with
  | [] => Ok (w, [])
  | o :: os' =>
      '(w1, e) ← run_wop w o;
      '(w2, es) ← run_wops w1 os';
      Ok (w2, e :: es)
  end.

Inductive rop : Type :=
| OpReadBits (width : Z)
| OpReadBit
| OpRAlign.

(** What a call hands back: a value and an error, or nothing for [Align]. *)
Definition run_rop (r : Reader) (o : rop)
  : result (Reader * option (Z * option error)) :=
  match o with
  | OpReadBits width =>
      '(r', x, e) ← Reader_ReadBits r width; Ok (r', Some (x, e))
  | OpReadBit =>
      '(r', x, e) ← Reader_ReadBit r; Ok (r', Some (x, e))
  | OpRAlign => Ok (Reader_Align r, None)
  end.

Fixpoint run_rops (r : Reader) (os : list rop)
  : result (Reader * list (option (Z * option error))) :=
  match os with
  | [] => Ok (r, [])
  | o :: os' =>
      '(r1, v) ← run_rop r o;
      '(r2, vs) ← run_rops r1 os';
      Ok (r2, v :: vs)
  end.

End Streams.

(** The state a failed writer is left in by one more call. *)
Definition same_failure (e : error) (w w' : Writer) : Prop :=
  w_calls w' = w_calls w /\ w_err w' = Some e.

(** What a failed reader hands back at one more call. *)
Definition failed_answer (e : error) (o : rop) : option (Z * option error) :=
  match o with
  | OpReadBits _ | OpReadBit => Some (0, Some e)
  | OpRAlign => None
  end.

(** A sink that never fails, such as a [bytes.Buffer]; the bytes it holds
    are the buffers of all calls, in order. *)
Definition buffer_sink : list (list Z) -> list Z -> option error :=
  fun _ _ => None.

Definition written (w : Writer) : list Z := concat (w_calls w).

Definition EOF : error := 0%nat.

(** A source over a byte slice, such as a [bytes.Reader]: past the end it
    leaves the buffer untouched (zero) and returns [io.EOF]. *)
Definition bytes_source (bs : list Z) (k : nat) : Z * option error :=
  match bs !! k with
  | Some b => (b, None)
  | None => (0, Some EOF)
  end.

(** A sink that refuses every buffer, and the writer and the reader that
    met their first failure: the writer at [Align] after one bit, the
    reader at the end of a one-byte source. *)
Definition refusing_sink : list (list Z) -> list Z -> option error :=
  fun _ _ => Some 7%nat.

Definition failed_writer : Writer := mkWriter [[]] 1 0 (Some 7%nat).
Definition failed_reader : Reader := mkReader 2 0 0 (Some EOF).

(** Write every [(value, width)], close, and read the widths back from the
    bytes produced. *)
Definition write_all (vws : list (Z * Z)) : result (Writer * list (option error)) :=
  run_wops buffer_sink NewWriter
           (map (fun vw => OpWriteBits (fst vw) (snd vw)) vws ++ [OpClose]).

Definition read_all (bs : list Z) (widths : list Z)
  : result (Reader * list (option (Z * option error))) :=
  run_rops (bytes_source bs) NewReader (map OpReadBits widths).

Definition write_then_read (vws : list (Z * Z))
  : result (list (option (Z * option error))) :=
  '(w, _) ← write_all vws;
  '(_, vs) ← read_all (written w) (map snd vws);
  Ok vs.

(** The bit stream as a number: the bytes of a slice, least significant
    first, and the values of a sequence of writes, each on its width, first
    write lowest. *)
Fixpoint little_endian (bs : list Z) : Z :=
  match bs with
  | [] => 0
  | b :: bs' => b + 256 * little_endian bs'
  end.

Fixpoint stream_of (vws : list (Z * Z)) : Z :=
  match vws with
  | [] => 0
  | (v, width) :: vws' => v + 2 ^ width * stream_of vws'
  end.

Fixpoint width_of (vws : list (Z * Z)) : Z :=
  match vws with
  | [] => 0
  | (_, width) :: vws' => width + width_of vws'
  end.

(** A write of at most 16 bits whose value fits its width. *)
Definition fits_width (vw : Z * Z) : Prop :=
  0 <= snd vw <= 16 /\ 0 <= fst vw < 2 ^ snd vw.

Definition is_byte (b : Z) : Prop := 0 <= b < 256.

(** A writer on a [buffer_sink] that holds the first [T] bits of the
    stream [S]: the bytes written, then the bits of the accumulator. *)
Definition Writer_holds (w : Writer) (S T : Z) : Prop :=
  w_err w = None /\
  Forall is_byte (written w) /\
  0 <= w_nbits w /\
  0 <= w_bits w < 2 ^ w_nbits w /\
  T = 8 * Z.of_nat (length (written w)) + w_nbits w /\
  S = little_endian (written w) + 2 ^ (8 * Z.of_nat (length (written w))) * w_bits w.

(** A reader on the bytes [bs] that has consumed the first [q] bits: the
    unread bits of its current byte are the next bits of the stream. *)
Definition Reader_at (bs : list Z) (r : Reader) (q : Z) : Prop :=
  r_err r = None /\
  0 <= r_nbits r <= 8 /\
  0 <= r_bits r < 256 /\
  0 <= q /\
  q = 8 * Z.of_nat (r_reads r) - 8 + r_nbits r /\
  forall m, r_nbits r <= m <= 8 ->
    r_bits r / 2 ^ m = (little_endian bs / 2 ^ (q - r_nbits r + m)) mod 2 ^ (8 - m).

(** What reading back should give: every value, and no error. *)
Definition read_back (vs : list Z) : list (option (Z * option error)) :=
  map (fun v => Some (v, None)) vs.

End Bit.

(** ** physicscompress/physics/encoding.go *)

Module Physics.

(** The fields of a [Cube] that the file reads and writes, all [int32]. *)
Record Cube : Type := mkCube {
  Cube_Largest : Z;
  Cube_Interacting : Z;
  Cube_A : Z;
  Cube_B : Z;
  Cube_C : Z;
  Cube_X : Z;
  Cube_Y : Z;
  Cube_Z : Z
}.

#[global] Instance Cube_eq_dec : EqDecision Cube.
Proof. solve_decision. Defined.

Definition zero_Cube : Cube := mkCube 0 0 0 0 0 0 0 0.

(** [s[i]] on a slice, with Go's bounds check. *)
Definition index {A} (s : list A) (i : Z) : result A :=
  if i <? 0 then Panic IndexOutOfRange
  else match s !! Z.to_nat i with
       | Some a => Ok a
       | None => Panic IndexOutOfRange
       end.

Definition len {A} (s : list A) : Z := Z.of_nat (length s).

(** [i / N] and [i % N] on [int]: truncated division, panic on zero. *)
Definition go_div (i N : Z) : result Z :=
  if N =? 0 then Panic DivideByZero else Ok (i64 (Z.quot i N)).
Definition go_mod (i N : Z) : result Z :=
  if N =? 0 then Panic DivideByZero else Ok (Z.rem i N).

Definition index6_step (N v : Z) : list Z :=
  [v; i64 (v + N); i64 (v + N * 2); i64 (v + N * 3); i64 (v + N * 4); i64 (v + N * 5)].

Definition index6 (index : list Z) (N : Z) : list Z :=
  concat (map (index6_step N) index).

Definition Value6 (base : list Cube) (i : Z) : result Z :=
  let N := len base in
  k ← go_mod i N;
  q ← go_div i N;
  match q with
  | 0 => b ← index base k; Ok (Cube_A b)
  | 1 => b ← index base k; Ok (Cube_B b)
  | 2 => b ← index base k; Ok (Cube_C b)
  | 3 => b ← index base k; Ok (Cube_X b)
  | 4 => b ← index base k; Ok (Cube_Y b)
  | 5 => b ← index base k; Ok (Cube_Z b)
  | _ => Panic InvalidField
  end.

Definition Delta6 (hist base : list Cube) (i : Z) : result Z :=
  let N := len base in
  k ← go_mod i N;
  q ← go_div i N;
  match q with
  | 0 => h ← index hist k; b ← index base k; Ok (i32 (Cube_B h - Cube_A b))
  | 1 => h ← index hist k; b ← index base k; Ok (i32 (Cube_B h - Cube_B b))
  | 2 => h ← index hist k; b ← index base k; Ok (i32 (Cube_C h - Cube_C b))
  | 3 => h ← index hist k; b ← index base k; Ok (i32 (Cube_X h - Cube_X b))
  | 4 => h ← index hist k; b ← index base k; Ok (i32 (Cube_Y h - Cube_Y b))
  | 5 => h ← index hist k; b ← index base k; Ok (i32 (Cube_Z h - Cube_Z b))
  | _ => Panic InvalidField
  end.

Definition Extra6 (hist base cur : list Cube) (i : Z) : result Z :=
  let N := len base in
  k ← go_mod i N;
  q ← go_div i N;
  match q with
  | 0 => c ← index cur k; b ← index base k; h ← index hist k;
         Ok (i32 (i32 (Cube_A c - Cube_A b) + i32 (Cube_B h - Cube_A b)))
  | 1 => c ← index cur k; b ← index base k; h ← index hist k;
         Ok (i32 (i32 (Cube_B c - Cube_B b) + i32 (Cube_B h - Cube_B b)))
  | 2 => c ← index cur k; b ← index base k; h ← index hist k;
         Ok (i32 (i32 (Cube_C c - Cube_C b) + i32 (Cube_C h - Cube_C b)))
  | 3 => c ← index cur k; b ← index base k; h ← index hist k;
         Ok (i32 (i32 (Cube_X c - Cube_X b) + i32 (Cube_X h - Cube_X b)))
  | 4 => c ← index cur k; b ← index base k; h ← index hist k;
         Ok (i32 (i32 (Cube_Y c - Cube_Y b) + i32 (Cube_Y h - Cube_Y b)))
  | 5 => c ← index cur k; b ← index base k; h ← index hist k;
         Ok (i32 (i32 (Cube_Z c - Cube_Z b) + i32 (Cube_Z h - Cube_Z b)))
  | _ => Panic InvalidField
  end.

(** The six fields of the flattened (object, field) domain, and the entry
    of object [k] and field [f] in a frame of [N] objects. *)
Inductive field : Type := FA | FB | FC | FX | FY | FZ.

Definition field_number (f : field) : Z :=
  match f with FA => 0 | FB => 1 | FC => 2 | FX => 3 | FY => 4 | FZ => 5 end.

Definition field_get (f : field) (c : Cube) : Z :=
  match f with
  | FA => Cube_A c | FB => Cube_B c | FC => Cube_C c
  | FX => Cube_X c | FY => Cube_Y c | FZ => Cube_Z c
  end.

Definition entry (N k : Z) (f : field) : Z := k + N * field_number f.

(** The expected delta of one field taken alone: the change of that field
    from [hist] to [base]. *)
Definition field_delta (f : field) (h b : Cube) : Z :=
  i32 (field_get f h - field_get f b).

(** The six [case] bodies of [Delta6] and of [Extra6], by field. *)
Definition Delta6_case (f : field) (h b : Cube) : Z :=
  match f with
  | FA => i32 (Cube_B h - Cube_A b)
  | FB => i32 (Cube_B h - Cube_B b)
  | FC => i32 (Cube_C h - Cube_C b)
  | FX => i32 (Cube_X h - Cube_X b)
  | FY => i32 (Cube_Y h - Cube_Y b)
  | FZ => i32 (Cube_Z h - Cube_Z b)
  end.

Definition Extra6_case (f : field) (h b c : Cube) : Z :=
  match f with
  | FA => i32 (i32 (Cube_A c - Cube_A b) + i32 (Cube_B h - Cube_A b))
  | FB => i32 (i32 (Cube_B c - Cube_B b) + i32 (Cube_B h - Cube_B b))
  | FC => i32 (i32 (Cube_C c - Cube_C b) + i32 (Cube_C h - Cube_C b))
  | FX => i32 (i32 (Cube_X c - Cube_X b) + i32 (Cube_X h - Cube_X b))
  | FY => i32 (i32 (Cube_Y c - Cube_Y b) + i32 (Cube_Y h - Cube_Y b))
  | FZ => i32 (i32 (Cube_Z c - Cube_Z b) + i32 (Cube_Z h - Cube_Z b))
  end.

(** Modelled from the spec: the [State] type with its frames [Historic],
    [Baseline] and [Current] and the method [Frame.Assign] are declared
    outside the file.  A frame holds the slice [Cubes]; [Assign] makes the
    receiver a copy of its argument (decoding reconstructs current in place
    starting from a copy of baseline). *)
Record Frame : Type := mkFrame { Cubes : list Cube }.

Record State : Type := mkState {
  Historic : Frame;
  Baseline : Frame;
  Current : Frame
}.

Definition Assign (frame other : Frame) : Frame := mkFrame (Cubes other).

(** Modelled from the spec: the entropy coder of package [coder/arith] is
    outside the files at hand.  [Encode] only ever calls
    [mzeros.Encode(enc, bit)] and then takes [enc.Bytes()], so an encoder is
    carried as the list of the bits it was given, and [Bytes] maps that list
    to the snapshot.  [Decode] only ever calls [mzeros.Decode(dec)] with its
    one model, so the decoder state stands for the decoder and that model
    together. *)
Record Coder : Type := mkCoder {
  Decoder : Type;
  Bytes : list Z -> list Z;
  NewDecoder : list Z -> Decoder;
  mzeros_Decode : Decoder -> Z * Decoder
}.

(** One call of [mzeros.Decode(dec)]; the answer is a Go [uint]. *)
Definition decode_bit (c : Coder) (dec : Decoder c) : Z * Decoder c :=
  let '(b, dec') := mzeros_Decode c dec in (u64 b, dec').

(** The answers of [n] calls in a row. *)
Fixpoint decode_n (c : Coder) (n : nat) (dec : Decoder c) : list Z * Decoder c :=
  match n with
  | O => ([], dec)
  | S n' =>
      let '(b, dec1) := decode_bit c dec in
      let '(bs, dec2) := decode_n c n' dec1 in
      (b :: bs, dec2)
  end.

Definition is_bit (b : Z) : Prop := b = 0 \/ b = 1.

(** Modelled from the spec: decoding replays the bits that were encoded, in
    the order in which they were encoded. *)
Definition replays (c : Coder) : Prop :=
  forall bits, Forall is_bit bits ->
    fst (decode_n c (length bits) (NewDecoder c (Bytes c bits))) = bits.

(** A coder that stores every bit in a byte of its own, and answers 0 past
    the end of the snapshot. *)
Definition plain_coder : Coder :=
  mkCoder (list Z) (map byte_of) (fun snapshot => snapshot)
          (fun dec => match dec with
                      | [] => (0, [])
                      | b :: dec' => (b, dec')
                      end).

(** *** State.Encode *)

(** The presence pass: the bits given to the coder and [items]. *)
Fixpoint Encode_presence (i : Z) (current baseline : list Cube)
  : result (list Z * list Z) :=
  match current with
  | [] => Ok ([], [])
  | cube :: rest =>
      base ← index baseline i;
      '(bits, items) ← Encode_presence (i + 1) rest baseline;
      if bool_decide (cube = base)
      then Ok (0 :: bits, items)
      else Ok (1 :: bits, i :: items)
  end.

Definition Encode_interacting (current : list Cube) (items : list Z)
  : result (list Z) :=
  mapM (fun i => cube ← index current i;
                 Ok (u64 (i32 (Z.lxor (Cube_Interacting cube) 1)))) items.

Definition Encode_largest (current baseline : list Cube) (items : list Z)
  : result (list Z) :=
  planes ← mapM (fun i => cube ← index current i;
                          base ← index baseline i;
                          let v := u64 (i32 (Z.lxor (Cube_Largest cube) (Cube_Largest base))) in
                          Ok [Z.land v 1; shr64 v 1]) items;
  Ok (concat planes).

(** The bits given to [mzeros.Encode], pass by pass.  The loop over
    [items6] that follows the three passes only adds to counters; its call
    of [ext6] can still panic, whatever order [SortByZ] left [items6] in. *)
Definition Encode_passes (s : State) : result (list Z * list Z * list Z) :=
  let historic := Cubes (Historic s) in
  let baseline := Cubes (Baseline s) in
  let current := Cubes (Current s) in
  '(presence, items) ← Encode_presence 0 current baseline;
  interacting ← Encode_interacting current items;
  largest ← Encode_largest current baseline items;
  let items6 := index6 items (len baseline) in
  _ ← mapM (Extra6 historic baseline current) items6;
  Ok (presence, interacting, largest).

Definition Encode (c : Coder) (s : State) : result (list Z) :=
  '(presence, interacting, largest) ← Encode_passes s;
  Ok (Bytes c (presence ++ interacting ++ largest)).

(** *** State.Decode *)

Fixpoint Decode_presence (c : Coder) (n : nat) (i : Z) (dec : Decoder c)
  : list Z * Decoder c :=
  match n with
  | O => ([], dec)
  | S n' =>
      let '(b, dec1) := decode_bit c dec in
      let '(items, dec2) := Decode_presence c n' (i + 1) dec1 in
      (if b =? 1 then i :: items else items, dec2)
  end.

Definition set_Interacting (cube : Cube) (v : Z) : Cube :=
  mkCube (Cube_Largest cube) v (Cube_A cube) (Cube_B cube) (Cube_C cube)
         (Cube_X cube) (Cube_Y cube) (Cube_Z cube).

Definition set_Largest (cube : Cube) (v : Z) : Cube :=
  mkCube v (Cube_Interacting cube) (Cube_A cube) (Cube_B cube) (Cube_C cube)
         (Cube_X cube) (Cube_Y cube) (Cube_Z cube).

Fixpoint Decode_interacting (c : Coder) (items : list Z)
         (current : list Cube) (dec : Decoder c)
  : result (list Cube * Decoder c) :=
  match items with
  | [] => Ok (current, dec)
  | i :: items' =>
      cube ← index current i;
      let '(b, dec1) := decode_bit c dec in
      let current1 :=
        <[Z.to_nat i := set_Interacting cube (i32 (Z.lxor b 1))]> current in
      Decode_interacting c items' current1 dec1
  end.

Fixpoint Decode_largest (c : Coder) (items : list Z)
         (current baseline : list Cube) (dec : Decoder c)
  : result (list Cube * Decoder c) :=
  match items with
  | [] => Ok (current, dec)
  | i :: items' =>
      cube ← index current i;
      base ← index baseline i;
      let '(v0, dec1) := decode_bit c dec in
      let '(v1, dec2) := decode_bit c dec1 in
      let v := i32 (Z.lor (shl64 v1 1) v0) in
      let current1 :=
        <[Z.to_nat i := set_Largest cube (i32 (Z.lxor (Cube_Largest base) v))]> current in
      Decode_largest c items' current1 baseline dec2
  end.

Definition Decode (c : Coder) (s : State) (snapshot : list Z) : result State :=
  let dec := NewDecoder c snapshot in
  let s1 := mkState (Historic s) (Baseline s) (Assign (Current s) (Baseline s)) in
  let baseline := Cubes (Baseline s1) in
  let current := Cubes (Current s1) in
  let '(items, dec1) := Decode_presence c (length current) 0 dec in
  '(current1, dec2) ← Decode_interacting c items current dec1;
  '(current2, _) ← Decode_largest c items current1 baseline dec2;
  Ok (mkState (Historic s1) (Baseline s1) (mkFrame current2)).

(** The presence bitmap that [Decode] reads from a snapshot. *)
Definition decoded_presence (c : Coder) (s : State) (snapshot : list Z) : list Z :=
  fst (decode_n c (length (Cubes (Baseline s))) (NewDecoder c snapshot)).

(** The changed objects, in natural index order. *)
Definition changed (current baseline : list Cube) : list Z :=
  filter (fun i => current !! Z.to_nat i <> baseline !! Z.to_nat i)
         (map Z.of_nat (seq 0 (length current))).

(** The cube of an object known to be in the frame. *)
Definition cube_at (frame : list Cube) (i : Z) : Cube :=
  default zero_Cube (frame !! Z.to_nat i).

(** The bit of the Interacting pass for object [i]: Interacting of current
    XOR Interacting of baseline, an [int32] handed over as a [uint]. *)
Definition interacting_xor_baseline (current baseline : list Cube) (i : Z) : Z :=
  u64 (i32 (Z.lxor (Cube_Interacting (cube_at current i))
                   (Cube_Interacting (cube_at baseline i)))).

(** The same with the constant 1 in the place of baseline. *)
Definition interacting_xor_one (current : list Cube) (i : Z) : Z :=
  u64 (i32 (Z.lxor (Cube_Interacting (cube_at current i)) 1)).

(** The two bit planes of the Largest pass for object [i], low bit first. *)
Definition largest_planes (current baseline : list Cube) (i : Z) : list Z :=
  let v := u64 (i32 (Z.lxor (Cube_Largest (cube_at current i))
                            (Cube_Largest (cube_at baseline i)))) in
  [Z.land v 1; shr64 v 1].

(** The presence bit of one object. *)
Definition presence_bit (cube base : Cube) : Z :=
  if bool_decide (cube = base) then 0 else 1.

(** The positions of the bits equal to 1 in a bitmap whose first bit
    stands for object [i]. *)
Fixpoint ones_from (i : nat) (bits : list Z) : list nat :=
  match bits with
  | [] => []
  | b :: bits' =>
      if b =? 1 then i :: ones_from (S i) bits' else ones_from (S i) bits'
  end.

(** The two assignments of [Decode], as functions of the cube assigned to. *)
Definition put_Interacting (b : Z) (cube : Cube) : Cube :=
  set_Interacting cube (i32 (Z.lxor b 1)).

Definition put_Largest (base : Cube) (v0 v1 : Z) (cube : Cube) : Cube :=
  set_Largest cube (i32 (Z.lxor (Cube_Largest base) (i32 (Z.lor (shl64 v1 1) v0)))).

(** A list of assignments, each to the cube of one index, made in order. *)
Definition alter_all (updates : list (nat * (Cube -> Cube))) (current : list Cube)
  : list Cube :=
  foldl (fun cubes u => alter (snd u) (fst u) cubes) current updates.

(** The assignments of the Interacting loop and of the Largest loop, given
    the objects visited and the bits that the coder answers. *)
Fixpoint interacting_updates (ns : list nat) (bits : list Z)
  : list (nat * (Cube -> Cube)) :=
  match ns, bits with
  | n :: ns', b :: bits' => (n, put_Interacting b) :: interacting_updates ns' bits'
  | _, _ => []
  end.

Fixpoint largest_updates (baseline : list Cube) (ns : list nat) (bits : list Z)
  : list (nat * (Cube -> Cube)) :=
  match ns, bits with
  | n :: ns', v0 :: v1 :: bits' =>
      (n, put_Largest (cube_at baseline (Z.of_nat n)) v0 v1)
        :: largest_updates baseline ns' bits'
  | _, _ => []
  end.

(** The cubes that [Decode] leaves in current, as a function of baseline
    and of the answers of the coder. *)
Definition Decode_cubes (c : Coder) (baseline : list Cube) (snapshot : list Z)
  : list Cube :=
  let presence := decode_n c (length baseline) (NewDecoder c snapshot) in
  let ns := ones_from 0 (fst presence) in
  let interacting := decode_n c (length ns) (snd presence) in
  let largest := decode_n c (2 * length ns) (snd interacting) in
  alter_all (largest_updates baseline ns (fst largest))
            (alter_all (interacting_updates ns (fst interacting)) baseline).

(** The three frames hold the same number N of cubes, and 6N is an [int]. *)
Definition frames_fit (s : State) : Prop :=
  length (Cubes (Historic s)) = length (Cubes (Baseline s)) /\
  length (Cubes (Current s)) = length (Cubes (Baseline s)) /\
  6 * len (Cubes (Baseline s)) < 2 ^ 63.

(** One object, which changes in field A only, from 0 to 1. *)
Definition moved_A : State :=
  mkState (mkFrame [zero_Cube]) (mkFrame [zero_Cube])
          (mkFrame [mkCube 0 0 1 0 0 0 0 0]).

(** Three objects: the second turns Interacting on, the third changes
    Largest from 0 to 2. *)
Definition flags_only : State :=
  mkState (mkFrame [zero_Cube; zero_Cube; zero_Cube])
          (mkFrame [zero_Cube; zero_Cube; zero_Cube])
          (mkFrame [zero_Cube; mkCube 0 1 0 0 0 0 0 0; mkCube 2 0 0 0 0 0 0 0]).

Definition int32_range (z : Z) : Prop := - 2 ^ 31 <= z < 2 ^ 31.

(** What [Decode] rebuilds of a cube: Largest and Interacting come from
    the snapshot, the six other fields stay those of baseline. *)
Definition rebuilt (cube base : Cube) : Cube :=
  mkCube (Cube_Largest cube) (Cube_Interacting cube)
         (Cube_A base) (Cube_B base) (Cube_C base)
         (Cube_X base) (Cube_Y base) (Cube_Z base).

(** Two cubes with the same A, B, C, X, Y and Z. *)
Definition same_six (cube base : Cube) : Prop :=
  Cube_A cube = Cube_A base /\ Cube_B cube = Cube_B base /\
  Cube_C cube = Cube_C base /\ Cube_X cube = Cube_X base /\
  Cube_Y cube = Cube_Y base /\ Cube_Z cube = Cube_Z base.

(** The values that the two coded passes can carry. *)
Definition codable (cube base : Cube) : Prop :=
  cube = base \/
  (is_bit (Cube_Interacting cube) /\
   0 <= Z.lxor (Cube_Largest cube) (Cube_Largest base) <= 3 /\
   int32_range (Cube_Largest cube)).

End Physics.

(** ** Go's sort.Sort *)

Module Sort.

(** [sort.Sort(data)] reorders a slice through [data.Less] and [data.Swap]
    only.  It is a deterministic function of the slice and of the order; the
    library documents that it sorts ascending and that the sort is not
    guaranteed to be stable.  An implementation is carried as the function
    from the order and the old contents to the new contents. *)
Definition sorter : Type := forall A : Type, (A -> A -> bool) -> list A -> list A.

Definition less_by {A} (key : A -> Z) (a b : A) : bool := key a <? key b.

(** What the library promises for an order given by an integer key. *)
Definition sorts (sort_Sort : sorter) : Prop :=
  forall (A : Type) (key : A -> Z) (l : list A),
    sort_Sort A (less_by key) l ≡ₚ l /\
    StronglySorted (fun a b => key a <= key b) (sort_Sort A (less_by key) l).

(** Equal keys keep their relative order. *)
Definition keeps_ties {A} (key : A -> Z) (before after : list A) : Prop :=
  forall v, filter (fun a => key a = v) after = filter (fun a => key a = v) before.

(** The library's routine for short slices in the releases 1.7 to 1.18:
[[
    for i := a + 6; i < b; i++ {
        if data.Less(i, i-6) { data.Swap(i, i-6) }
    }
    insertionSort(data, a, b)
]]
    taken here for a slice of any length, with [a = 0] and [b = len]. *)
Fixpoint gap6_pass {A} (less : A -> A -> bool) (turns i : nat) (l : list A) : list A :=
  match turns with
  | O => l
  | S turns' =>
      let l1 :=
        match l !! i, l !! (i - 6)%nat with
        | Some x, Some y => if less x y then <[(i - 6)%nat := x]> (<[i := y]> l) else l
        | _, _ => l
        end in
      gap6_pass less turns' (S i) l1
  end.

(** The inner loop of [insertionSort]: the new element moves left past
    every element it is less than; [before] is the sorted part, last
    element first. *)
Fixpoint move_left {A} (less : A -> A -> bool) (x : A) (before : list A) : list A :=
  match before with
  | [] => [x]
  | y :: before' => if less x y then y :: move_left less x before' else x :: before
  end.

Definition insertionSort {A} (less : A -> A -> bool) (l : list A) : list A :=
  reverse (foldl (fun before x => move_left less x before) [] l).

Definition short_sort : sorter :=
  fun A less l => insertionSort less (gap6_pass less (length l - 6) 6 l).

End Sort.

(** ** physicscompress/main.go *)

Module Main.

Record Delta : Type := mkDelta {
  Delta_Largest : Z;
  Delta_A : Z;
  Delta_B : Z;
  Delta_C : Z;
  Delta_X : Z;
  Delta_Y : Z;
  Delta_Z : Z;
  Delta_Interacting : Z
}.

Definition Deltas : Type := list Delta.

Definition zero_Delta : Delta := mkDelta 0 0 0 0 0 0 0 0.

Definition getLargest (a : Delta) : Z := Delta_Largest a.
Definition getInteracting (a : Delta) : Z := Delta_Interacting a.

(** Modelled from the spec: the type [IndexValue] is declared outside the
    file; [NewOrdering] gives it an [int] field [Index] and a [byte] field
    [Value]. *)
Record IndexValue : Type := mkIndexValue {
  Index : Z;
  Value : Z
}.

Record Ordering : Type := mkOrdering {
  Largest : list Z;
  Interacting : list Z;
  ABC : list IndexValue;
  XYZ : list IndexValue
}.

Definition dontsort : bool := false.

Definition NewOrdering (deltas : Deltas) : Ordering :=
  let n := Z.of_nat (length deltas) in
  mkOrdering
    (seqZ 0 n)
    (seqZ 0 n)
    (map (fun i => mkIndexValue (Z.rem i n) (byte_of (Z.quot i n))) (seqZ 0 (n * 3)))
    (map (fun i => mkIndexValue (Z.rem i n) (byte_of (Z.quot i n + 3))) (seqZ 0 (n * 3))).

(** [deltas[i]] where the index is known to be in range. *)
Definition at_index (deltas : Deltas) (i : Z) : Delta :=
  default zero_Delta (deltas !! Z.to_nat i).

Definition in_range (deltas : Deltas) (i : Z) : bool :=
  (0 <=? i) && (i <? Z.of_nat (length deltas)).

(** Modelled from the spec: the type [byGetter] is declared outside the
    file.  It orders the entries of [order] by ascending attribute value:
    [Less(i, j)] is [get(&deltas[order[i]]) < get(&deltas[order[j]])] and
    [Swap] exchanges two entries of [order]. *)
Definition byGetter_key (deltas : Deltas) (get : Delta -> Z) (entry : Z) : Z :=
  get (at_index deltas entry).

Section Improve.

Variable sort_Sort : Sort.sorter.

(** The type [byDelta] is declared outside the file; its [Less], as a
    function of the two frames and of the two entries compared. *)
Variable byDelta_Less : Deltas -> Deltas -> IndexValue -> IndexValue -> bool.

(** [sort.Sort(&byGetter{order, deltas, get})].  The comparisons index
    [deltas] by the entries of [order]; a slice of fewer than two entries is
    never compared. *)
Definition sort_byGetter (order : list Z) (deltas : Deltas) (get : Delta -> Z)
  : result (list Z) :=
  if (length order <=? 1)%nat || forallb (in_range deltas) order
  then Ok (sort_Sort Z (Sort.less_by (byGetter_key deltas get)) order)
  else Panic IndexOutOfRange.

Definition improveSort (order : list Z) (deltas : Deltas) (get : Delta -> Z)
  : result (list Z) :=
  sort_byGetter order deltas get.

Definition Improve (order : Ordering) (historic baseline : Deltas)
  : result Ordering :=
  if negb dontsort then
    largest ← sort_byGetter (Largest order) baseline getLargest;
    interacting ← sort_byGetter (Interacting order) baseline getInteracting;
    let abc := sort_Sort IndexValue (byDelta_Less historic baseline) (ABC order) in
    let xyz := sort_Sort IndexValue (byDelta_Less historic baseline) (XYZ order) in
    Ok (mkOrdering largest interacting abc xyz)
  else Ok order.

(** [Improve] at every tick of a run; a tick gives [historic] and
    [baseline].  The result lists the tables after each application. *)
Fixpoint Improve_each (order : Ordering) (ticks : list (Deltas * Deltas))
  : result (list Ordering) :=
  match ticks with
  | [] => Ok []
  | (historic, baseline) :: ticks' =>
      order1 ← Improve order historic baseline;
      orders ← Improve_each order1 ticks';
      Ok (order1 :: orders)
  end.

End Improve.

(** The tables of an ordering hold indices of the frame. *)
Definition Ordering_in_range (order : Ordering) (deltas : Deltas) : Prop :=
  Forall (fun i => in_range deltas i = true) (Largest order) /\
  Forall (fun i => in_range deltas i = true) (Interacting order).

(** Seven objects whose Largest is 1 but for the last, whose Largest is 0. *)
Definition seven : Deltas :=
  replicate 6 (mkDelta 1 0 0 0 0 0 0 0) ++ [zero_Delta].

End Main.

(** ** bit/bit.go: a stream of writes, single bits and alignments *)

Module BitLayout.

Import Bit.

(** What one side does at a place of the stream, and what the other side
    does at the same place: [WriteBits]/[ReadBits], [WriteBit]/[ReadBit],
    and [Align] on both sides. *)
Inductive sop : Type :=
| SBits (v width : Z)
| SBit (x : Z)
| SAlign.

Definition writer_op (o : sop) : wop :=
  match o with
  | SBits v width => OpWriteBits v width
  | SBit x => OpWriteBit x
  | SAlign => OpAlign
  end.

Definition reader_op (o : sop) : rop :=
  match o with
  | SBits _ width => OpReadBits width
  | SBit _ => OpReadBit
  | SAlign => OpRAlign
  end.

(** What the reader should hand back: the value, the low bit, nothing. *)
Definition expected (o : sop) : option (Z * option error) :=
  match o with
  | SBits v _ => Some (v, None)
  | SBit x => Some (Z.land x 1, None)
  | SAlign => None
  end.

Definition sop_fits (o : sop) : Prop :=
  match o with
  | SBits v width => fits_width (v, width)
  | SBit _ | SAlign => True
  end.

(** The bits from a position to the next byte boundary. *)
Definition pad (p : Z) : Z := (- p) mod 8.

(** The position after a sequence that starts at position [p]. *)
Fixpoint end_of (p : Z) (ops : list sop) : Z :=
  match ops with
  | [] => p
  | SBits _ width :: ops' => end_of (p + width) ops'
  | SBit _ :: ops' => end_of (p + 1) ops'
  | SAlign :: ops' => end_of (p + pad p) ops'
  end.

(** The number that the bits of a sequence make, read from position [p]
    on, the bit at [p] lowest; an alignment leaves zeros. *)
Fixpoint stream_from (p : Z) (ops : list sop) : Z :=
  match ops with
  | [] => 0
  | SBits v width :: ops' => v + 2 ^ width * stream_from (p + width) ops'
  | SBit x :: ops' => Z.land x 1 + 2 * stream_from (p + 1) ops'
  | SAlign :: ops' => 2 ^ pad p * stream_from (p + pad p) ops'
  end.

Definition write_ops (ops : list sop) : result (Writer * list (option error)) :=
  run_wops buffer_sink NewWriter (map writer_op ops ++ [OpClose]).

Definition transfer (ops : list sop) : result (list (option (Z * option error))) :=
  '(w, _) ← write_ops ops;
  '(_, vs) ← run_rops (bytes_source (written w)) NewReader (map reader_op ops);
  Ok vs.

(** What a reader over the bytes [bs] hands back for a sequence of widths:
    the bits of the stream at its position while they are all in [bs], and
    the value 0 with [io.EOF] from the first read that crosses the end. *)
Fixpoint reads_of (bs : list Z) (q : option Z) (widths : list Z)
  : list (option (Z * option error)) :=
  match widths with
  | [] => []
  | width :: widths' =>
      match q with
      | Some p =>
          if p + width <=? 8 * Z.of_nat (length bs)
          then Some ((little_endian bs / 2 ^ p) mod 2 ^ width, None)
                 :: reads_of bs (Some (p + width)) widths'
          else Some (0, Some EOF) :: reads_of bs None widths'
      | None => Some (0, Some EOF) :: reads_of bs None widths'
      end
  end.

(** The width of every [WriteBits] of a sequence of calls is at most [n]. *)
Definition widths_within (n : Z) (o : wop) : Prop :=
  match o with
  | OpWriteBits _ width => 0 <= width <= n
  | _ => True
  end.

End BitLayout.

(** ** physicscompress/physics/encoding.go: the helpers on bitmaps *)

Module Bitmaps.

(** [BoolsStr]: the byte ['.'] for [true] and ['X'] for [false]. *)
Definition BoolsStr (a : list bool) : list Z :=
  map (fun v : bool => if v then 46 else 88) a.

(** What a call of [SameBools] does: it panics with "different length", or
    it returns after printing the lines listed. *)
Inductive SameBools_outcome : Type :=
| DifferentLength
| Printed (lines : list (list Z)).

Definition dashes : list Z := [45; 45; 45].

Definition SameBools (a b : list bool) : SameBools_outcome :=
  if negb (length a =? length b)%nat then DifferentLength
  else
    let as_ := BoolsStr a in
    let bs := BoolsStr b in
    if bool_decide (as_ = bs) then Printed []
    else Printed [dashes; as_; bs; dashes].

End Bitmaps.

(** ** physicscompress/main.go: comparing frames, the approximate sort *)

Module MainMore.

Import Main.

#[global] Instance Delta_eq_dec : EqDecision Delta.
Proof. solve_decision. Defined.

#[global] Instance IndexValue_eq_dec : EqDecision IndexValue.
Proof. solve_decision. Defined.

(** The loop of [Deltas.Equals], from index [i] on. *)
Fixpoint Equals_from (i : Z) (a b : Deltas) : result bool :=
  match a with
  | [] => Ok true
  | ax :: a' =>
      bi ← Physics.index b i;
      if bool_decide (ax <> bi) then Ok false else Equals_from (i + 1) a' b
  end.

Definition Equals (a b : Deltas) : result bool :=
  if negb (length a =? length b)%nat then Ok false else Equals_from 0 a b.

Definition min_int32 : Z := - 2 ^ 31.

(** One pass of [improveApprox] over [order], from index [i] on with
    [todo] entries to go: [for i, idx := range order]. *)
Fixpoint approx_pass (deltas : Deltas) (get : Delta -> Z)
         (todo i : nat) (order : list Z) (prev : Z) (swapped : bool)
  : result (list Z * bool) :=
  match todo with
  | O => Ok (order, swapped)
  | S todo' =>
      idx ← Physics.index order (Z.of_nat i);
      d ← Physics.index deltas idx;
      let curr := get d in
      if curr <? prev then
        before ← Physics.index order (Z.of_nat i - 1);
        let order1 := <[i := before]> (<[(i - 1)%nat := idx]> order) in
        approx_pass deltas get todo' (S i) order1 prev true
      else
        approx_pass deltas get todo' (S i) order curr swapped
  end.

Fixpoint approx_steps (deltas : Deltas) (get : Delta -> Z)
         (steps : nat) (order : list Z) : result (list Z) :=
  match steps with
  | O => Ok order
  | S steps' =>
      '(order1, swapped) ← approx_pass deltas get (length order) 0 order min_int32 false;
      if negb swapped then Ok order1
      else approx_steps deltas get steps' order1
  end.

Definition max_steps : nat := 10.

Definition improveApprox (order : list Z) (deltas : Deltas) (get : Delta -> Z)
  : result (list Z) :=
  approx_steps deltas get max_steps order.

(** One pass seen on the list: the entry carried forward stays behind every
    entry with a smaller key and goes on past the others. *)
Fixpoint carry {A} (key : A -> Z) (x : A) (l : list A) : list A :=
  match l with
  | [] => [x]
  | y :: l' => if key y <? key x then y :: carry key x l' else x :: carry key y l'
  end.

Fixpoint carry_swaps {A} (key : A -> Z) (x : A) (l : list A) : bool :=
  match l with
  | [] => false
  | y :: l' => if key y <? key x then true else carry_swaps key y l'
  end.

(** Two orderings list the same entries, table by table. *)
Definition same_tables (a b : Ordering) : Prop :=
  Largest a ≡ₚ Largest b /\ Interacting a ≡ₚ Interacting b /\
  ABC a ≡ₚ ABC b /\ XYZ a ≡ₚ XYZ b.

(** The attribute of every cube is an [int32]. *)
Definition keys_are_int32 (deltas : Deltas) (get : Delta -> Z) : Prop :=
  Forall (fun d => min_int32 <= get d) deltas.

End MainMore.

Module SortMore.

(** [sort.Sort] moves entries by [Swap] only: whatever the order given, its
    result is a permutation of the slice. *)
Definition permutes (sort_Sort : Sort.sorter) : Prop :=
  forall (A : Type) (less : A -> A -> bool) (l : list A), sort_Sort A less l ≡ₚ l.

End SortMore.

Module Approx.

(** [improveApprox] seen on the list: a pass carries the first entry
    forward, and the passes go on while one of them swaps. *)
Definition carry_pass {A} (key : A -> Z) (l : list A) : list A * bool :=
  match l with
  | [] => ([], false)
  | x :: l' => (MainMore.carry key x l', MainMore.carry_swaps key x l')
  end.

Fixpoint carry_steps {A} (key : A -> Z) (steps : nat) (l : list A) : list A :=
  match steps with
  | O => l
  | S steps' =>
      let '(l1, swapped) := carry_pass key l in
      if negb swapped then l1 else carry_steps key steps' l1
  end.

Definition ascending {A} (key : A -> Z) : list A -> Prop :=
  StronglySorted (fun a b => key a <= key b).

(** The last [k] entries of [l], or all of them, are in ascending order and
    no entry before them has a larger key. *)
Definition settled {A} (key : A -> Z) (k : nat) (l : list A) : Prop :=
  exists front back,
    l = front ++ back /\
    length back = Nat.min k (length l) /\
    ascending key back /\
    Forall (fun a => Forall (fun b => key a <= key b) back) front.

End Approx.

(** ** physicscompress/main.go: frames on the wire *)

Module Wire.

Import Main.

(** [binary.LittleEndian.PutUint32(bs, uint32(v))]: the four bytes of the
    32-bit pattern of [v], lowest first. *)
Definition PutUint32 (v : Z) : list Z :=
  let u := v mod 2 ^ 32 in
  [byte_of u; byte_of (Z.shiftr u 8); byte_of (Z.shiftr u 16); byte_of (Z.shiftr u 24)].

(** [binary.LittleEndian.Uint32(bs)] on four bytes. *)
Definition Uint32 (bs : list Z) : Z :=
  match bs with
  | [b0; b1; b2; b3] =>
      Z.lor (Z.lor (Z.lor b0 (Z.shiftl b1 8)) (Z.shiftl b2 16)) (Z.shiftl b3 24)
  | _ => 0
  end.

Definition ErrUnexpectedEOF : Bit.error := 1%nat.

(** [io.ReadFull(r, buf)] with [len(buf) = n], for a reader that hands out
    the bytes of [input] and then [io.EOF]: the library returns [io.EOF] if
    no byte was read and [io.ErrUnexpectedEOF] if some but not [n] were.
    The result lists the bytes read and the input left. *)
Definition ReadFull (input : list Z) (n : nat) : list Z * list Z * option Bit.error :=
  if (n <=? length input)%nat then (take n input, drop n input, None)
  else if (length input =? 0)%nat then ([], [], Some Bit.EOF)
  else (input, [], Some ErrUnexpectedEOF).

(** [binary.Read(r, binary.LittleEndian, v)] for [v *int32]: four bytes
    through [io.ReadFull]; on an error [*v] is not written. *)
Definition binary_Read (input : list Z) : list Z * option Z * option Bit.error :=
  let '(bs, rest, err) := ReadFull input 4 in
  match err with
  | Some e => (rest, None, Some e)
  | None => (rest, Some (i32 (Uint32 bs)), None)
  end.

(** The fields of a [Delta] as [ReadFrom] and [WriteTo] list them. *)
Definition Delta_values (d : Delta) : list Z :=
  [Delta_Largest d; Delta_A d; Delta_B d; Delta_C d;
   Delta_X d; Delta_Y d; Delta_Z d; Delta_Interacting d].

Definition Delta_pointers : list (Delta -> Z -> Delta) :=
  [ fun d v => mkDelta v (Delta_A d) (Delta_B d) (Delta_C d)
                       (Delta_X d) (Delta_Y d) (Delta_Z d) (Delta_Interacting d);
    fun d v => mkDelta (Delta_Largest d) v (Delta_B d) (Delta_C d)
                       (Delta_X d) (Delta_Y d) (Delta_Z d) (Delta_Interacting d);
    fun d v => mkDelta (Delta_Largest d) (Delta_A d) v (Delta_C d)
                       (Delta_X d) (Delta_Y d) (Delta_Z d) (Delta_Interacting d);
    fun d v => mkDelta (Delta_Largest d) (Delta_A d) (Delta_B d) v
                       (Delta_X d) (Delta_Y d) (Delta_Z d) (Delta_Interacting d);
    fun d v => mkDelta (Delta_Largest d) (Delta_A d) (Delta_B d) (Delta_C d)
                       v (Delta_Y d) (Delta_Z d) (Delta_Interacting d);
    fun d v => mkDelta (Delta_Largest d) (Delta_A d) (Delta_B d) (Delta_C d)
                       (Delta_X d) v (Delta_Z d) (Delta_Interacting d);
    fun d v => mkDelta (Delta_Largest d) (Delta_A d) (Delta_B d) (Delta_C d)
                       (Delta_X d) (Delta_Y d) v (Delta_Interacting d);
    fun d v => mkDelta (Delta_Largest d) (Delta_A d) (Delta_B d) (Delta_C d)
                       (Delta_X d) (Delta_Y d) (Delta_Z d) v ].

(** [read(r, vs...)]: the pointers [vs] into [d] are filled in turn, up to
    the first error. *)
Fixpoint read (input : list Z) (vs : list (Delta -> Z -> Delta)) (d : Delta)
  : list Z * Delta * option Bit.error :=
  match vs with
  | [] => (input, d, None)
  | set :: vs' =>
      match binary_Read input with
      | (rest, Some v, _) => read rest vs' (set d v)
      | (rest, None, err) => (rest, d, err)
      end
  end.

Definition Delta_ReadFrom (input : list Z) (d : Delta) : list Z * Delta * option Bit.error :=
  read input Delta_pointers d.

Fixpoint ReadDelta (input : list Z) (current : Deltas) : list Z * Deltas * option Bit.error :=
  match current with
  | [] => (input, [], None)
  | d :: current' =>
      let '(input1, d1, err) := Delta_ReadFrom input d in
      match err with
      | Some e => (input1, d1 :: current', Some e)
      | None =>
          let '(input2, current2, err2) := ReadDelta input1 current' in
          (input2, d1 :: current2, err2)
      end
  end.

Section Writing.

(** The [io.Writer], as for the bit stream: the error its [Write] returns,
    given the calls made so far and the bytes of this call. *)
Variable sink : list (list Z) -> list Z -> option Bit.error.

(** [binary.Write(w, binary.LittleEndian, v)] for [v *int32]: one call of
    [w.Write] with four bytes. *)
Definition binary_Write (calls : list (list Z)) (v : Z) : list (list Z) * option Bit.error :=
  let bs := PutUint32 v in
  (calls ++ [bs], sink calls bs).

Fixpoint write (calls : list (list Z)) (vs : list Z) : list (list Z) * option Bit.error :=
  match vs with
  | [] => (calls, None)
  | v :: vs' =>
      let '(calls1, err) := binary_Write calls v in
      match err with
      | Some e => (calls1, Some e)
      | None => write calls1 vs'
      end
  end.

Definition Delta_WriteTo (calls : list (list Z)) (d : Delta) : list (list Z) * option Bit.error :=
  write calls (Delta_values d).

End Writing.

(** The bytes [WriteTo] hands to a writer that takes them all. *)
Definition Delta_bytes (d : Delta) : list Z :=
  concat (Delta_WriteTo Bit.buffer_sink [] d).1.

Definition Delta_int32 (d : Delta) : Prop :=
  Forall Physics.int32_range (Delta_values d).

(** The error [ReadDelta] returns when the input ends early. *)
Definition early_end (input : list Z) : Bit.error :=
  if (length input mod 4 =? 0)%nat then Bit.EOF else ErrUnexpectedEOF.

End Wire.

(** ** physicscompress/main.go: what Improve reads *)

Module Agreement.

Import Main.

(** [sort.Sort] reaches the slice through [Less(i, j)] at indices of the
    slice only: two orders that agree on the entries of the slice get the
    same result. *)
Definition compares_entries_only (sort_Sort : Sort.sorter) : Prop :=
  forall (A : Type) (less1 less2 : A -> A -> bool) (l : list A),
    Forall (fun a => Forall (fun b => less1 a b = less2 a b) l) l ->
    sort_Sort A less1 l = sort_Sort A less2 l.

Definition agree_on {A} (less1 less2 : A -> A -> bool) (l : list A) : Prop :=
  forall a b, a ∈ l -> b ∈ l -> less1 a b = less2 a b.

(** What a comparison of [byGetter] reads for the entry [i]: the attribute
    of [deltas[i]], or nothing where [i] is no index of the frame. *)
Definition attribute_at (deltas : Deltas) (get : Delta -> Z) (i : Z) : option Z :=
  if in_range deltas i then Some (get (at_index deltas i)) else None.

Definition same_attribute (get : Delta -> Z) (baseline1 baseline2 : Deltas)
           (table : list Z) : Prop :=
  Forall (fun i => attribute_at baseline1 get i = attribute_at baseline2 get i) table.

Section Reads.

Variable byDelta_Less : Deltas -> Deltas -> IndexValue -> IndexValue -> bool.

Definition same_order (historic1 baseline1 historic2 baseline2 : Deltas)
           (table : list IndexValue) : Prop :=
  Forall (fun a =>
            Forall (fun b => byDelta_Less historic1 baseline1 a b
                             = byDelta_Less historic2 baseline2 a b) table) table.

(** Two pairs of frames agree on all that [Improve] reads of them for the
    tables of [order]: the Largest and the Interacting of the objects
    listed, in baseline, and the order of [byDelta] on the pairs listed. *)
Definition reads_agree (order : Ordering)
           (historic1 baseline1 historic2 baseline2 : Deltas) : Prop :=
  same_attribute getLargest baseline1 baseline2 (Largest order) /\
  same_attribute getInteracting baseline1 baseline2 (Interacting order) /\
  same_order historic1 baseline1 historic2 baseline2 (ABC order) /\
  same_order historic1 baseline1 historic2 baseline2 (XYZ order).

Definition ticks_agree (order : Ordering) (ticks1 ticks2 : list (Deltas * Deltas)) : Prop :=
  Forall2 (fun tick1 tick2 => reads_agree order tick1.1 tick1.2 tick2.1 tick2.2)
          ticks1 ticks2.

End Reads.

(** Three objects, and the same three after A, B, C, X, Y and Z have moved. *)
Definition three : Deltas :=
  [mkDelta 2 0 0 0 0 0 0 1; mkDelta 0 0 0 0 0 0 0 0; mkDelta 2 0 0 0 0 0 0 1].

Definition three_moved : Deltas :=
  [mkDelta 2 5 (-1) 0 7 0 0 1; mkDelta 0 1 2 3 4 5 6 0; mkDelta 2 0 0 9 0 0 (-4) 1].

End Agreement.

(** * Theorems *)

Import Bit.

(** ** Machine words *)

Section PowersOfTwo.

Lemma pow2_pos (n : Z) : 0 <= n -> 0 < 2 ^ n.
Proof. intros Hn. apply Z.pow_pos_nonneg; lia. Qed.

Lemma mod_pow2_split (a k w : Z) :
  0 <= w <= k ->
  a mod 2 ^ k = a mod 2 ^ w + 2 ^ w * ((a / 2 ^ w) mod 2 ^ (k - w)).
Proof.
  intros Hw. replace k with (w + (k - w)) at 1 by lia.
  rewrite Z.pow_add_r by lia.
  apply Z.rem_mul_r; [pose proof (pow2_pos w); lia | apply pow2_pos; lia].
Qed.

Lemma mod_pow2_div (a k w : Z) :
  0 <= w <= k -> (a mod 2 ^ k) / 2 ^ w = (a / 2 ^ w) mod 2 ^ (k - w).
Proof.
  intros Hw. rewrite (mod_pow2_split a k w Hw).
  pose proof (pow2_pos w ltac:(lia)) as Hp.
  rewrite (Z.mul_comm (2 ^ w)), Z.div_add by lia.
  rewrite Z.div_small by (apply Z.mod_pos_bound; exact Hp). lia.
Qed.

Lemma mod_pow2_mod (a k w : Z) :
  0 <= w <= k -> (a mod 2 ^ k) mod 2 ^ w = a mod 2 ^ w.
Proof.
  intros Hw. rewrite (mod_pow2_split a k w Hw).
  pose proof (pow2_pos w ltac:(lia)) as Hp.
  rewrite (Z.mul_comm (2 ^ w)), Z.mod_add by lia.
  apply Z.mod_mod. lia.
Qed.

Lemma lor_above (a b n : Z) :
  0 <= n -> 0 <= a < 2 ^ n -> 0 <= b -> Z.lor a (Z.shiftl b n) = a + b * 2 ^ n.
Proof.
  intros Hn Ha Hb.
  assert (Hland : Z.land a (Z.shiftl b n) = 0).
  { apply Z.bits_inj'. intros i Hi. rewrite Z.land_spec, Z.bits_0.
    destruct (Z.lt_ge_cases i n) as [Hlt | Hge].
    - rewrite (Z.shiftl_spec_low b n i Hlt). apply andb_false_r.
    - assert (Hhigh : Z.testbit a i = false).
      { destruct (Z.eq_dec a 0) as [-> | Hnz]; [apply Z.bits_0 |].
        apply Z.bits_above_log2; [lia |].
        apply Z.log2_lt_pow2; [lia |].
        eapply Z.lt_le_trans; [exact (proj2 Ha) |].
        apply Z.pow_le_mono_r; lia. }
      rewrite Hhigh. reflexivity. }
  rewrite <- Z.lxor_lor by exact Hland.
  rewrite <- Z.add_nocarry_lxor by exact Hland.
  rewrite Z.shiftl_mul_pow2 by exact Hn. reflexivity.
Qed.

Lemma u64_small (z : Z) : 0 <= z < 2 ^ 64 -> u64 z = z.
Proof. intros Hz. unfold u64. apply Z.mod_small. exact Hz. Qed.

Lemma pow2_le (n m : Z) : 0 <= n <= m -> 2 ^ n <= 2 ^ m.
Proof. intros H. apply Z.pow_le_mono_r; lia. Qed.

End PowersOfTwo.

Lemma i64_small (z : Z) : - 2 ^ 63 <= z < 2 ^ 63 -> i64 z = z.
Proof.
  intros Hz. unfold i64.
  rewrite Z.mod_small by lia. lia.
Qed.

Lemma i32_small (z : Z) : Physics.int32_range z -> i32 z = z.
Proof.
  unfold Physics.int32_range, i32. intros Hz. rewrite Z.mod_small by lia. lia.
Qed.

(** ** The bit stream: sticky errors *)

Section Sticky.

Variable sink : list (list Z) -> list Z -> option error.
Variable source : nat -> Z * option error.

Lemma flush_failed w e :
  w_err w = Some e ->
  Writer_flush sink w = Ok (mkWriter (w_calls w) (w_bits w) 0 (Some e)).
Proof. intros He. unfold Writer_flush. rewrite He. reflexivity. Qed.

Lemma flushpartial_failed w e :
  w_err w = Some e ->
  Writer_flushpartial sink w = Ok (mkWriter (w_calls w) (w_bits w) 0 (Some e)).
Proof.
  intros He. unfold Writer_flushpartial.
  rewrite (flush_failed _ _ He). reflexivity.
Qed.

Lemma WriteBits_failed w e x width :
  w_err w = Some e ->
  exists w', Writer_WriteBits sink w x width = Ok (w', Some e) /\ same_failure e w w'.
Proof.
  intros He. unfold Writer_WriteBits.
  destruct (16 <? u64 (w_nbits w + width)) eqn:Hn; cbn [w_nbits].
  - rewrite Hn. erewrite flush_failed by exact He.
    eexists. split; [reflexivity | split; reflexivity].
  - rewrite Hn. eexists. cbn. rewrite He.
    split; [reflexivity | split; reflexivity].
Qed.

Lemma Align_failed w e :
  w_err w = Some e ->
  exists w', Writer_Align sink w = Ok (w', Some e) /\ same_failure e w w'.
Proof.
  intros He. unfold Writer_Align.
  rewrite (flushpartial_failed _ _ He).
  eexists. split; [reflexivity | split; reflexivity].
Qed.

Lemma run_wop_failed w e o :
  w_err w = Some e ->
  exists w', run_wop sink w o = Ok (w', Some e) /\ same_failure e w w'.
Proof.
  intros He. destruct o as [x width | x | | ]; cbn [run_wop].
  - apply WriteBits_failed, He.
  - apply WriteBits_failed, He.
  - apply Align_failed, He.
  - apply Align_failed, He.
Qed.

Lemma run_wops_failed os : forall w e,
  w_err w = Some e ->
  exists w', run_wops sink w os = Ok (w', map (fun _ => Some e) os)
             /\ same_failure e w w'.
Proof.
  induction os as [| o os IH]; intros w e He.
  - exists w. split; [reflexivity | split; [reflexivity | exact He]].
  - destruct (run_wop_failed w e o He) as (w1 & Hrun & Hc1 & He1).
    destruct (IH w1 e He1) as (w2 & Hruns & Hc2 & He2).
    exists w2. cbn [run_wops map]. rewrite Hrun. cbn. rewrite Hruns. cbn.
    split; [reflexivity | split; [congruence | exact He2]].
Qed.

Lemma run_rop_failed r e o :
  r_err r = Some e ->
  exists r', run_rop source r o = Ok (r', failed_answer e o)
             /\ r_reads r' = r_reads r /\ r_err r' = Some e.
Proof.
  intros He. destruct o as [width | | ]; cbn [run_rop failed_answer].
  - unfold Reader_ReadBits. rewrite He. exists r. cbn. auto.
  - unfold Reader_ReadBit, Reader_ReadBits. rewrite He. exists r. cbn. auto.
  - eexists. split; [reflexivity |]. cbn. auto.
Qed.

Lemma run_rops_failed os : forall r e,
  r_err r = Some e ->
  exists r', run_rops source r os = Ok (r', map (failed_answer e) os)
             /\ r_reads r' = r_reads r /\ r_err r' = Some e.
Proof.
  induction os as [| o os IH]; intros r e He.
  - exists r. cbn. auto.
  - destruct (run_rop_failed r e o He) as (r1 & Hrun & Hc1 & He1).
    destruct (IH r1 e He1) as (r2 & Hruns & Hc2 & He2).
    exists r2. cbn [run_rops map]. rewrite Hrun. cbn. rewrite Hruns. cbn.
    split; [reflexivity | split; [congruence | exact He2]].
Qed.

Lemma ReadBits_loop_failure fuel : forall r width x n r' v e,
  ReadBits_loop source fuel r width x n = Ok (r', v, Some e) ->
  v = 0 /\ r_err r' = Some e.
Proof.
  induction fuel as [| fuel IH]; intros r width x n r' v e; cbn [ReadBits_loop].
  - destruct (0 <? i64 (i64 width - i64 n)); intros H; discriminate H.
  - destruct (0 <? i64 (i64 width - i64 n)); [| intros H; discriminate H].
    cbn [r_err].
    destruct (r_err (Reader_read source r)) as [e1 |] eqn:He1.
    + intros H. injection H as <- <- <-. split; reflexivity.
    + apply IH.
Qed.

Lemma ReadBits_failure r width r' v e :
  Reader_ReadBits source r width = Ok (r', v, Some e) ->
  v = 0 /\ r_err r' = Some e.
Proof.
  unfold Reader_ReadBits.
  destruct (r_err r) as [e0 |] eqn:He0.
  - intros H. injection H as <- <- <-. auto.
  - destruct (i64 width <? i64 (8 - i64 (r_nbits r))).
    + intros H. discriminate H.
    + apply ReadBits_loop_failure.
Qed.

Lemma run_wop_failure w o w' e :
  run_wop sink w o = Ok (w', Some e) -> w_err w' = Some e.
Proof.
  assert (Hbind : forall (m : result Writer),
             result_bind (fun w2 => Ok (w2, w_err w2)) m = Ok (w', Some e) ->
             w_err w' = Some e).
  { intros [w2 | p] H; [| discriminate H]. cbn in H. injection H as <- H. exact H. }
  destruct o as [x width | x | | ]; cbn [run_wop]; apply Hbind.
Qed.

(** C8. Errors of the bit stream are sticky.  A call that returns an
    error leaves that error set in the instance (and a [ReadBits] that
    returns an error returns the value 0).  Once the error of a [Writer] (of
    a [Reader]) is set, every later call on the instance, whatever the
    sequence of calls, makes no call of the underlying [Write] ([Read]) and
    returns that same error, and the error stays set. *)
Theorem errors_are_sticky (w : Writer) (r : Reader) (e e' : error)
        (wos : list wop) (ros : list rop) :
  w_err w = Some e ->
  r_err r = Some e' ->
  (exists w', run_wops sink w wos = Ok (w', map (fun _ => Some e) wos)
              /\ w_calls w' = w_calls w /\ w_err w' = Some e) /\
  (exists r', run_rops source r ros = Ok (r', map (failed_answer e') ros)
              /\ r_reads r' = r_reads r /\ r_err r' = Some e') /\
  (forall w0 o w1 err,
      run_wop sink w0 o = Ok (w1, Some err) -> w_err w1 = Some err) /\
  (forall r0 width r1 v err,
      Reader_ReadBits source r0 width = Ok (r1, v, Some err) ->
      v = 0 /\ r_err r1 = Some err).
Proof.
  intros Hw Hr. split; [| split; [| split]].
  - apply run_wops_failed, Hw.
  - apply run_rops_failed, Hr.
  - intros w0 o w1 err. apply run_wop_failure.
  - intros r0 width r1 v err. apply ReadBits_failure.
Qed.

End Sticky.

Example failed_writer_reached :
  run_wops refusing_sink NewWriter [OpWriteBit 1; OpAlign]
  = Ok (failed_writer, [None; Some 7%nat]).
Proof. reflexivity. Qed.

Example failed_reader_reached :
  run_rops (bytes_source [255]) NewReader [OpReadBits 8; OpReadBit]
  = Ok (failed_reader, [Some (255, None); Some (0, Some EOF)]).
Proof. vm_compute. reflexivity. Qed.

Lemma errors_are_sticky_witness :
  (exists w', run_wops refusing_sink failed_writer [OpWriteBits 5 3; OpWriteBit 1; OpClose]
              = Ok (w', [Some 7%nat; Some 7%nat; Some 7%nat])
              /\ w_calls w' = [[]] /\ w_err w' = Some 7%nat) /\
  (exists r', run_rops (bytes_source [255]) failed_reader [OpReadBits 4; OpRAlign; OpReadBit]
              = Ok (r', [Some (0, Some EOF); None; Some (0, Some EOF)])
              /\ r_reads r' = 2%nat /\ r_err r' = Some EOF).
Proof.
  destruct (errors_are_sticky refusing_sink (bytes_source [255])
              failed_writer failed_reader 7%nat EOF
              [OpWriteBits 5 3; OpWriteBit 1; OpClose]
              [OpReadBits 4; OpRAlign; OpReadBit]
              eq_refl eq_refl) as (Hw & Hr & _).
  split; [exact Hw | exact Hr].
Defined.

(** ** The bit stream: what is read back *)

(** C4, at the writes (3, width 1) then (0, width 1).  The first call
    leaves bit 1 of the value 3 in the accumulator, where the second call
    writes; the two bits read back are 1 and 1, and not 1 and 0, the low
    bits of the two values. *)
Theorem WriteBits_keeps_high_bits :
  write_then_read [(3, 1); (0, 1)] = Ok (read_back [1; 1]) /\
  write_then_read [(3, 1); (0, 1)] <> Ok (read_back [3 mod 2 ^ 1; 0 mod 2 ^ 1]).
Proof. split; [vm_compute; reflexivity | vm_compute; intros H; discriminate H]. Qed.

(** *** Values that fit their width *)

Lemma little_endian_app (bs cs : list Z) :
  little_endian (bs ++ cs)
  = little_endian bs + 2 ^ (8 * Z.of_nat (length bs)) * little_endian cs.
Proof.
  induction bs as [| b bs IH].
  - cbn [app length little_endian]. change (2 ^ (8 * Z.of_nat 0)) with 1. lia.
  - cbn [app length little_endian]. rewrite IH.
    replace (8 * Z.of_nat (S (length bs))) with (8 + 8 * Z.of_nat (length bs)) by lia.
    rewrite Z.pow_add_r by lia. change (2 ^ 8) with 256. ring.
Qed.

Lemma little_endian_bound (bs : list Z) :
  Forall is_byte bs -> 0 <= little_endian bs < 2 ^ (8 * Z.of_nat (length bs)).
Proof.
  induction 1 as [| b bs Hb _ IH].
  - cbn. lia.
  - cbn [length little_endian].
    replace (8 * Z.of_nat (S (length bs))) with (8 + 8 * Z.of_nat (length bs)) by lia.
    rewrite Z.pow_add_r by lia. change (2 ^ 8) with 256.
    unfold is_byte in Hb. nia.
Qed.

Lemma stream_of_snoc (vws : list (Z * Z)) (v width : Z) :
  Forall fits_width vws -> 0 <= width ->
  stream_of (vws ++ [(v, width)]) = stream_of vws + v * 2 ^ width_of vws /\
  width_of (vws ++ [(v, width)]) = width_of vws + width /\
  0 <= width_of vws.
Proof.
  intros Hfit Hw. induction Hfit as [| [v0 w0] vws [Hw0 Hv0] _ IH].
  - cbn. change (2 ^ 0) with 1. lia.
  - destruct IH as (IHs & IHw & IH0). cbn [fst snd] in *.
    cbn [app stream_of width_of]. rewrite IHs, IHw.
    rewrite Z.pow_add_r by lia. split; [ring | lia].
Qed.

Lemma stream_of_bound (vws : list (Z * Z)) :
  Forall fits_width vws -> 0 <= stream_of vws < 2 ^ width_of vws /\ 0 <= width_of vws.
Proof.
  induction 1 as [| [v w] vws [Hw Hv] _ (IHs & IHw)]; cbn [fst snd] in *.
  - cbn. lia.
  - cbn [stream_of width_of]. rewrite Z.pow_add_r by lia.
    pose proof (pow2_pos w ltac:(lia)). split; [nia | lia].
Qed.

Lemma flush_loop_holds (room : nat) : forall (bits nbits : Z) (buf : list Z),
  0 <= nbits <= 8 * Z.of_nat room + 8 ->
  0 <= bits < 2 ^ nbits ->
  exists bits' nbits' out,
    flush_loop room bits nbits buf = Ok (bits', nbits', buf ++ out) /\
    Forall is_byte out /\
    0 <= nbits' <= 8 /\
    0 <= bits' < 2 ^ nbits' /\
    nbits = 8 * Z.of_nat (length out) + nbits' /\
    bits = little_endian out + 2 ^ (8 * Z.of_nat (length out)) * bits'.
Proof.
  induction room as [| room IH]; intros bits nbits buf Hn Hb; cbn [flush_loop].
  - replace (8 <? nbits) with false by (symmetry; apply Z.ltb_ge; lia).
    exists bits, nbits, []. rewrite app_nil_r. cbn.
    change (2 ^ 0) with 1. repeat split; try constructor; lia.
  - destruct (8 <? nbits) eqn:Hlt.
    + apply Z.ltb_lt in Hlt.
      assert (Hsplit : 2 ^ nbits = 256 * 2 ^ (nbits - 8)).
      { replace nbits with (8 + (nbits - 8)) at 1 by lia.
        rewrite Z.pow_add_r by lia. reflexivity. }
      assert (Hhi : 0 <= bits / 256 < 2 ^ (nbits - 8)).
      { split; [apply Z.div_pos; lia |].
        apply Z.div_lt_upper_bound; lia. }
      unfold shr64. rewrite Z.shiftr_div_pow2 by lia. change (2 ^ 8) with 256.
      destruct (IH (bits / 256) (nbits - 8) (buf ++ [byte_of bits]) ltac:(lia) Hhi)
        as (bits' & nbits' & out & Hrun & Hout & Hn' & Hb' & Hlen & Hval).
      exists bits', nbits', (byte_of bits :: out).
      rewrite Hrun, <- app_assoc. cbn [app length little_endian].
      split; [reflexivity |].
      split; [constructor; [apply Z.mod_pos_bound; lia | exact Hout] |].
      split; [exact Hn' |]. split; [exact Hb' |]. split; [lia |].
      replace (8 * Z.of_nat (S (length out))) with (8 + 8 * Z.of_nat (length out)) by lia.
      rewrite Z.pow_add_r by lia. change (2 ^ 8) with 256.
      unfold byte_of. pose proof (Z.div_mod bits 256 ltac:(lia)). nia.
    + apply Z.ltb_ge in Hlt.
      exists bits, nbits, []. rewrite app_nil_r. cbn.
      change (2 ^ 0) with 1. repeat split; try constructor; lia.
Qed.

Lemma written_snoc (calls : list (list Z)) (buf : list Z) (bits nbits : Z)
      (e : option error) :
  written (mkWriter (calls ++ [buf]) bits nbits e) = concat calls ++ buf.
Proof. unfold written. cbn. rewrite concat_app. cbn. rewrite app_nil_r. reflexivity. Qed.

Lemma flush_holds (w : Writer) (S T : Z) :
  Writer_holds w S T -> w_nbits w <= 136 ->
  exists w', Writer_flush buffer_sink w = Ok w' /\ Writer_holds w' S T /\ w_nbits w' <= 8.
Proof.
  intros (He & Hbytes & Hn0 & Hb & HT & HS) Hn.
  unfold Writer_flush. rewrite He.
  destruct (flush_loop_holds 16 (w_bits w) (w_nbits w) [] ltac:(lia) Hb)
    as (bits' & nbits' & out & Hrun & Hout & Hn' & Hb' & Hlen & Hval).
  rewrite Hrun. cbn. eexists. split; [reflexivity |].
  unfold Writer_holds. rewrite written_snoc. cbn [w_err w_nbits w_bits].
  fold (written w). rewrite length_app, little_endian_app.
  split; [| lia].
  split; [reflexivity |]. split; [apply Forall_app; auto |].
  split; [lia |]. split; [exact Hb' |]. split; [lia |].
  rewrite HS, Hval.
  replace (8 * Z.of_nat (length (written w) + length out))
    with (8 * Z.of_nat (length (written w)) + 8 * Z.of_nat (length out)) by lia.
  rewrite Z.pow_add_r by lia. ring.
Qed.

Lemma WriteBits_holds (w : Writer) (S T x width : Z) :
  Writer_holds w S T -> w_nbits w <= 16 -> fits_width (x, width) ->
  exists w',
    Writer_WriteBits buffer_sink w x width = Ok (w', None) /\
    Writer_holds w' (S + x * 2 ^ T) (T + width) /\ w_nbits w' <= 16.
Proof.
  intros (He & Hbytes & Hn0 & Hb & HT & HS) Hn [Hw Hx]. cbn [fst snd] in Hw, Hx.
  assert (Hx16 : 2 ^ width <= 2 ^ 16) by (apply pow2_le; lia).
  assert (Hn16 : 2 ^ w_nbits w <= 2 ^ 16) by (apply pow2_le; lia).
  pose proof (pow2_pos (w_nbits w) Hn0) as Hpn.
  set (w1 := mkWriter (w_calls w) (w_bits w + x * 2 ^ w_nbits w)
                      (w_nbits w + width) (w_err w)).
  assert (H1 : Writer_holds w1 (S + x * 2 ^ T) (T + width)).
  { unfold Writer_holds, w1. cbn [w_err w_nbits w_bits].
    change (written (mkWriter (w_calls w) _ _ (w_err w))) with (written w).
    split; [exact He |]. split; [exact Hbytes |]. split; [lia |].
    split; [rewrite Z.pow_add_r by lia; nia |]. split; [lia |].
    rewrite HS, HT, Z.pow_add_r by lia. ring. }
  assert (Hstep : Writer_WriteBits buffer_sink w x width
                  = result_bind (fun w2 => Ok (w2, w_err w2))
                      (if 16 <? w_nbits w1 then Writer_flush buffer_sink w1 else Ok w1)).
  { assert (Hlor : Z.lor (w_bits w) (shl64 (u64 x) (w_nbits w))
                   = w_bits w + x * 2 ^ w_nbits w).
    { rewrite (u64_small x) by lia.
      unfold shl64. rewrite u64_small.
      - apply lor_above; lia.
      - rewrite Z.shiftl_mul_pow2 by lia.
        change (2 ^ 64) with (2 ^ 16 * 2 ^ 48). nia. }
    unfold Writer_WriteBits, w1. cbn [w_nbits].
    rewrite Hlor, (u64_small (w_nbits w + width)) by lia.
    reflexivity. }
  rewrite Hstep.
  destruct (16 <? w_nbits w1) eqn:Hbig.
  - destruct (flush_holds w1 _ _ H1) as (w2 & Hrun & H2 & Hn2);
      [unfold w1; cbn; lia |].
    rewrite Hrun. cbn. exists w2.
    destruct H2 as (He2 & H2). rewrite He2.
    split; [reflexivity |]. split; [split; [exact He2 | exact H2] | lia].
  - apply Z.ltb_ge in Hbig. exists w1.
    split; [cbn; rewrite He; reflexivity |]. split; [exact H1 | exact Hbig].
Qed.

Lemma Close_holds (w : Writer) (S T : Z) :
  Writer_holds w S T -> w_nbits w <= 136 ->
  exists w',
    Writer_Close buffer_sink w = Ok (w', None) /\
    Forall is_byte (written w') /\
    little_endian (written w') = S /\
    T <= 8 * Z.of_nat (length (written w')).
Proof.
  intros Hw Hn.
  destruct (flush_holds w S T Hw Hn) as (w1 & Hrun & H1 & Hn1).
  destruct H1 as (He & Hbytes & Hn0 & Hb & HT & HS).
  unfold Writer_Close, Writer_Align, Writer_flushpartial. rewrite Hrun. cbn.
  rewrite He.
  destruct (0 <? w_nbits w1) eqn:Hpos.
  - cbn. eexists. split; [reflexivity |].
    rewrite written_snoc. fold (written w1).
    assert (Hbyte : is_byte (w_bits w1)).
    { unfold is_byte. pose proof (pow2_le (w_nbits w1) 8 ltac:(lia)).
      change (2 ^ 8) with 256 in *. lia. }
    unfold byte_of. rewrite Z.mod_small by exact Hbyte.
    split; [apply Forall_app; split; [exact Hbytes | constructor; [exact Hbyte | constructor]] |].
    rewrite little_endian_app, length_app. cbn [little_endian length].
    split; [rewrite HS; ring | lia].
  - apply Z.ltb_ge in Hpos. cbn. rewrite He. exists w1.
    assert (Hz : w_nbits w1 = 0) by lia.
    rewrite Hz in Hb. change (2 ^ 0) with 1 in Hb.
    assert (Hbits : w_bits w1 = 0) by lia.
    split; [reflexivity |]. split; [exact Hbytes |].
    split; [rewrite HS, Hbits; ring | lia].
Qed.

Lemma write_ops_hold (vws : list (Z * Z)) : forall (pre : list (Z * Z)) (w : Writer),
  Forall fits_width pre -> Forall fits_width vws ->
  Writer_holds w (stream_of pre) (width_of pre) -> w_nbits w <= 16 ->
  exists w' es,
    run_wops buffer_sink w
             (map (fun vw => OpWriteBits (fst vw) (snd vw)) vws ++ [OpClose])
    = Ok (w', es) /\
    Forall is_byte (written w') /\
    little_endian (written w') = stream_of (pre ++ vws) /\
    width_of (pre ++ vws) <= 8 * Z.of_nat (length (written w')).
Proof.
  induction vws as [| [v width] vws IH]; intros pre w Hpre Hvws Hw Hn.
  - cbn [map app run_wops run_wop]. rewrite app_nil_r.
    destruct (Close_holds w _ _ Hw ltac:(lia)) as (w' & Hrun & Hbytes & HS & HT).
    rewrite Hrun. cbn. exists w'. eexists. auto.
  - apply Forall_cons in Hvws as [Hvw Hvws].
    destruct (WriteBits_holds w _ _ v width Hw Hn Hvw) as (w1 & Hrun & Hw1 & Hn1).
    destruct (stream_of_snoc pre v width Hpre ltac:(destruct Hvw; cbn in *; lia))
      as (Hs & Ht & _).
    rewrite <- Hs, <- Ht in Hw1.
    destruct (IH (pre ++ [(v, width)]) w1) as (w' & es & Hruns & Hrest);
      [apply Forall_app; split; [exact Hpre | constructor; [exact Hvw | constructor]]
      | exact Hvws | exact Hw1 | exact Hn1 |].
    rewrite <- app_assoc in Hrest. cbn [app] in Hrest.
    cbn [map app run_wops run_wop fst snd]. rewrite Hrun. cbn.
    rewrite Hruns. cbn. exists w'. eexists. split; [reflexivity | exact Hrest].
Qed.

(** The bits of one byte of a slice, within the stream of the slice. *)
Lemma little_endian_byte (bs : list Z) (k : nat) (b : Z) :
  Forall is_byte bs -> bs !! k = Some b ->
  forall m, 0 <= m <= 8 ->
    b / 2 ^ m = (little_endian bs / 2 ^ (8 * Z.of_nat k + m)) mod 2 ^ (8 - m).
Proof.
  intros Hbytes Hk m Hm.
  destruct (list_elem_of_split_length bs k b Hk) as (pre & post & -> & ->).
  apply Forall_app in Hbytes as [Hpre Hpost].
  apply Forall_cons in Hpost as [Hb Hpost].
  pose proof (little_endian_bound pre Hpre) as Hlow.
  pose proof (little_endian_bound post Hpost) as Hhigh.
  rewrite little_endian_app. cbn [little_endian].
  set (P := 2 ^ (8 * Z.of_nat (length pre))) in *.
  set (X := b + 256 * little_endian post).
  assert (HP : 0 < P) by (apply pow2_pos; lia).
  rewrite Z.pow_add_r by lia. fold P.
  rewrite <- Z.div_div by (try lia; pose proof (pow2_pos m); lia).
  rewrite (Z.mul_comm P X), Z.div_add by lia.
  rewrite (Z.div_small _ P) by lia. rewrite Z.add_0_l.
  rewrite <- (mod_pow2_div X 8 m Hm). f_equal.
  unfold X. change (2 ^ 8) with 256.
  rewrite (Z.mul_comm 256), Z.mod_add by lia.
  symmetry. apply Z.mod_small. exact Hb.
Qed.

Lemma mask_ones (width : Z) (x : Z) :
  0 <= width <= 32 -> Z.land x (mask width) = x mod 2 ^ width.
Proof.
  intros Hw. unfold mask, shl64.
  assert (Hp : 0 < 2 ^ width <= 2 ^ 32)
    by (split; [apply pow2_pos; lia | apply pow2_le; lia]).
  rewrite Z.shiftl_mul_pow2, Z.mul_1_l by lia.
  rewrite (u64_small (2 ^ width)) by (change (2 ^ 64) with (2 ^ 32 * 2 ^ 32); lia).
  rewrite u64_small by (change (2 ^ 64) with (2 ^ 32 * 2 ^ 32); lia).
  replace (2 ^ width - 1) with (Z.ones width)
    by (rewrite Z.ones_equiv; lia).
  apply Z.land_ones. lia.
Qed.

Section Reading.

Variable bs : list Z.
Hypothesis bs_bytes : Forall is_byte bs.

Let S : Z := little_endian bs.

Lemma ReadBits_loop_at (width : Z) (fuel : nat) :
  forall (r : Reader) (x n p lo : Z),
  0 <= width <= 32 ->
  r_err r = None ->
  0 <= r_bits r < 256 ->
  0 <= p -> 0 <= n < width + 8 ->
  8 * Z.of_nat (r_reads r) = p + n ->
  r_nbits r = u64 (8 - n) ->
  x = (S / 2 ^ p) mod 2 ^ n ->
  0 <= lo <= 8 - n + width ->
  0 <= 8 * Z.of_nat (r_reads r) - 8 + lo ->
  (forall m, lo <= m <= 8 ->
     r_bits r / 2 ^ m = (S / 2 ^ (8 * Z.of_nat (r_reads r) - 8 + m)) mod 2 ^ (8 - m)) ->
  p + width <= 8 * Z.of_nat (length bs) ->
  width - n <= 8 * Z.of_nat fuel ->
  exists r',
    ReadBits_loop (bytes_source bs) fuel r width x n
    = Ok (r', (S / 2 ^ p) mod 2 ^ width, None) /\
    Reader_at bs r' (p + width).
Proof.
  induction fuel as [| fuel IH];
    intros r x n p lo Hw He Hb Hp Hn Hreads Hnbits Hx Hlo Hlo0 Hview Hend Hfuel;
    cbn [ReadBits_loop].
  - rewrite (i64_small width), (i64_small n), (i64_small (width - n)) by lia.
    replace (0 <? width - n) with false by (symmetry; apply Z.ltb_ge; lia).
    eexists. split.
    + rewrite mask_ones by exact Hw. rewrite Hx, mod_pow2_mod by lia. reflexivity.
    + unfold Reader_at. cbn [r_err r_nbits r_bits r_reads].
      rewrite Hnbits. unfold u64. rewrite Zplus_mod_idemp_l.
      rewrite Z.mod_small by lia.
      split; [exact He |]. split; [lia |]. split; [exact Hb |].
      split; [lia |]. split; [lia |].
      intros m Hm.
      replace (p + width - (8 - n + width) + m)
        with (8 * Z.of_nat (r_reads r) - 8 + m) by lia.
      apply Hview. lia.
  - rewrite (i64_small width), (i64_small n), (i64_small (width - n)) by lia.
    destruct (0 <? width - n) eqn:Hmore.
    + apply Z.ltb_lt in Hmore.
      assert (Hk : (r_reads r < length bs)%nat) by lia.
      destruct (lookup_lt_is_Some_2 bs (r_reads r) Hk) as [b Hbk].
      assert (Hbyte : is_byte b)
        by (eapply Forall_lookup_1; [exact bs_bytes | exact Hbk]).
      unfold Reader_read. rewrite He. unfold bytes_source. rewrite Hbk.
      cbn [r_err r_reads r_bits r_nbits].
      rewrite (u64_small b) by (unfold is_byte in Hbyte; lia).
      rewrite (u64_small (n + 8)) by lia.
      assert (H2n : 0 < 2 ^ n <= 2 ^ 40)
        by (split; [apply pow2_pos; lia | apply pow2_le; lia]).
      assert (Hxn : 0 <= x < 2 ^ n)
        by (rewrite Hx; apply Z.mod_pos_bound; lia).
      assert (Hshl : shl64 b n = Z.shiftl b n).
      { unfold shl64. apply u64_small. rewrite Z.shiftl_mul_pow2 by lia.
        unfold is_byte in Hbyte. change (2 ^ 64) with (2 ^ 24 * 2 ^ 40). nia. }
      rewrite Hshl, lor_above by (unfold is_byte in Hbyte; lia).
      pose proof (little_endian_byte bs (r_reads r) b bs_bytes Hbk) as Hbits.
      fold S in Hbits.
      destruct (IH (mkReader (Datatypes.S (r_reads r)) b (u64 (r_nbits r - 8)) None)
                   (x + b * 2 ^ n) (n + 8) p 0) as (r' & Hrun & Hat);
        cbn [r_err r_reads r_bits r_nbits]; try lia; try assumption; try reflexivity.
      * rewrite Hnbits. unfold u64. rewrite Zminus_mod_idemp_l. f_equal. lia.
      * rewrite (mod_pow2_split (S / 2 ^ p) (n + 8) n) by lia.
        replace (n + 8 - n) with 8 by lia.
        rewrite Z.div_div by (try lia; pose proof (pow2_pos p); lia).
        rewrite <- Z.pow_add_r by lia.
        specialize (Hbits 0 ltac:(lia)).
        change (2 ^ 0) with 1 in Hbits. rewrite Z.div_1_r, Z.add_0_r in Hbits.
        replace (8 - 0) with 8 in Hbits by lia.
        replace (p + n) with (8 * Z.of_nat (r_reads r)) by lia.
        rewrite <- Hbits, <- Hx. ring.
      * intros m Hm.
        replace (8 * Z.of_nat (Datatypes.S (r_reads r)) - 8 + m)
          with (8 * Z.of_nat (r_reads r) + m) by lia.
        apply Hbits. lia.
      * exists r'. split; [exact Hrun | exact Hat].
    + apply Z.ltb_ge in Hmore.
      eexists. split.
      * rewrite mask_ones by exact Hw. rewrite Hx, mod_pow2_mod by lia. reflexivity.
      * unfold Reader_at. cbn [r_err r_nbits r_bits r_reads].
        rewrite Hnbits. unfold u64. rewrite Zplus_mod_idemp_l.
        rewrite Z.mod_small by lia.
        split; [exact He |]. split; [lia |]. split; [exact Hb |].
        split; [lia |]. split; [lia |].
        intros m Hm.
        replace (p + width - (8 - n + width) + m)
          with (8 * Z.of_nat (r_reads r) - 8 + m) by lia.
        apply Hview. lia.
Qed.

Lemma ReadBits_at (r : Reader) (q width : Z) :
  Reader_at bs r q -> 0 <= width <= 32 ->
  q + width <= 8 * Z.of_nat (length bs) ->
  exists r',
    Reader_ReadBits (bytes_source bs) r width
    = Ok (r', (S / 2 ^ q) mod 2 ^ width, None) /\
    Reader_at bs r' (q + width).
Proof.
  intros (He & Hn & Hb & Hq0 & Hq & Hview) Hw Hend.
  unfold Reader_ReadBits. rewrite He.
  rewrite (i64_small (r_nbits r)), (i64_small (8 - r_nbits r)), (i64_small width)
    by lia.
  pose proof (Hview (r_nbits r) ltac:(lia)) as Hcur.
  replace (q - r_nbits r + r_nbits r) with q in Hcur by lia.
  unfold shr64. rewrite Z.shiftr_div_pow2 by lia.
  destruct (width <? 8 - r_nbits r) eqn:Hshort.
  - apply Z.ltb_lt in Hshort. eexists. split.
    + rewrite mask_ones by exact Hw. rewrite Hcur, mod_pow2_mod by lia. reflexivity.
    + unfold Reader_at. cbn [r_err r_nbits r_bits r_reads].
      rewrite u64_small by lia.
      split; [reflexivity |]. split; [lia |]. split; [exact Hb |].
      split; [lia |]. split; [lia |].
      intros m Hm.
      replace (q + width - (r_nbits r + width) + m) with (q - r_nbits r + m) by lia.
      apply Hview. lia.
  - apply Z.ltb_ge in Hshort.
    rewrite (u64_small (8 - r_nbits r)) by lia.
    apply (ReadBits_loop_at width _ r _ (8 - r_nbits r) q (r_nbits r));
      try lia; try assumption.
    + rewrite u64_small by lia. lia.
    + intros m Hm.
      replace (8 * Z.of_nat (r_reads r) - 8 + m) with (q - r_nbits r + m) by lia.
      apply Hview. exact Hm.
    + pose proof (Z.div_mod width 8 ltac:(lia)).
      pose proof (Z.mod_pos_bound width 8 ltac:(lia)).
      assert (0 <= width / 8) by (apply Z.div_pos; lia).
      rewrite Z2Nat.id by lia. lia.
Qed.

(** Reading the widths of a sequence of writes, at a place of the stream
    where the values of these writes come next. *)
Lemma read_ops_at (vws : list (Z * Z)) : forall (r : Reader) (q rest : Z),
  Forall fits_width vws ->
  Reader_at bs r q ->
  S / 2 ^ q = stream_of vws + 2 ^ width_of vws * rest ->
  q + width_of vws <= 8 * Z.of_nat (length bs) ->
  exists r',
    run_rops (bytes_source bs) r (map OpReadBits (map snd vws))
    = Ok (r', read_back (map fst vws)).
Proof.
  induction vws as [| [v width] vws IH]; intros r q rest Hfit Hat Hnext Hend.
  - exists r. reflexivity.
  - apply Forall_cons in Hfit as [[Hw Hv] Hfit]. cbn [fst snd] in Hw, Hv.
    cbn [stream_of width_of] in Hnext, Hend.
    destruct (stream_of_bound vws Hfit) as [_ HW].
    destruct (ReadBits_at r q width Hat ltac:(lia) ltac:(lia)) as (r1 & Hrun & Hat1).
    assert (Hq0 : 0 <= q) by (destruct Hat as (_ & _ & _ & H & _); exact H).
    pose proof (pow2_pos width ltac:(lia)) as Hpw.
    pose proof (pow2_pos q Hq0) as Hpq.
    assert (Hsplit : S / 2 ^ q = v + 2 ^ width * (stream_of vws + 2 ^ width_of vws * rest)).
    { rewrite Hnext, Z.pow_add_r by lia. ring. }
    assert (Hval : (S / 2 ^ q) mod 2 ^ width = v).
    { rewrite Hsplit, (Z.mul_comm (2 ^ width)), Z.mod_add by lia.
      apply Z.mod_small. exact Hv. }
    destruct (IH r1 (q + width) rest Hfit Hat1) as (r' & Hruns); [| lia |].
    + rewrite Z.pow_add_r, <- Z.div_div by lia.
      rewrite Hsplit, (Z.mul_comm (2 ^ width)), Z.div_add by lia.
      rewrite (Z.div_small v) by exact Hv. lia.
    + exists r'. cbn [map run_rops run_rop fst snd].
      rewrite Hrun, Hval. cbn. rewrite Hruns. reflexivity.
Qed.

End Reading.

Lemma NewWriter_holds : Writer_holds NewWriter 0 0.
Proof.
  unfold Writer_holds, NewWriter, written. cbn.
  change (2 ^ 0) with 1. repeat split; try constructor; lia.
Qed.

Lemma NewReader_at (bs : list Z) : Reader_at bs NewReader 0.
Proof.
  unfold Reader_at, NewReader. cbn.
  repeat split; try lia.
  intros m Hm. replace m with 8 by lia. cbn. rewrite Z.mod_1_r. reflexivity.
Qed.

(** The round trip of the bit stream for values that fit their width:
    writing a sequence of values, each on at most 16 bits and each below 2
    to the power of its width, closing, and reading the same widths back
    from the bytes written gives every value back, without an error. *)
Theorem values_in_width_are_read_back (vws : list (Z * Z)) :
  Forall fits_width vws ->
  write_then_read vws = Ok (read_back (map fst vws)).
Proof.
  intros Hfit. unfold write_then_read, write_all, read_all.
  destruct (write_ops_hold vws [] NewWriter (Forall_nil_2 _) Hfit NewWriter_holds)
    as (w & es & Hrun & Hbytes & HS & HT); [cbn; lia |].
  cbn [app] in HS, HT. rewrite Hrun. cbn.
  destruct (read_ops_at (written w) Hbytes vws NewReader 0 0 Hfit
              (NewReader_at (written w))) as (r & Hread).
  - change (2 ^ 0) with 1. rewrite Z.div_1_r, HS. ring.
  - lia.
  - rewrite Hread. reflexivity.
Qed.

Lemma values_in_width_are_read_back_witness :
  write_then_read [(1, 1); (0, 1); (65535, 16); (0, 0); (5, 3); (1234, 11)]
  = Ok (read_back [1; 0; 65535; 0; 5; 1234]).
Proof.
  apply (values_in_width_are_read_back
           [(1, 1); (0, 1); (65535, 16); (0, 0); (5, 3); (1234, 11)]).
  repeat (constructor; [unfold fits_width; cbn; lia |]). constructor.
Defined.

(** ** The flattened field accessors *)

Import Physics.

Lemma index_in_range {A} (s : list A) (k : Z) :
  0 <= k < len s -> exists a, index s k = Ok a /\ s !! Z.to_nat k = Some a.
Proof.
  intros [Hk0 Hk]. unfold index, len in *.
  destruct (k <? 0) eqn:Hneg; [apply Z.ltb_lt in Hneg; lia |].
  destruct (s !! Z.to_nat k) as [a |] eqn:Hl.
  - exists a. auto.
  - apply lookup_ge_None in Hl. lia.
Qed.

(** An index of the flattened domain is the entry of one object and of one
    field, and Go's quotient and remainder recover them. *)
Lemma entry_split (N i : Z) :
  0 < N -> 0 <= i < 6 * N ->
  exists f k, 0 <= k < N /\ i = entry N k f /\
              go_mod i N = Ok k /\ go_div i N = Ok (field_number f).
Proof.
  intros HN Hi.
  assert (Hq : Z.quot i N = i / N) by (apply Z.quot_div_nonneg; lia).
  assert (Hr : Z.rem i N = i mod N) by (apply Z.rem_mod_nonneg; lia).
  pose proof (Z.div_mod i N ltac:(lia)) as Hdm.
  pose proof (Z.mod_pos_bound i N HN) as Hm.
  assert (Hd : 0 <= i / N <= 5).
  { split; [apply Z.div_pos; lia |].
    assert (i / N < 6); [apply Z.div_lt_upper_bound; lia | lia]. }
  assert (Hf : exists f, field_number f = i / N).
  { assert (Hc : i / N = 0 \/ i / N = 1 \/ i / N = 2 \/ i / N = 3
                 \/ i / N = 4 \/ i / N = 5) by lia.
    destruct Hc as [Hc | [Hc | [Hc | [Hc | [Hc | Hc]]]]];
      [exists FA | exists FB | exists FC | exists FX | exists FY | exists FZ];
      rewrite Hc; reflexivity. }
  destruct Hf as [f Hf].
  exists f, (i mod N). unfold entry, go_mod, go_div.
  assert (HN0 : (N =? 0) = false) by (apply Z.eqb_neq; lia).
  rewrite HN0, Hq, Hr, Hf.
  split; [exact Hm |]. split; [lia |]. split; [reflexivity |].
  rewrite <- Hf. destruct f; reflexivity.
Qed.

Lemma Value6_entry (base : list Cube) (i k : Z) (f : field) (b : Cube) :
  go_mod i (len base) = Ok k -> go_div i (len base) = Ok (field_number f) ->
  index base k = Ok b ->
  Value6 base i = Ok (field_get f b).
Proof.
  intros Hm Hd Hb. unfold Value6. rewrite Hm, Hd. cbn.
  destruct f; cbn; rewrite Hb; reflexivity.
Qed.

Lemma Delta6_entry (hist base : list Cube) (i k : Z) (f : field) (h b : Cube) :
  go_mod i (len base) = Ok k -> go_div i (len base) = Ok (field_number f) ->
  index hist k = Ok h -> index base k = Ok b ->
  Delta6 hist base i = Ok (Delta6_case f h b).
Proof.
  intros Hm Hd Hh Hb. unfold Delta6. rewrite Hm, Hd. cbn.
  destruct f; cbn; rewrite Hh; cbn; rewrite Hb; reflexivity.
Qed.

Lemma Extra6_entry (hist base cur : list Cube) (i k : Z) (f : field) (h b c : Cube) :
  go_mod i (len base) = Ok k -> go_div i (len base) = Ok (field_number f) ->
  index hist k = Ok h -> index base k = Ok b -> index cur k = Ok c ->
  Extra6 hist base cur i = Ok (Extra6_case f h b c).
Proof.
  intros Hm Hd Hh Hb Hc. unfold Extra6. rewrite Hm, Hd. cbn.
  destruct f; cbn; rewrite Hc; cbn; rewrite Hb; cbn; rewrite Hh; reflexivity.
Qed.

Lemma accessors_at_domain_index (hist base cur : list Cube) (i : Z) :
  0 < len base -> len hist = len base -> len cur = len base ->
  0 <= i < 6 * len base ->
  exists f k h b c,
    i = entry (len base) k f /\
    hist !! Z.to_nat k = Some h /\ base !! Z.to_nat k = Some b /\
    cur !! Z.to_nat k = Some c /\
    Value6 base i = Ok (field_get f b) /\
    Delta6 hist base i = Ok (Delta6_case f h b) /\
    Extra6 hist base cur i = Ok (Extra6_case f h b c).
Proof.
  intros HN Hh Hc Hi.
  destruct (entry_split (len base) i HN Hi) as (f & k & Hk & Hik & Hm & Hd).
  destruct (index_in_range base k Hk) as (b & Hb & Hlb).
  destruct (index_in_range hist k ltac:(lia)) as (h & Hhk & Hlh).
  destruct (index_in_range cur k ltac:(lia)) as (c & Hck & Hlc).
  exists f, k, h, b, c.
  split; [exact Hik |]. split; [exact Hlh |]. split; [exact Hlb |].
  split; [exact Hlc |].
  split; [eapply Value6_entry; eassumption |].
  split; [eapply Delta6_entry; eassumption |].
  eapply Extra6_entry; eassumption.
Qed.

(** C10. On frames of one positive length N, at every index i with
    0 <= i < 6N, the accessors [Value6], [Delta6] and [Extra6] return the
    value of one of their six field cases: i is the entry of an object k
    and of a field f, and each accessor returns the body of its case for f
    at the cubes of index k.  None of them panics. *)
Theorem accessors_stay_in_their_cases (hist base cur : list Cube) (i : Z) :
  0 < len base -> len hist = len base -> len cur = len base ->
  0 <= i < 6 * len base ->
  exists f k h b c,
    i = entry (len base) k f /\
    hist !! Z.to_nat k = Some h /\ base !! Z.to_nat k = Some b /\
    cur !! Z.to_nat k = Some c /\
    Value6 base i = Ok (field_get f b) /\
    Delta6 hist base i = Ok (Delta6_case f h b) /\
    Extra6 hist base cur i = Ok (Extra6_case f h b c).
Proof. exact (accessors_at_domain_index hist base cur i). Qed.

Lemma accessors_stay_in_their_cases_witness :
  exists f k h b c,
    7 = entry 2 k f /\
    [zero_Cube; mkCube 0 0 1 2 3 4 5 6] !! Z.to_nat k = Some h /\
    [zero_Cube; zero_Cube] !! Z.to_nat k = Some b /\
    [zero_Cube; mkCube 0 0 2 3 4 5 6 7] !! Z.to_nat k = Some c /\
    Value6 [zero_Cube; zero_Cube] 7 = Ok (field_get f b) /\
    Delta6 [zero_Cube; mkCube 0 0 1 2 3 4 5 6] [zero_Cube; zero_Cube] 7
      = Ok (Delta6_case f h b) /\
    Extra6 [zero_Cube; mkCube 0 0 1 2 3 4 5 6] [zero_Cube; zero_Cube]
           [zero_Cube; mkCube 0 0 2 3 4 5 6 7] 7
      = Ok (Extra6_case f h b c).
Proof.
  apply (accessors_stay_in_their_cases
           [zero_Cube; mkCube 0 0 1 2 3 4 5 6] [zero_Cube; zero_Cube]
           [zero_Cube; mkCube 0 0 2 3 4 5 6 7] 7);
    unfold len; cbn; lia.
Defined.

(** Out of the domain the default branch is taken. *)
Example Value6_beyond_domain : Value6 [zero_Cube; zero_Cube] 12 = Panic InvalidField.
Proof. reflexivity. Qed.

(** For the five fields B, C, X, Y and Z the sort key is the change of
    that field alone. *)
Lemma Delta6_case_one_field (f : field) (h b : Cube) :
  f <> FA -> Delta6_case f h b = field_delta f h b.
Proof. destruct f; intros Hf; try reflexivity. contradiction. Qed.

(** C3, at one object: historic has B = 5, every other field is 0.  The
    entry of field A has index 0; field A does not change from historic to
    baseline, and [Delta6] returns 5, the B of historic less the A of
    baseline.  [Extra6] adds the same term. *)
Theorem Delta6_field_A_reads_B :
  Delta6 [mkCube 0 0 0 5 0 0 0 0] [zero_Cube] (entry 1 0 FA) = Ok 5 /\
  field_delta FA (mkCube 0 0 0 5 0 0 0 0) zero_Cube = 0 /\
  Extra6 [mkCube 0 0 0 5 0 0 0 0] [zero_Cube] [zero_Cube] (entry 1 0 FA) = Ok 5.
Proof. repeat split. Qed.

(** ** State.Encode: what is handed to the coder *)

Lemma mapM_Ok {A B} (f : A -> result B) (g : A -> B) (l : list A) :
  Forall (fun a => f a = Ok (g a)) l -> mapM f l = Ok (map g l).
Proof.
  induction 1 as [| a l Ha _ IH]; [reflexivity |].
  cbn. rewrite Ha. cbn. rewrite IH. reflexivity.
Qed.

Lemma mapM_cons_result {A B} (f : A -> result B) (a : A) (l : list A) :
  mapM f (a :: l) = result_bind (fun b => result_bind (fun bs => Ok (b :: bs)) (mapM f l)) (f a).
Proof. reflexivity. Qed.

Lemma index_of_nat {A} (s : list A) (n : nat) (a : A) :
  s !! n = Some a -> index s (Z.of_nat n) = Ok a.
Proof.
  intros Hl. unfold index.
  destruct (Z.of_nat n <? 0) eqn:Hneg; [apply Z.ltb_lt in Hneg; lia |].
  rewrite Nat2Z.id, Hl. reflexivity.
Qed.

Lemma cube_at_of_nat (frame : list Cube) (n : nat) (c : Cube) :
  frame !! n = Some c -> cube_at frame (Z.of_nat n) = c.
Proof. intros Hl. unfold cube_at. rewrite Nat2Z.id, Hl. reflexivity. Qed.

(** The presence pass hands over one bit per object and collects the
    positions of the ones. *)
Lemma Encode_presence_bits (current : list Cube) : forall (i : nat) (baseline : list Cube),
  (i + length current <= length baseline)%nat ->
  let bits := zip_with presence_bit current (drop i baseline) in
  Encode_presence (Z.of_nat i) current baseline
  = Ok (bits, map Z.of_nat (ones_from i bits)).
Proof.
  induction current as [| cube rest IH]; intros i baseline Hlen; [reflexivity |].
  cbn [length] in Hlen. cbn [Encode_presence].
  destruct (baseline !! i) as [base |] eqn:Hb;
    [| apply lookup_ge_None in Hb; lia].
  rewrite (index_of_nat _ _ _ Hb). cbn.
  replace (Z.of_nat i + 1) with (Z.of_nat (S i)) by lia.
  rewrite (IH (S i) baseline) by lia. cbn.
  rewrite (drop_S _ _ _ Hb). cbn [zip_with ones_from].
  destruct (bool_decide (cube = base)) eqn:Hsame.
  - assert (Hp : presence_bit cube base = 0)
      by (unfold presence_bit; rewrite Hsame; reflexivity).
    rewrite Hp. reflexivity.
  - assert (Hp : presence_bit cube base = 1)
      by (unfold presence_bit; rewrite Hsame; reflexivity).
    rewrite Hp. reflexivity.
Qed.

Lemma ones_from_elem (bits : list Z) : forall (i j : nat),
  j ∈ ones_from i bits <-> (i <= j)%nat /\ bits !! (j - i)%nat = Some 1.
Proof.
  induction bits as [| b bits IH]; intros i j; cbn [ones_from].
  - split; [intros H; inversion H | intros [_ H]; discriminate H].
  - assert (Hrest : j ∈ ones_from (S i) bits
                    <-> (i < j)%nat /\ (b :: bits) !! (j - i)%nat = Some 1).
    { rewrite IH. split.
      - intros [Hle Hl]. split; [lia |].
        replace (j - i)%nat with (S (j - S i)) by lia. exact Hl.
      - intros [Hlt Hl]. split; [lia |].
        replace (j - i)%nat with (S (j - S i)) in Hl by lia. exact Hl. }
    destruct (b =? 1) eqn:Hb1.
    + apply Z.eqb_eq in Hb1. subst b. rewrite elem_of_cons, Hrest. split.
      * intros [-> | [Hlt Hl]]; [| split; [lia | exact Hl]].
        split; [lia |]. rewrite Nat.sub_diag. reflexivity.
      * intros [Hle Hl]. destruct (decide (j = i)) as [-> | Hne]; [left; reflexivity |].
        right. split; [lia | exact Hl].
    + apply Z.eqb_neq in Hb1. rewrite Hrest. split.
      * intros [Hlt Hl]. split; [lia | exact Hl].
      * intros [Hle Hl]. destruct (decide (j = i)) as [-> | Hne].
        -- rewrite Nat.sub_diag in Hl. cbn in Hl. congruence.
        -- split; [lia | exact Hl].
Qed.

Lemma ones_from_bound (bits : list Z) (i j : nat) :
  j ∈ ones_from i bits -> (i <= j < i + length bits)%nat.
Proof.
  rewrite ones_from_elem. intros [Hle Hl].
  apply lookup_lt_Some in Hl. lia.
Qed.

Lemma ones_from_changed_at (rest_c : list Cube) :
  forall (rest_b pre_c pre_b : list Cube),
  length pre_c = length pre_b -> length rest_c = length rest_b ->
  map Z.of_nat (ones_from (length pre_c) (zip_with presence_bit rest_c rest_b))
  = filter (fun i => (pre_c ++ rest_c) !! Z.to_nat i <> (pre_b ++ rest_b) !! Z.to_nat i)
           (map Z.of_nat (seq (length pre_c) (length rest_c))).
Proof.
  induction rest_c as [| x xs IH]; intros rest_b pre_c pre_b Hpre Hrest;
    [reflexivity |].
  destruct rest_b as [| y ys]; [discriminate Hrest |].
  cbn [length] in Hrest. injection Hrest as Hrest.
  cbn [zip_with ones_from length seq map].
  rewrite filter_cons, Nat2Z.id.
  rewrite (list_lookup_middle pre_c xs x (length pre_c) eq_refl).
  rewrite (list_lookup_middle pre_b ys y (length pre_c) Hpre).
  specialize (IH ys (pre_c ++ [x]) (pre_b ++ [y])).
  rewrite !length_app, <- !app_assoc in IH. cbn [length app] in IH.
  rewrite Nat.add_1_r in IH. specialize (IH ltac:(lia) Hrest).
  unfold presence_bit at 1.
  destruct (decide (x = y)) as [-> | Hne].
  - rewrite bool_decide_true by reflexivity. cbn.
    rewrite decide_False by (intros H; apply H; reflexivity). exact IH.
  - rewrite bool_decide_false by exact Hne. cbn.
    rewrite decide_True by congruence. rewrite IH. reflexivity.
Qed.

Lemma ones_from_changed (current baseline : list Cube) :
  length current = length baseline ->
  map Z.of_nat (ones_from 0 (zip_with presence_bit current baseline))
  = changed current baseline.
Proof.
  intros Hlen. exact (ones_from_changed_at current baseline [] [] eq_refl Hlen).
Qed.

Lemma Encode_interacting_bits (current : list Cube) (ns : list nat) :
  Forall (fun n => (n < length current)%nat) ns ->
  Encode_interacting current (map Z.of_nat ns)
  = Ok (map (interacting_xor_one current) (map Z.of_nat ns)).
Proof.
  intros Hns. unfold Encode_interacting. apply mapM_Ok.
  rewrite Forall_map. eapply Forall_impl; [exact Hns |].
  intros n Hn. cbn.
  destruct (lookup_lt_is_Some_2 current n Hn) as [c Hc].
  rewrite (index_of_nat _ _ _ Hc). cbn.
  unfold interacting_xor_one. rewrite (cube_at_of_nat _ _ _ Hc). reflexivity.
Qed.

Lemma Encode_largest_bits (current baseline : list Cube) (ns : list nat) :
  length current = length baseline ->
  Forall (fun n => (n < length current)%nat) ns ->
  Encode_largest current baseline (map Z.of_nat ns)
  = Ok (concat (map (largest_planes current baseline) (map Z.of_nat ns))).
Proof.
  intros Hlen Hns. unfold Encode_largest.
  rewrite (mapM_Ok _ (largest_planes current baseline)); [reflexivity |].
  rewrite Forall_map. eapply Forall_impl; [exact Hns |].
  intros n Hn. cbn.
  destruct (lookup_lt_is_Some_2 current n Hn) as [c Hc].
  assert (Hnb : (n < length baseline)%nat) by (cbn in Hn; lia).
  destruct (lookup_lt_is_Some_2 baseline n Hnb) as [b Hb].
  rewrite (index_of_nat _ _ _ Hc). cbn.
  rewrite (index_of_nat _ _ _ Hb). cbn.
  unfold largest_planes.
  rewrite (cube_at_of_nat _ _ _ Hc), (cube_at_of_nat _ _ _ Hb). reflexivity.
Qed.

(** Every entry that [index6] makes of an object of the frame lies in the
    flattened domain. *)
Lemma index6_in_domain (N : Z) (ns : list nat) :
  6 * N < 2 ^ 63 ->
  Forall (fun n => Z.of_nat n < N) ns ->
  Forall (fun i => 0 <= i < 6 * N) (index6 (map Z.of_nat ns) N).
Proof.
  intros HN Hns. unfold index6.
  induction Hns as [| n ns Hn _ IH]; [constructor |].
  cbn [map concat]. apply Forall_app. split; [| exact IH].
  unfold index6_step.
  rewrite !i64_small by lia.
  repeat (constructor; [lia |]). constructor.
Qed.

Lemma Extra6_loop_Ok (hist base cur : list Cube) (items6 : list Z) :
  len hist = len base -> len cur = len base ->
  Forall (fun i => 0 <= i < 6 * len base) items6 ->
  is_Ok (mapM (Extra6 hist base cur) items6).
Proof.
  intros Hh Hc Hitems.
  induction Hitems as [| i items6 Hi _ IH]; [eexists; reflexivity |].
  assert (HN : 0 < len base) by lia.
  destruct (accessors_at_domain_index hist base cur i HN Hh Hc Hi)
    as (f & k & h & b & c & _ & _ & _ & _ & _ & _ & HE).
  destruct IH as [vs Hvs].
  rewrite mapM_cons_result, HE, Hvs. eexists. reflexivity.
Qed.

(** The three passes of [Encode] on frames of one length: the presence
    bitmap, then one bit per changed object, then two bits per changed
    object, the changed objects taken in natural index order. *)
Lemma Encode_passes_bits (s : State) :
  frames_fit s ->
  let current := Cubes (Current s) in
  let baseline := Cubes (Baseline s) in
  Encode_passes s
  = Ok (zip_with presence_bit current baseline,
        map (interacting_xor_one current) (changed current baseline),
        concat (map (largest_planes current baseline) (changed current baseline))).
Proof.
  intros (Hh & Hc & HN) current baseline. unfold Encode_passes.
  fold current. fold baseline.
  fold current in Hc. fold baseline in Hh, Hc, HN.
  pose proof (Encode_presence_bits current 0 baseline ltac:(lia)) as Hp.
  cbn zeta in Hp. rewrite drop_0 in Hp. change (Z.of_nat 0) with 0 in Hp.
  rewrite Hp. cbn.
  set (ns := ones_from 0 (zip_with presence_bit current baseline)).
  assert (Hns : Forall (fun n => (n < length current)%nat) ns).
  { apply Forall_forall. intros n Hn. apply ones_from_bound in Hn.
    rewrite length_zip_with in Hn. lia. }
  rewrite (Encode_interacting_bits current ns Hns). cbn.
  rewrite (Encode_largest_bits current baseline ns Hc Hns). cbn.
  destruct (Extra6_loop_Ok (Cubes (Historic s)) baseline current
              (index6 (map Z.of_nat ns) (len baseline))) as [vs Hvs].
  - unfold len. lia.
  - unfold len. lia.
  - apply index6_in_domain; [exact HN |].
    eapply Forall_impl; [exact Hns |]. intros n Hn. unfold len. cbn in Hn. lia.
  - rewrite Hvs. cbn. unfold ns.
    rewrite (ones_from_changed current baseline Hc). reflexivity.
Qed.

(** ** State.Decode: what is made of the answers of the coder *)

Section Decoding.

Variable c : Coder.

Lemma decode_n_S (n : nat) (dec : Decoder c) :
  decode_n c (S n) dec
  = (fst (decode_bit c dec) :: fst (decode_n c n (snd (decode_bit c dec))),
     snd (decode_n c n (snd (decode_bit c dec)))).
Proof.
  cbn [decode_n]. destruct (decode_bit c dec) as [b dec1]. cbn [fst snd].
  destruct (decode_n c n dec1) as [bs dec2]. reflexivity.
Qed.

Lemma decode_n_length (n : nat) : forall dec : Decoder c,
  length (fst (decode_n c n dec)) = n.
Proof.
  induction n as [| n IH]; intros dec; [reflexivity |].
  rewrite decode_n_S. cbn. rewrite IH. reflexivity.
Qed.

Lemma decode_n_app (n m : nat) : forall dec : Decoder c,
  decode_n c (n + m) dec
  = (fst (decode_n c n dec) ++ fst (decode_n c m (snd (decode_n c n dec))),
     snd (decode_n c m (snd (decode_n c n dec)))).
Proof.
  induction n as [| n IH]; intros dec.
  - cbn. destruct (decode_n c m dec); reflexivity.
  - cbn [Nat.add]. rewrite !decode_n_S, IH. reflexivity.
Qed.

Lemma Decode_presence_ones (n : nat) : forall (i : nat) (dec : Decoder c),
  Decode_presence c n (Z.of_nat i) dec
  = (map Z.of_nat (ones_from i (fst (decode_n c n dec))), snd (decode_n c n dec)).
Proof.
  induction n as [| n IH]; intros i dec; [reflexivity |].
  cbn [Decode_presence]. rewrite decode_n_S.
  destruct (decode_bit c dec) as [b dec1]. cbn [fst snd].
  replace (Z.of_nat i + 1) with (Z.of_nat (S i)) by lia.
  rewrite IH. cbn [ones_from]. destruct (b =? 1); reflexivity.
Qed.

Lemma insert_as_alter (f : Cube -> Cube) (cubes : list Cube) (n : nat) (cube : Cube) :
  cubes !! n = Some cube -> <[n := f cube]> cubes = alter f n cubes.
Proof.
  intros Hl. rewrite list_insert_alter.
  apply list_eq. intros j.
  destruct (decide (n = j)) as [<- | Hne].
  - rewrite !list_lookup_alter_eq, Hl. reflexivity.
  - rewrite !list_lookup_alter_ne by exact Hne. reflexivity.
Qed.

Lemma Decode_interacting_exact (ns : list nat) :
  forall (current : list Cube) (dec : Decoder c),
  Forall (fun n => (n < length current)%nat) ns ->
  Decode_interacting c (map Z.of_nat ns) current dec
  = Ok (alter_all (interacting_updates ns (fst (decode_n c (length ns) dec))) current,
        snd (decode_n c (length ns) dec)).
Proof.
  induction ns as [| n ns IH]; intros current dec Hns; [reflexivity |].
  apply Forall_cons in Hns as [Hn Hns].
  destruct (lookup_lt_is_Some_2 current n Hn) as [cube Hcube].
  cbn [map Decode_interacting length]. rewrite (index_of_nat _ _ _ Hcube).
  cbn [mbind result_mbind result_bind].
  rewrite decode_n_S. destruct (decode_bit c dec) as [b dec1]. cbn [fst snd].
  rewrite Nat2Z.id.
  change (set_Interacting cube (i32 (Z.lxor b 1))) with (put_Interacting b cube).
  rewrite (insert_as_alter (put_Interacting b) current n cube Hcube).
  rewrite IH; [reflexivity |].
  eapply Forall_impl; [exact Hns |]. intros k Hk. cbn in *.
  rewrite length_alter. exact Hk.
Qed.

Lemma Decode_largest_exact (baseline : list Cube) (ns : list nat) :
  forall (current : list Cube) (dec : Decoder c),
  Forall (fun n => (n < length current)%nat) ns ->
  length current = length baseline ->
  Decode_largest c (map Z.of_nat ns) current baseline dec
  = Ok (alter_all (largest_updates baseline ns (fst (decode_n c (2 * length ns) dec)))
                  current,
        snd (decode_n c (2 * length ns) dec)).
Proof.
  induction ns as [| n ns IH]; intros current dec Hns Hlen; [reflexivity |].
  apply Forall_cons in Hns as [Hn Hns].
  destruct (lookup_lt_is_Some_2 current n Hn) as [cube Hcube].
  destruct (lookup_lt_is_Some_2 baseline n ltac:(lia)) as [base Hbase].
  cbn [map Decode_largest length].
  rewrite (index_of_nat _ _ _ Hcube). cbn [mbind result_mbind result_bind].
  rewrite (index_of_nat _ _ _ Hbase). cbn [mbind result_mbind result_bind].
  replace (2 * S (length ns))%nat with (S (S (2 * length ns))) by lia.
  rewrite !decode_n_S.
  destruct (decode_bit c dec) as [v0 dec1]. cbn [fst snd].
  destruct (decode_bit c dec1) as [v1 dec2]. cbn [fst snd].
  rewrite Nat2Z.id. cbn [largest_updates].
  rewrite (cube_at_of_nat _ _ _ Hbase).
  change (set_Largest cube _) with (put_Largest base v0 v1 cube).
  rewrite (insert_as_alter (put_Largest base v0 v1) current n cube Hcube).
  rewrite IH; [reflexivity | | rewrite length_alter; exact Hlen].
  eapply Forall_impl; [exact Hns |]. intros k Hk. cbn in *.
  rewrite length_alter. exact Hk.
Qed.

Lemma alter_all_length (updates : list (nat * (Cube -> Cube))) :
  forall cubes, length (alter_all updates cubes) = length cubes.
Proof.
  induction updates as [| u updates IH]; intros cubes; [reflexivity |].
  cbn. unfold alter_all in IH. rewrite IH, length_alter. reflexivity.
Qed.

Lemma alter_all_lookup_other (updates : list (nat * (Cube -> Cube))) (j : nat) :
  forall cubes, j ∉ map fst updates -> alter_all updates cubes !! j = cubes !! j.
Proof.
  induction updates as [| u updates IH]; intros cubes Hj; [reflexivity |].
  cbn in *. apply not_elem_of_cons in Hj as [Hne Hj].
  unfold alter_all in IH. rewrite IH by exact Hj.
  apply list_lookup_alter_ne. congruence.
Qed.

Lemma interacting_updates_indices (ns : list nat) : forall (bits : list Z) (j : nat),
  j ∈ map fst (interacting_updates ns bits) -> j ∈ ns.
Proof.
  induction ns as [| n ns IH]; intros bits j; cbn; [intros H; inversion H |].
  destruct bits as [| b bits]; cbn; [intros H; inversion H |].
  rewrite !elem_of_cons. intros [-> | H]; [left; reflexivity | right; eauto].
Qed.

Lemma largest_updates_indices (baseline : list Cube) (ns : list nat) :
  forall (bits : list Z) (j : nat),
  j ∈ map fst (largest_updates baseline ns bits) -> j ∈ ns.
Proof.
  induction ns as [| n ns IH]; intros bits j; cbn; [intros H; inversion H |].
  destruct bits as [| v0 [| v1 bits]]; cbn; try (intros H; inversion H; fail).
  rewrite !elem_of_cons. intros [-> | H]; [left; reflexivity | right; eauto].
Qed.

(** [Decode] returns, whatever the snapshot and whatever the coder answers,
    and leaves in current the cubes of [Decode_cubes]. *)
Lemma Decode_exact (s : State) (snapshot : list Z) :
  Decode c s snapshot
  = Ok (mkState (Historic s) (Baseline s)
                (mkFrame (Decode_cubes c (Cubes (Baseline s)) snapshot))).
Proof.
  unfold Decode, Decode_cubes, Assign. cbn [Cubes Baseline Current Historic].
  set (baseline := Cubes (Baseline s)).
  pose proof (Decode_presence_ones (length baseline) 0 (NewDecoder c snapshot)) as Hp.
  change (Z.of_nat 0) with 0 in Hp. rewrite Hp. clear Hp.
  set (presence := decode_n c (length baseline) (NewDecoder c snapshot)).
  set (ns := ones_from 0 (fst presence)).
  assert (Hns : Forall (fun n => (n < length baseline)%nat) ns).
  { apply Forall_forall. intros n Hn. apply ones_from_bound in Hn.
    unfold presence in Hn. rewrite decode_n_length in Hn. lia. }
  rewrite (Decode_interacting_exact ns baseline (snd presence) Hns). cbn.
  rewrite Decode_largest_exact; [reflexivity | | apply alter_all_length].
  eapply Forall_impl; [exact Hns |]. intros k Hk. cbn in *.
  rewrite alter_all_length. exact Hk.
Qed.

End Decoding.

(** C7. [Decode] has no error result and does not panic: for every coder,
    every receiver state and every snapshot, truncated and corrupted ones
    among them, it returns, with a current frame as long as baseline. *)
Theorem Decode_always_returns (c : Coder) (s : State) (snapshot : list Z) :
  exists s', Decode c s snapshot = Ok s' /\
             length (Cubes (Current s')) = length (Cubes (Baseline s)).
Proof.
  eexists. split; [apply Decode_exact |].
  cbn [Current Cubes]. unfold Decode_cubes. rewrite !alter_all_length. reflexivity.
Qed.

(** A snapshot cut after its third byte decodes, to a frame that is not
    the one encoded. *)
Example Decode_of_truncated_snapshot :
  Encode plain_coder flags_only = Ok [0; 1; 1; 0; 1; 0; 0; 0; 1] /\
  Decode plain_coder flags_only [0; 1; 1]
  = Ok (mkState (Historic flags_only) (Baseline flags_only)
                (mkFrame [zero_Cube; mkCube 0 1 0 0 0 0 0 0; mkCube 0 1 0 0 0 0 0 0])).
Proof. split; vm_compute; reflexivity. Qed.

(** C9. [Decode] starts from a copy of baseline: it returns a state whose
    baseline is untouched and whose current frame has the length of
    baseline; the objects it visits are those whose bit is 1 in the
    presence bitmap it decodes; and at every index whose decoded presence
    bit is 0 the cube of current is the cube of baseline. *)
Theorem Decode_starts_from_baseline (c : Coder) (s : State) (snapshot : list Z) :
  exists s',
    Decode c s snapshot = Ok s' /\
    Baseline s' = Baseline s /\
    length (Cubes (Current s')) = length (Cubes (Baseline s)) /\
    fst (Decode_presence c (length (Cubes (Baseline s))) 0 (NewDecoder c snapshot))
    = map Z.of_nat (ones_from 0 (decoded_presence c s snapshot)) /\
    forall i : nat,
      decoded_presence c s snapshot !! i = Some 0 ->
      Cubes (Current s') !! i = Cubes (Baseline s) !! i.
Proof.
  eexists. split; [apply Decode_exact |]. split; [reflexivity |].
  cbn [Current Cubes]. unfold Decode_cubes, decoded_presence.
  split; [rewrite !alter_all_length; reflexivity |].
  split; [exact (f_equal fst (Decode_presence_ones c _ 0%nat _)) |].
  intros i Hi.
  set (presence := decode_n c (length (Cubes (Baseline s))) (NewDecoder c snapshot)) in *.
  assert (Hout : i ∉ ones_from 0 (fst presence)).
  { rewrite ones_from_elem, Nat.sub_0_r. intros [_ Hone]. congruence. }
  rewrite !alter_all_lookup_other; [reflexivity | |].
  - intros Hin. apply interacting_updates_indices in Hin. contradiction.
  - intros Hin. apply largest_updates_indices in Hin. contradiction.
Qed.

Lemma Decode_starts_from_baseline_witness :
  exists s',
    Decode plain_coder flags_only [0; 1; 1; 0; 1; 0; 0; 0; 1] = Ok s' /\
    Baseline s' = Baseline flags_only /\
    length (Cubes (Current s')) = 3%nat /\
    Cubes (Current s') !! 0%nat = Some zero_Cube.
Proof.
  destruct (Decode_starts_from_baseline plain_coder flags_only
              [0; 1; 1; 0; 1; 0; 0; 0; 1]) as (s' & HD & HB & HL & _ & Hkeep).
  exists s'. split; [exact HD |]. split; [exact HB |]. split; [exact HL |].
  rewrite (Hkeep 0%nat); reflexivity.
Defined.

(** C2, as the specification words it, at [moved_A]: the object changes, its
    Interacting is 0 in both frames, the XOR with baseline is 0 and the bit
    handed to the coder is 1. *)
Lemma Interacting_bit_is_not_xor_baseline :
  Encode_passes moved_A = Ok ([1], [1], [0; 0]) /\
  map (interacting_xor_baseline (Cubes (Current moved_A)) (Cubes (Baseline moved_A)))
      (changed (Cubes (Current moved_A)) (Cubes (Baseline moved_A))) = [0].
Proof. split; vm_compute; reflexivity. Qed.

(** C2, amended. On frames of one length the Interacting pass hands the
    coder exactly one bit for each changed object, the changed objects taken
    in natural index order, and the bit of an object is Interacting of
    current XOR 1. *)
Theorem Interacting_pass_codes_xor_one (s : State) :
  frames_fit s ->
  exists presence largest,
    Encode_passes s
    = Ok (presence,
          map (interacting_xor_one (Cubes (Current s)))
              (changed (Cubes (Current s)) (Cubes (Baseline s))),
          largest).
Proof.
  intros Hfit. do 2 eexists. apply (Encode_passes_bits s Hfit).
Qed.

Lemma Interacting_pass_codes_xor_one_witness :
  exists presence largest,
    Encode_passes flags_only = Ok (presence, [0; 1], largest).
Proof.
  apply (Interacting_pass_codes_xor_one flags_only).
  unfold frames_fit, len. cbn. lia.
Defined.

(** ** Decoding what was encoded *)

Lemma plain_coder_replays : replays plain_coder.
Proof.
  intros bits Hbits. induction Hbits as [| b bits Hb _ IH]; [reflexivity |].
  cbn [length map]. rewrite decode_n_S.
  change (NewDecoder plain_coder (Bytes plain_coder (b :: bits)))
    with (byte_of b :: NewDecoder plain_coder (Bytes plain_coder bits)).
  cbn [decode_bit plain_coder mzeros_Decode fst snd].
  rewrite IH. destruct Hb as [-> | ->]; reflexivity.
Qed.

(** No coder brings back a change of A, B, C, X, Y or Z: whatever the
    answers, the six fields that [Decode] leaves are those of baseline. *)
Lemma alter_all_related (R : Cube -> Cube -> Prop) (updates : list (nat * (Cube -> Cube))) :
  (forall cube, R cube cube) ->
  (forall x y z, R x y -> R y z -> R x z) ->
  Forall (fun u => forall cube, R cube (snd u cube)) updates ->
  forall cubes, Forall2 R cubes (alter_all updates cubes).
Proof.
  intros Hrefl Htrans Hupd.
  induction Hupd as [| u updates Hu _ IH]; intros cubes.
  - cbn. apply Forall2_same_length_lookup. split; [reflexivity |].
    intros i x y Hx Hy. replace y with x by congruence. apply Hrefl.
  - cbn. unfold alter_all in IH.
    apply Forall2_same_length_lookup. split.
    + specialize (IH (alter (snd u) (fst u) cubes)).
      apply Forall2_length in IH. rewrite length_alter in IH. exact IH.
    + intros i x z Hx Hz.
      specialize (IH (alter (snd u) (fst u) cubes)).
      destruct (decide (fst u = i)) as [Hi | Hi].
      * assert (Hy : alter (snd u) (fst u) cubes !! i = Some (snd u x))
          by (rewrite <- Hi, list_lookup_alter_eq, Hi, Hx; reflexivity).
        eapply Htrans; [apply Hu |].
        eapply Forall2_lookup_lr; eassumption.
      * assert (Hy : alter (snd u) (fst u) cubes !! i = Some x)
          by (rewrite list_lookup_alter_ne by exact Hi; exact Hx).
        eapply Forall2_lookup_lr; eassumption.
Qed.

Lemma interacting_updates_same_six (ns : list nat) : forall bits : list Z,
  Forall (fun u => forall cube, same_six cube (snd u cube)) (interacting_updates ns bits).
Proof.
  induction ns as [| n ns IH]; intros [| b bits]; cbn; try constructor.
  - intros cube. repeat split.
  - apply IH.
Qed.

Lemma largest_updates_same_six (baseline : list Cube) (ns : list nat) :
  forall bits : list Z,
  Forall (fun u => forall cube, same_six cube (snd u cube))
         (largest_updates baseline ns bits).
Proof.
  induction ns as [| n ns IH]; intros [| v0 [| v1 bits]]; cbn; try constructor.
  - intros cube. repeat split.
  - apply IH.
Qed.

Lemma same_six_refl (cube : Cube) : same_six cube cube.
Proof. repeat split. Qed.

Lemma same_six_trans (x y z : Cube) : same_six x y -> same_six y z -> same_six x z.
Proof. unfold same_six. intros H1 H2. intuition congruence. Qed.

Lemma Decode_keeps_six_fields (c : Coder) (baseline : list Cube) (snapshot : list Z) :
  Forall2 same_six baseline (Decode_cubes c baseline snapshot).
Proof.
  unfold Decode_cubes.
  eapply (Forall2_trans same_six same_six same_six); [exact same_six_trans | |].
  - apply (alter_all_related same_six);
      [exact same_six_refl | exact same_six_trans | apply interacting_updates_same_six].
  - apply (alter_all_related same_six);
      [exact same_six_refl | exact same_six_trans | apply largest_updates_same_six].
Qed.

(** C1, as the specification words it, at [moved_A]: the one object changes in A
    from 0 to 1.  The snapshot holds the presence bit, the Interacting bit
    and the two Largest bits; the frame decoded from it is baseline, with A
    at 0.  With any coder and from any snapshot, the frame decoded on this
    baseline is not current. *)
Lemma Decode_of_Encode_loses_A :
  (exists snapshot s',
     Encode plain_coder moved_A = Ok snapshot /\
     Decode plain_coder moved_A snapshot = Ok s' /\
     Cubes (Current s') = [zero_Cube] /\
     Cubes (Current s') <> Cubes (Current moved_A)) /\
  (forall (c : Coder) (snapshot : list Z) (s' : State),
     Decode c moved_A snapshot = Ok s' ->
     Cubes (Current s') <> Cubes (Current moved_A)).
Proof.
  split.
  - exists [1; 1; 0; 0]. eexists.
    split; [vm_compute; reflexivity |].
    split; [vm_compute; reflexivity |].
    split; [reflexivity |].
    cbn. intros H. discriminate H.
  - intros c snapshot s' HD. rewrite Decode_exact in HD. injection HD as <-.
    cbn [Current Cubes Baseline moved_A].
    pose proof (Decode_keeps_six_fields c [zero_Cube] snapshot) as Hsix.
    intros Heq. rewrite Heq in Hsix.
    apply Forall2_cons in Hsix as [(HA & _) _]. discriminate HA.
Qed.

(** Assignments that depend on the index alone and that absorb their own
    repetition: the outcome at an index does not depend on the order. *)
Lemma alter_all_by_index (F : nat -> Cube -> Cube) (ns : list nat) :
  (forall n cube, F n (F n cube) = F n cube) ->
  forall (cubes : list Cube) (j : nat),
  alter_all (map (fun n => (n, F n)) ns) cubes !! j
  = if decide (j ∈ ns) then F j <$> cubes !! j else cubes !! j.
Proof.
  intros Habsorb. induction ns as [| n ns IH]; intros cubes j.
  - cbn. rewrite decide_False by (intros H; inversion H). reflexivity.
  - cbn [map alter_all foldl fst snd]. unfold alter_all in IH. rewrite IH.
    destruct (decide (j = n)) as [-> | Hne].
    + rewrite list_lookup_alter_eq.
      rewrite (decide_True (P := n ∈ n :: ns)) by (left; reflexivity).
      destruct (decide (n ∈ ns)); [| reflexivity].
      destruct (cubes !! n) as [cube |]; cbn; [| reflexivity].
      rewrite Habsorb. reflexivity.
    + rewrite list_lookup_alter_ne by congruence.
      destruct (decide (j ∈ ns)) as [Hin | Hout].
      * rewrite decide_True by (right; exact Hin). reflexivity.
      * rewrite decide_False; [reflexivity |].
        rewrite elem_of_cons. intros [H | H]; [congruence | contradiction].
Qed.

Lemma interacting_updates_map (g : nat -> Z) (ns : list nat) :
  interacting_updates ns (map g ns) = map (fun n => (n, put_Interacting (g n))) ns.
Proof. induction ns as [| n ns IH]; [reflexivity |]. cbn. rewrite IH. reflexivity. Qed.

Lemma largest_updates_map (baseline : list Cube) (p0 p1 : nat -> Z) (ns : list nat) :
  largest_updates baseline ns (concat (map (fun n => [p0 n; p1 n]) ns))
  = map (fun n => (n, put_Largest (cube_at baseline (Z.of_nat n)) (p0 n) (p1 n))) ns.
Proof. induction ns as [| n ns IH]; [reflexivity |]. cbn. rewrite IH. reflexivity. Qed.

Lemma interacting_bit_back (x : Z) :
  is_bit x ->
  is_bit (u64 (i32 (Z.lxor x 1))) /\
  i32 (Z.lxor (u64 (i32 (Z.lxor x 1))) 1) = x.
Proof. intros [-> | ->]; split; vm_compute; auto. Qed.

Lemma largest_planes_back (v : Z) :
  0 <= v <= 3 ->
  let w := u64 (i32 v) in
  is_bit (Z.land w 1) /\ is_bit (shr64 w 1) /\
  i32 (Z.lor (shl64 (shr64 w 1) 1) (Z.land w 1)) = v.
Proof.
  intros Hv.
  assert (Hc : v = 0 \/ v = 1 \/ v = 2 \/ v = 3) by lia.
  destruct Hc as [-> | [-> | [-> | ->]]]; vm_compute; auto.
Qed.

Lemma lxor_back (a b : Z) : Z.lxor b (Z.lxor a b) = a.
Proof.
  rewrite (Z.lxor_comm a b), <- Z.lxor_assoc, Z.lxor_nilpotent, Z.lxor_0_l.
  reflexivity.
Qed.

Lemma rebuilt_same (cube : Cube) : rebuilt cube cube = cube.
Proof. destruct cube; reflexivity. Qed.

Lemma rebuilt_same_six (cube base : Cube) : same_six cube base -> rebuilt cube base = cube.
Proof.
  destruct cube, base. unfold same_six, rebuilt. cbn.
  intros (-> & -> & -> & -> & -> & ->). reflexivity.
Qed.

(** The two assignments made to the baseline cube of a changed object give
    back Interacting and Largest of the cube that was encoded. *)
Lemma assignments_rebuild (cube base : Cube) :
  cube <> base -> codable cube base ->
  let v := u64 (i32 (Z.lxor (Cube_Largest cube) (Cube_Largest base))) in
  put_Largest base (Z.land v 1) (shr64 v 1)
    (put_Interacting (u64 (i32 (Z.lxor (Cube_Interacting cube) 1))) base)
  = rebuilt cube base.
Proof.
  intros Hne [Heq | (HI & HL & HR)]; [contradiction |].
  intros v. unfold put_Largest, put_Interacting, set_Largest, set_Interacting, rebuilt.
  cbn [Cube_Largest Cube_Interacting Cube_A Cube_B Cube_C Cube_X Cube_Y Cube_Z].
  destruct (interacting_bit_back _ HI) as [_ HIb].
  destruct (largest_planes_back _ HL) as (_ & _ & HLb).
  cbn zeta in HLb. fold v in HLb.
  rewrite HIb, HLb, lxor_back, (i32_small _ HR). reflexivity.
Qed.

Lemma presence_bit_is_bit (cube base : Cube) : is_bit (presence_bit cube base).
Proof. unfold presence_bit, is_bit. destruct (bool_decide (cube = base)); auto. Qed.

Lemma presence_bit_one (cube base : Cube) : presence_bit cube base = 1 <-> cube <> base.
Proof.
  unfold presence_bit. destruct (decide (cube = base)) as [Heq | Hne].
  - rewrite bool_decide_true by exact Heq. split; [intros H; discriminate H | contradiction].
  - rewrite bool_decide_false by exact Hne. split; [intros _; exact Hne | reflexivity].
Qed.

(** The objects of [ones_from] on the presence bitmap are the changed ones. *)
Lemma ones_from_presence (current baseline : list Cube) (n : nat) :
  n ∈ ones_from 0 (zip_with presence_bit current baseline) <->
  exists cube base, current !! n = Some cube /\ baseline !! n = Some base /\ cube <> base.
Proof.
  rewrite ones_from_elem, Nat.sub_0_r, lookup_zip_with. split.
  - intros [_ Hl].
    destruct (current !! n) as [cube |]; [| discriminate Hl].
    destruct (baseline !! n) as [base |]; [| discriminate Hl].
    cbn in Hl. injection Hl as Hl. apply presence_bit_one in Hl.
    exists cube, base. auto.
  - intros (cube & base & -> & -> & Hne). split; [lia |].
    cbn. f_equal. apply presence_bit_one, Hne.
Qed.

Lemma length_concat_pairs {A} (f : A -> list Z) (l : list A) :
  (forall a, length (f a) = 2%nat) -> length (concat (map f l)) = (2 * length l)%nat.
Proof.
  intros Hf. induction l as [| a l IH]; [reflexivity |].
  cbn [map concat length]. rewrite length_app, Hf, IH. lia.
Qed.

(** The bits that [Encode] hands to the coder are bits, when the changed
    cubes are codable. *)
Lemma encoded_bits_are_bits (current baseline : list Cube) :
  Forall2 codable current baseline ->
  let ns := ones_from 0 (zip_with presence_bit current baseline) in
  Forall is_bit
    (zip_with presence_bit current baseline
     ++ map (interacting_xor_one current) (map Z.of_nat ns)
     ++ concat (map (largest_planes current baseline) (map Z.of_nat ns))).
Proof.
  intros Hcod ns.
  assert (Hns : forall n, n ∈ ns ->
            exists cube base, current !! n = Some cube /\ baseline !! n = Some base
                              /\ cube <> base /\ codable cube base).
  { intros n Hn. apply ones_from_presence in Hn as (cube & base & Hc & Hb & Hne).
    exists cube, base. repeat split; try assumption.
    eapply Forall2_lookup_lr; eassumption. }
  apply Forall_app. split; [| apply Forall_app; split].
  - apply Forall_forall. intros b Hb.
    apply list_elem_of_lookup in Hb as [i Hi].
    rewrite lookup_zip_with in Hi.
    destruct (current !! i) as [cube |]; [| discriminate Hi].
    destruct (baseline !! i) as [base |]; [| discriminate Hi].
    cbn in Hi. injection Hi as <-. apply presence_bit_is_bit.
  - rewrite map_map. apply Forall_map, Forall_forall. intros n Hn.
    destruct (Hns n Hn) as (cube & base & Hc & Hb & Hne & [Heq | (HI & _)]);
      [contradiction |].
    cbn. unfold interacting_xor_one. rewrite (cube_at_of_nat _ _ _ Hc).
    apply interacting_bit_back, HI.
  - rewrite map_map. apply Forall_concat, Forall_map, Forall_forall. intros n Hn.
    destruct (Hns n Hn) as (cube & base & Hc & Hb & Hne & [Heq | (_ & HL & _)]);
      [contradiction |].
    cbn. unfold largest_planes.
    rewrite (cube_at_of_nat _ _ _ Hc), (cube_at_of_nat _ _ _ Hb).
    destruct (largest_planes_back _ HL) as (H0 & H1 & _). cbn zeta in H0, H1.
    constructor; [exact H0 |]. constructor; [exact H1 |]. constructor.
Qed.

(** When the coder answers the three lists one after the other, [Decode]
    makes the assignments that they spell. *)
Lemma Decode_cubes_of_answers (c : Coder) (baseline : list Cube) (snapshot : list Z)
      (presence interacting largest : list Z) :
  let ns := ones_from 0 presence in
  length presence = length baseline ->
  length interacting = length ns ->
  length largest = (2 * length ns)%nat ->
  fst (decode_n c (length (presence ++ interacting ++ largest)) (NewDecoder c snapshot))
  = presence ++ interacting ++ largest ->
  Decode_cubes c baseline snapshot
  = alter_all (largest_updates baseline ns largest)
              (alter_all (interacting_updates ns interacting) baseline).
Proof.
  intros ns HP HI HL Hrep.
  rewrite !length_app in Hrep. rewrite decode_n_app in Hrep. cbn [fst] in Hrep.
  apply app_inj_1 in Hrep as [Hp Hrep]; [| rewrite decode_n_length; reflexivity].
  rewrite decode_n_app in Hrep. cbn [fst] in Hrep.
  apply app_inj_1 in Hrep as [Hi Hl]; [| rewrite decode_n_length; reflexivity].
  rewrite HL in Hl. rewrite HI in Hi, Hl. rewrite HP in Hp, Hi, Hl.
  unfold Decode_cubes. cbn zeta. rewrite Hp. fold ns. rewrite Hi, Hl.
  reflexivity.
Qed.

(** The cubes that the spelled assignments leave, object by object. *)
Lemma assignments_rebuild_frame (current baseline : list Cube) :
  length current = length baseline ->
  Forall2 codable current baseline ->
  let ns := ones_from 0 (zip_with presence_bit current baseline) in
  alter_all (largest_updates baseline ns
               (concat (map (largest_planes current baseline) (map Z.of_nat ns))))
            (alter_all (interacting_updates ns
                          (map (interacting_xor_one current) (map Z.of_nat ns)))
                       baseline)
  = zip_with rebuilt current baseline.
Proof.
  intros Hlen Hcod ns.
  rewrite !map_map.
  rewrite (interacting_updates_map (fun n => interacting_xor_one current (Z.of_nat n))).
  pose (v := fun n : nat =>
          u64 (i32 (Z.lxor (Cube_Largest (cube_at current (Z.of_nat n)))
                           (Cube_Largest (cube_at baseline (Z.of_nat n)))))).
  change (map (fun x : nat => largest_planes current baseline (Z.of_nat x)) ns)
    with (map (fun n : nat => [Z.land (v n) 1; shr64 (v n) 1]) ns).
  rewrite (largest_updates_map baseline (fun n => Z.land (v n) 1) (fun n => shr64 (v n) 1)).
  apply list_eq. intros j.
  rewrite (alter_all_by_index
             (fun n => put_Largest (cube_at baseline (Z.of_nat n))
                                   (Z.land (v n) 1) (shr64 (v n) 1)))
    by (intros n [l i a b c0 x y z]; reflexivity).
  rewrite (alter_all_by_index
             (fun n => put_Interacting (interacting_xor_one current (Z.of_nat n))))
    by (intros n [l i a b c0 x y z]; reflexivity).
  rewrite lookup_zip_with.
  destruct (decide (j ∈ ns)) as [Hin | Hout].
  - apply ones_from_presence in Hin as (cube & base & Hc & Hb & Hne).
    rewrite Hc, Hb. cbn. f_equal.
    unfold v, interacting_xor_one.
    rewrite (cube_at_of_nat _ _ _ Hc), (cube_at_of_nat _ _ _ Hb).
    apply assignments_rebuild; [exact Hne |].
    eapply Forall2_lookup_lr; eassumption.
  - destruct (current !! j) as [cube |] eqn:Hc.
    + destruct (baseline !! j) as [base |] eqn:Hb.
      * cbn. f_equal.
        destruct (decide (cube = base)) as [-> | Hne];
          [symmetry; apply rebuilt_same |].
        exfalso. apply Hout. apply ones_from_presence. exists cube, base. auto.
      * apply lookup_lt_Some in Hc. apply lookup_ge_None in Hb. lia.
    + cbn. apply lookup_ge_None. apply lookup_ge_None in Hc. lia.
Qed.

(** C1, amended.  With a coder that replays the bits it was given, on
    frames of one length whose changed cubes are codable (Interacting 0 or
    1, Largest apart from baseline in its two low bits only), [Encode]
    returns a snapshot and a receiver with the same baseline decodes it to
    the frame that has Largest and Interacting of current on A, B, C, X, Y
    and Z of baseline; this frame is current when current has the six
    fields of baseline. *)
Theorem Decode_of_Encode_rebuilds_flags (c : Coder) (s r : State) :
  replays c ->
  frames_fit s ->
  Baseline r = Baseline s ->
  Forall2 codable (Cubes (Current s)) (Cubes (Baseline s)) ->
  exists snapshot r',
    Encode c s = Ok snapshot /\
    Decode c r snapshot = Ok r' /\
    Cubes (Current r')
    = zip_with rebuilt (Cubes (Current s)) (Cubes (Baseline s)) /\
    (Forall2 same_six (Cubes (Current s)) (Cubes (Baseline s)) ->
     Current r' = Current s).
Proof.
  intros Hrep Hfit Hbase Hcod.
  pose proof (Encode_passes_bits s Hfit) as HE. cbn zeta in HE.
  destruct Hfit as (_ & Hlen & _).
  set (current := Cubes (Current s)) in *.
  set (baseline := Cubes (Baseline s)) in *.
  rewrite <- (ones_from_changed current baseline Hlen) in HE.
  set (presence := zip_with presence_bit current baseline) in *.
  set (ns := ones_from 0 presence) in *.
  set (interacting := map (interacting_xor_one current) (map Z.of_nat ns)) in *.
  set (largest := concat (map (largest_planes current baseline) (map Z.of_nat ns))) in *.
  exists (Bytes c (presence ++ interacting ++ largest)). eexists.
  split; [unfold Encode; rewrite HE; reflexivity |].
  split; [apply Decode_exact |].
  cbn [Current Cubes]. rewrite Hbase. fold baseline.
  assert (Hcubes : Decode_cubes c baseline (Bytes c (presence ++ interacting ++ largest))
                   = zip_with rebuilt current baseline).
  { rewrite (Decode_cubes_of_answers c baseline _ presence interacting largest).
    - apply assignments_rebuild_frame; assumption.
    - unfold presence. rewrite length_zip_with. lia.
    - unfold interacting. rewrite !length_map. reflexivity.
    - unfold largest. rewrite length_concat_pairs by reflexivity.
      rewrite length_map. reflexivity.
    - apply Hrep. apply encoded_bits_are_bits. exact Hcod. }
  split; [exact Hcubes |].
  intros Hsix. rewrite Hcubes.
  destruct (Current s) as [cubes] eqn:Hcur. cbn in current. f_equal.
  clear - Hsix. subst current.
  induction Hsix as [| cube base cubes bases Hcb _ IH]; [reflexivity |].
  cbn. rewrite (rebuilt_same_six _ _ Hcb), IH. reflexivity.
Qed.

Lemma Decode_of_Encode_rebuilds_flags_witness :
  exists snapshot r',
    Encode plain_coder flags_only = Ok snapshot /\
    Decode plain_coder flags_only snapshot = Ok r' /\
    Cubes (Current r')
    = [zero_Cube; mkCube 0 1 0 0 0 0 0 0; mkCube 2 0 0 0 0 0 0 0] /\
    (Forall2 same_six (Cubes (Current flags_only)) (Cubes (Baseline flags_only)) ->
     Current r' = Current flags_only).
Proof.
  apply (Decode_of_Encode_rebuilds_flags plain_coder flags_only flags_only).
  - exact plain_coder_replays.
  - unfold frames_fit, len. cbn. lia.
  - reflexivity.
  - cbn. constructor; [left; reflexivity |].
    constructor.
    { right. split; [right; reflexivity |].
      repeat split; vm_compute; first [reflexivity | intros H; discriminate H]. }
    constructor.
    { right. split; [left; reflexivity |].
      repeat split; vm_compute; first [reflexivity | intros H; discriminate H]. }
    constructor.
Defined.

(** ** sort.Sort: the routine for short slices meets the contract *)

Section ShortSort.

Context {A : Type} (key : A -> Z).

Let less : A -> A -> bool := Sort.less_by key.
Let descending : A -> A -> Prop := fun a b => key b <= key a.
Let ascending : A -> A -> Prop := fun a b => key a <= key b.

Lemma gap6_pass_Permutation (turns : nat) : forall (i : nat) (l : list A),
  Sort.gap6_pass less turns i l ≡ₚ l.
Proof.
  induction turns as [| turns IH]; intros i l; [reflexivity |].
  cbn [Sort.gap6_pass]. rewrite IH.
  destruct (l !! i) as [x |] eqn:Hx; [| reflexivity].
  destruct (l !! (i - 6)%nat) as [y |] eqn:Hy; [| reflexivity].
  destruct (less x y); [| reflexivity].
  apply Permutation_insert_swap; assumption.
Qed.

Lemma move_left_Permutation (x : A) (before : list A) :
  Sort.move_left less x before ≡ₚ x :: before.
Proof.
  induction before as [| y before IH]; [reflexivity |].
  cbn [Sort.move_left]. destruct (less x y); [| reflexivity].
  rewrite IH. apply Permutation_swap.
Qed.

Lemma move_left_sorted (x : A) (before : list A) :
  StronglySorted descending before ->
  StronglySorted descending (Sort.move_left less x before).
Proof.
  induction 1 as [| y before Hsorted IH Hy].
  - cbn. repeat constructor.
  - cbn [Sort.move_left]. destruct (less x y) eqn:Hxy.
    + unfold less, Sort.less_by in Hxy. apply Z.ltb_lt in Hxy.
      constructor; [exact IH |].
      rewrite move_left_Permutation. constructor; [unfold descending; lia | exact Hy].
    + unfold less, Sort.less_by in Hxy. apply Z.ltb_ge in Hxy.
      constructor; [constructor; assumption |].
      constructor; [exact Hxy |].
      eapply Forall_impl; [exact Hy |]. unfold descending. intros z Hz. cbn in *. lia.
Qed.

Lemma insertion_loop (l : list A) : forall before : list A,
  StronglySorted descending before ->
  let after := foldl (fun before x => Sort.move_left less x before) before l in
  StronglySorted descending after /\ after ≡ₚ reverse l ++ before.
Proof.
  induction l as [| x l IH]; intros before Hsorted.
  - cbn. split; [exact Hsorted | reflexivity].
  - cbn [foldl].
    destruct (IH (Sort.move_left less x before) (move_left_sorted x before Hsorted))
      as [Hs Hp].
    split; [exact Hs |].
    cbn zeta in Hp. rewrite Hp, move_left_Permutation, reverse_cons, <- app_assoc.
    reflexivity.
Qed.

Lemma reverse_descending (l : list A) :
  StronglySorted descending l -> StronglySorted ascending (reverse l).
Proof.
  induction 1 as [| x l _ IH Hx]; [constructor |].
  rewrite reverse_cons. apply StronglySorted_app.
  split; [| split; [exact IH | repeat constructor]].
  intros a b Ha Hb. apply list_elem_of_singleton in Hb as ->.
  rewrite elem_of_reverse in Ha.
  rewrite Forall_forall in Hx. exact (Hx a Ha).
Qed.

Lemma insertionSort_sorts (l : list A) :
  Sort.insertionSort less l ≡ₚ l /\
  StronglySorted ascending (Sort.insertionSort less l).
Proof.
  unfold Sort.insertionSort.
  destruct (insertion_loop l [] (SSorted_nil _)) as [Hs Hp]. cbn zeta in Hs, Hp.
  split.
  - rewrite reverse_Permutation, Hp, app_nil_r. apply reverse_Permutation.
  - apply reverse_descending, Hs.
Qed.

End ShortSort.

Lemma short_sort_sorts : Sort.sorts Sort.short_sort.
Proof.
  intros A key l. unfold Sort.short_sort.
  destruct (insertionSort_sorts key
              (Sort.gap6_pass (Sort.less_by key) (length l - 6) 6 l)) as [Hp Hs].
  split; [| exact Hs].
  rewrite Hp. apply gap6_pass_Permutation.
Qed.

(** ** Ordering.Improve *)

Import Main.

Section ImproveFacts.

Variable sort_Sort : Sort.sorter.
Variable byDelta_Less : Deltas -> Deltas -> IndexValue -> IndexValue -> bool.

Lemma sort_byGetter_in_range (order : list Z) (deltas : Deltas) (get : Delta -> Z) :
  Forall (fun i => in_range deltas i = true) order ->
  sort_byGetter sort_Sort order deltas get
  = Ok (sort_Sort Z (Sort.less_by (byGetter_key deltas get)) order).
Proof.
  intros Hin. unfold sort_byGetter.
  assert (Hall : forallb (in_range deltas) order = true).
  { induction Hin as [| i order Hi _ IH]; [reflexivity |].
    cbn. rewrite Hi, IH. reflexivity. }
  rewrite Hall, orb_true_r. reflexivity.
Qed.

(** C5, amended.  With a [sort.Sort] that sorts, on tables that hold
    indices of the frame, [Improve] returns, and the tables Largest and
    Interacting it leaves are permutations of the tables it found, in
    ascending order of the attribute in baseline.  The order of the entries
    with equal attributes is left to [sort.Sort]. *)
Theorem Improve_sorts_ascending (order : Ordering) (historic baseline : Deltas) :
  Sort.sorts sort_Sort ->
  Ordering_in_range order baseline ->
  exists order',
    Improve sort_Sort byDelta_Less order historic baseline = Ok order' /\
    Largest order' ≡ₚ Largest order /\
    StronglySorted (fun a b => byGetter_key baseline getLargest a
                               <= byGetter_key baseline getLargest b)
                   (Largest order') /\
    Interacting order' ≡ₚ Interacting order /\
    StronglySorted (fun a b => byGetter_key baseline getInteracting a
                               <= byGetter_key baseline getInteracting b)
                   (Interacting order').
Proof.
  intros Hsorts [HL HI]. unfold Improve. cbn [dontsort negb].
  rewrite (sort_byGetter_in_range _ _ _ HL). cbn.
  rewrite (sort_byGetter_in_range _ _ _ HI). cbn.
  eexists. split; [reflexivity |]. cbn [Largest Interacting].
  destruct (Hsorts Z (byGetter_key baseline getLargest) (Largest order)) as [HpL HsL].
  destruct (Hsorts Z (byGetter_key baseline getInteracting) (Interacting order))
    as [HpI HsI].
  auto.
Qed.

End ImproveFacts.

Lemma Improve_sorts_ascending_witness :
  exists order',
    Improve Sort.short_sort (fun _ _ _ _ => false) (NewOrdering seven) seven seven
    = Ok order' /\
    Largest order' ≡ₚ [0; 1; 2; 3; 4; 5; 6] /\
    StronglySorted (fun a b => byGetter_key seven getLargest a
                               <= byGetter_key seven getLargest b)
                   (Largest order') /\
    Interacting order' ≡ₚ [0; 1; 2; 3; 4; 5; 6] /\
    StronglySorted (fun a b => byGetter_key seven getInteracting a
                               <= byGetter_key seven getInteracting b)
                   (Interacting order').
Proof.
  apply (Improve_sorts_ascending Sort.short_sort (fun _ _ _ _ => false)
           (NewOrdering seven) seven seven short_sort_sorts).
  split; cbn; repeat (constructor; [reflexivity |]); constructor.
Defined.

(** C5, as the specification words it, at the frame [seven] and the new ordering:
    the objects 0 to 5 have Largest 1 and object 6 has Largest 0.  With the
    routine for short slices, which sorts, [Improve] leaves Largest as
    6, 1, 2, 3, 4, 5, 0: ascending, and object 0 has moved behind the
    objects 1 to 5, whose Largest is equal to its own. *)
Lemma Improve_breaks_ties_out_of_order :
  Sort.sorts Sort.short_sort /\
  exists order',
    Improve Sort.short_sort (fun _ _ _ _ => false) (NewOrdering seven) seven seven
    = Ok order' /\
    Largest (NewOrdering seven) = [0; 1; 2; 3; 4; 5; 6] /\
    Largest order' = [6; 1; 2; 3; 4; 5; 0] /\
    ~ Sort.keeps_ties (byGetter_key seven getLargest)
                      (Largest (NewOrdering seven)) (Largest order').
Proof.
  split; [exact short_sort_sorts |].
  eexists. split; [vm_compute; reflexivity |].
  split; [reflexivity |]. split; [reflexivity |].
  intros Hties. specialize (Hties 1). vm_compute in Hties. discriminate Hties.
Qed.

(** * Further properties *)

(** ** bit/bit.go: when the writer panics, and when it does not *)

Import BitLayout.

Lemma flush_loop_total (room : nat) : forall (bits nbits : Z) (buf : list Z),
  0 <= nbits <= 8 * Z.of_nat room + 8 ->
  exists bits' nbits' out,
    flush_loop room bits nbits buf = Ok (bits', nbits', buf ++ out) /\
    0 <= nbits' <= 8 /\
    (nbits <= 8 -> out = [] /\ nbits' = nbits /\ bits' = bits).
Proof.
  induction room as [| room IH]; intros bits nbits buf Hn; cbn [flush_loop].
  - replace (8 <? nbits) with false by (symmetry; apply Z.ltb_ge; lia).
    exists bits, nbits, []. rewrite app_nil_r. repeat split; lia.
  - destruct (8 <? nbits) eqn:Hlt.
    + apply Z.ltb_lt in Hlt.
      destruct (IH (shr64 bits 8) (nbits - 8) (buf ++ [byte_of bits]) ltac:(lia))
        as (bits' & nbits' & out & Hrun & Hn' & _).
      exists bits', nbits', (byte_of bits :: out).
      rewrite Hrun, <- app_assoc. split; [reflexivity |]. split; [exact Hn' | lia].
    + apply Z.ltb_ge in Hlt.
      exists bits, nbits, []. rewrite app_nil_r. repeat split; lia.
Qed.

Lemma flush_loop_overflows (room : nat) : forall (bits nbits : Z) (buf : list Z),
  8 * Z.of_nat room + 8 < nbits ->
  flush_loop room bits nbits buf = Panic IndexOutOfRange.
Proof.
  induction room as [| room IH]; intros bits nbits buf Hn; cbn [flush_loop];
    replace (8 <? nbits) with true by (symmetry; apply Z.ltb_lt; lia).
  - reflexivity.
  - apply IH. lia.
Qed.

Section AnySink.

Variable sink : list (list Z) -> list Z -> option error.

Lemma flush_total (w : Writer) :
  0 <= w_nbits w <= 136 ->
  exists w', Writer_flush sink w = Ok w' /\ 0 <= w_nbits w' <= 8.
Proof.
  intros Hn. unfold Writer_flush. destruct (w_err w) as [e |].
  - eexists. split; [reflexivity |]. cbn. lia.
  - destruct (flush_loop_total 16 (w_bits w) (w_nbits w) [] ltac:(lia))
      as (bits' & nbits' & out & Hrun & Hn' & _).
    rewrite Hrun. cbn. eexists. split; [reflexivity |]. exact Hn'.
Qed.

(** After [Align], whatever the sink answered, no bit is pending. *)
Lemma flushpartial_total (w : Writer) :
  0 <= w_nbits w <= 136 ->
  exists w', Writer_flushpartial sink w = Ok w' /\ w_nbits w' = 0.
Proof.
  intros Hn. destruct (flush_total w Hn) as (w1 & Hrun & Hn1).
  unfold Writer_flushpartial. rewrite Hrun. cbn.
  destruct (w_err w1) as [e |].
  - eexists. split; reflexivity.
  - destruct (0 <? w_nbits w1) eqn:Hpos.
    + eexists. split; reflexivity.
    + apply Z.ltb_ge in Hpos. exists w1. split; [reflexivity | lia].
Qed.

Lemma run_wop_total (w : Writer) (o : wop) :
  0 <= w_nbits w <= 16 -> widths_within 120 o ->
  exists w' e, run_wop sink w o = Ok (w', e) /\ 0 <= w_nbits w' <= 16.
Proof.
  intros Hn Ho.
  assert (Hbits : forall x width, 0 <= width <= 120 ->
            exists w' e, Writer_WriteBits sink w x width = Ok (w', e)
                         /\ 0 <= w_nbits w' <= 16).
  { intros x width Hw. unfold Writer_WriteBits. cbn [w_nbits].
    rewrite (u64_small (w_nbits w + width))
      by (change (2 ^ 64) with 18446744073709551616; lia).
    destruct (16 <? w_nbits w + width) eqn:Hbig.
    - destruct (flush_total
                  (mkWriter (w_calls w) (Z.lor (w_bits w) (shl64 (u64 x) (w_nbits w)))
                            (w_nbits w + width) (w_err w)))
        as (w' & Hrun & Hn'); [cbn; lia |].
      rewrite Hrun. cbn. do 2 eexists. split; [reflexivity | lia].
    - apply Z.ltb_ge in Hbig. cbn. do 2 eexists. split; [reflexivity |]. cbn. lia. }
  assert (Halign : exists w' e, Writer_Align sink w = Ok (w', e)
                                /\ 0 <= w_nbits w' <= 16).
  { destruct (flushpartial_total w ltac:(lia)) as (w' & Hrun & Hn').
    unfold Writer_Align. rewrite Hrun. cbn. do 2 eexists.
    split; [reflexivity | lia]. }
  destruct o as [x width | x | | ]; cbn [run_wop].
  - apply Hbits. exact Ho.
  - apply Hbits. lia.
  - exact Halign.
  - exact Halign.
Qed.

(** X1. A writer never panics as long as every [WriteBits] has a width of
    at most 120: from a new writer, over any sink, failing or not, every
    sequence of [WriteBits], [WriteBit], [Align] and [Close] runs to its
    end, returns one error value per call, and leaves at most 16 bits
    pending. *)
Theorem writer_runs_without_panic (ops : list wop) :
  Forall (widths_within 120) ops ->
  exists w es,
    run_wops sink NewWriter ops = Ok (w, es) /\
    length es = length ops /\
    0 <= w_nbits w <= 16.
Proof.
  assert (Hgen : forall w, 0 <= w_nbits w <= 16 ->
            Forall (widths_within 120) ops ->
            exists w' es, run_wops sink w ops = Ok (w', es)
                          /\ length es = length ops /\ 0 <= w_nbits w' <= 16).
  { induction ops as [| o os IH]; intros w Hn Hops.
    - exists w, []. auto.
    - apply Forall_cons in Hops as [Ho Hos].
      destruct (run_wop_total w o Hn Ho) as (w1 & e & Hrun & Hn1).
      destruct (IH w1 Hn1 Hos) as (w2 & es & Hruns & Hlen & Hn2).
      exists w2, (e :: es). cbn [run_wops]. rewrite Hrun. cbn. rewrite Hruns. cbn.
      split; [reflexivity |]. split; [lia | exact Hn2]. }
  apply Hgen. cbn. lia.
Qed.

(** X2. The buffer of [flush] holds 16 bytes: a [WriteBits] that brings the
    pending bits of a writer without error above 136 panics with an index
    out of range, before anything is written. *)
Theorem WriteBits_overflows_flush_buffer (w : Writer) (x width : Z) :
  w_err w = None ->
  136 < w_nbits w + width < 2 ^ 64 ->
  Writer_WriteBits sink w x width = Panic IndexOutOfRange.
Proof.
  intros He Hn. unfold Writer_WriteBits. cbn [w_nbits].
  rewrite (u64_small (w_nbits w + width)) by lia.
  replace (16 <? w_nbits w + width) with true by (symmetry; apply Z.ltb_lt; lia).
  unfold Writer_flush. cbn [w_err w_bits w_nbits]. rewrite He.
  rewrite flush_loop_overflows by (cbn; lia). reflexivity.
Qed.

(** X3. [Align] is idempotent on the bytes: a second [Align] (or [Close])
    right after a first writes no byte more, whatever the sink answers, and
    leaves no bit pending. *)
Theorem Align_twice_writes_once (w : Writer) :
  0 <= w_nbits w <= 136 ->
  exists w1 e1 w2 e2,
    Writer_Align sink w = Ok (w1, e1) /\
    Writer_Close sink w1 = Ok (w2, e2) /\
    written w2 = written w1 /\
    w_nbits w1 = 0 /\ w_nbits w2 = 0.
Proof.
  intros Hn. destruct (flushpartial_total w Hn) as (w1 & Hrun & Hn1).
  exists w1, (w_err w1).
  unfold Writer_Close, Writer_Align. rewrite Hrun. cbn.
  unfold Writer_flushpartial, Writer_flush.
  destruct (w_err w1) as [e |] eqn:He1.
  - cbn. do 2 eexists. split; [reflexivity |].
    split; [reflexivity |]. split; [reflexivity |]. split; [exact Hn1 | reflexivity].
  - rewrite Hn1. cbn.
    destruct (sink (w_calls w1) []) as [e |]; cbn.
    + do 2 eexists. split; [reflexivity |]. split; [reflexivity |].
      unfold written. cbn. rewrite concat_app. cbn. rewrite app_nil_r.
      split; [reflexivity |]. split; reflexivity.
    + do 2 eexists. split; [reflexivity |]. split; [reflexivity |].
      unfold written. cbn. rewrite concat_app. cbn. rewrite app_nil_r.
      split; [reflexivity |]. split; reflexivity.
Qed.

End AnySink.

Lemma writer_runs_without_panic_witness :
  exists w es,
    run_wops refusing_sink NewWriter
             [OpWriteBits 5 120; OpWriteBit 3; OpAlign; OpWriteBits 1 16; OpClose]
    = Ok (w, es) /\
    length es = 5%nat /\
    0 <= w_nbits w <= 16.
Proof.
  apply (writer_runs_without_panic refusing_sink
           [OpWriteBits 5 120; OpWriteBit 3; OpAlign; OpWriteBits 1 16; OpClose]).
  repeat (constructor; [cbn; lia |]). constructor.
Defined.

Lemma WriteBits_overflows_flush_buffer_witness :
  Writer_WriteBits buffer_sink NewWriter 1 137 = Panic IndexOutOfRange.
Proof.
  apply (WriteBits_overflows_flush_buffer buffer_sink NewWriter 1 137).
  - reflexivity.
  - cbn. lia.
Defined.

Lemma Align_twice_writes_once_witness :
  exists w1 e1 w2 e2,
    Writer_Align buffer_sink (mkWriter [] 5 3 None) = Ok (w1, e1) /\
    Writer_Close buffer_sink w1 = Ok (w2, e2) /\
    written w2 = written w1 /\
    w_nbits w1 = 0 /\ w_nbits w2 = 0.
Proof.
  apply (Align_twice_writes_once buffer_sink (mkWriter [] 5 3 None)).
  cbn. lia.
Defined.

(** ** bit/bit.go: bits, single bits and alignments, written and read *)

Lemma pad_bounds (p : Z) : 0 <= pad p < 8.
Proof. unfold pad. apply Z.mod_pos_bound. lia. Qed.

Lemma pad_unique (p r m : Z) : 0 <= r < 8 -> p + r = 8 * m -> pad p = r.
Proof.
  intros Hr Hm. unfold pad. symmetry.
  apply (Z.mod_unique (- p) 8 (- m) r); [left; exact Hr | lia].
Qed.

Lemma land_1_bit (x : Z) : 0 <= Z.land x 1 < 2.
Proof.
  assert (H : Z.land x 1 = x mod 2) by (apply (Z.land_ones x 1); lia).
  rewrite H. apply Z.mod_pos_bound. lia.
Qed.

Lemma end_of_ge (ops : list sop) : forall p,
  Forall sop_fits ops -> p <= end_of p ops.
Proof.
  induction ops as [| o ops IH]; intros p Hfit; cbn [end_of]; [lia |].
  apply Forall_cons in Hfit as [Ho Hfit].
  destruct o as [v width | x | ].
  - destruct Ho as [Hw _]. cbn in Hw. specialize (IH (p + width) Hfit). lia.
  - specialize (IH (p + 1) Hfit). lia.
  - pose proof (pad_bounds p). specialize (IH (p + pad p) Hfit). lia.
Qed.

Lemma Align_holds (w : Writer) (S T : Z) :
  Writer_holds w S T -> w_nbits w <= 136 ->
  exists w',
    Writer_Align buffer_sink w = Ok (w', None) /\
    Writer_holds w' S (T + pad T) /\ w_nbits w' = 0 /\ w_bits w' = 0.
Proof.
  intros Hw Hn.
  destruct (flush_holds w S T Hw Hn) as (w1 & Hrun & H1 & Hn1).
  destruct H1 as (He & Hbytes & Hn0 & Hb & HT & HS).
  unfold Writer_Align, Writer_flushpartial. rewrite Hrun. cbn. rewrite He.
  destruct (0 <? w_nbits w1) eqn:Hpos.
  - apply Z.ltb_lt in Hpos. cbn. eexists. split; [reflexivity |].
    assert (Hbyte : is_byte (w_bits w1)).
    { unfold is_byte. pose proof (pow2_le (w_nbits w1) 8 ltac:(lia)).
      change (2 ^ 8) with 256 in *. lia. }
    split; [| split; reflexivity].
    unfold Writer_holds. rewrite written_snoc. fold (written w1).
    cbn [w_err w_nbits w_bits].
    unfold byte_of. rewrite Z.mod_small by exact Hbyte.
    rewrite little_endian_app, length_app. cbn [little_endian length].
    split; [reflexivity |].
    split; [apply Forall_app; split; [exact Hbytes | constructor; [exact Hbyte | constructor]] |].
    split; [lia |]. split; [cbn; lia |].
    split; [| rewrite HS; ring].
    rewrite (pad_unique T (8 - w_nbits w1) (Z.of_nat (length (written w1)) + 1)); lia.
  - apply Z.ltb_ge in Hpos. cbn. rewrite He. exists w1.
    assert (Hz : w_nbits w1 = 0) by lia.
    rewrite Hz in Hb. change (2 ^ 0) with 1 in Hb.
    split; [reflexivity |]. split; [| split; [exact Hz | lia]].
    rewrite (pad_unique T 0 (Z.of_nat (length (written w1)))) by lia.
    rewrite Z.add_0_r.
    unfold Writer_holds. rewrite Hz. change (2 ^ 0) with 1.
    repeat split; try assumption; try lia.
Qed.

Lemma write_layout (ops : list sop) : forall (w : Writer) (S T : Z),
  Writer_holds w S T -> w_nbits w <= 16 -> Forall sop_fits ops ->
  exists w' es,
    run_wops buffer_sink w (map writer_op ops ++ [OpClose]) = Ok (w', es) /\
    Forall is_byte (written w') /\
    little_endian (written w') = S + 2 ^ T * stream_from T ops /\
    8 * Z.of_nat (length (written w')) = end_of T ops + pad (end_of T ops).
Proof.
  induction ops as [| o ops IH]; intros w S T Hw Hn Hfit.
  - cbn [map app run_wops run_wop stream_from end_of].
    destruct (Align_holds w S T Hw ltac:(lia)) as (w' & Hrun & Hw' & Hn' & Hb').
    unfold Writer_Close. rewrite Hrun. cbn. exists w'. eexists.
    destruct Hw' as (_ & Hbytes & _ & _ & HT & HS).
    split; [reflexivity |]. split; [exact Hbytes |].
    rewrite Hb' in HS. rewrite Hn' in HT. split; [lia | lia].
  - apply Forall_cons in Hfit as [Ho Hfit].
    assert (HT0 : 0 <= T) by (destruct Hw as (_ & _ & ? & _ & ? & _); lia).
    assert (Hstep : forall v width, fits_width (v, width) ->
              run_wop buffer_sink w (writer_op o)
              = Writer_WriteBits buffer_sink w v width ->
              stream_from T (o :: ops) = v + 2 ^ width * stream_from (T + width) ops ->
              end_of T (o :: ops) = end_of (T + width) ops ->
              exists w' es,
                run_wops buffer_sink w (map writer_op (o :: ops) ++ [OpClose])
                = Ok (w', es) /\
                Forall is_byte (written w') /\
                little_endian (written w') = S + 2 ^ T * stream_from T (o :: ops) /\
                8 * Z.of_nat (length (written w'))
                = end_of T (o :: ops) + pad (end_of T (o :: ops))).
    { intros v width Hvw Hop Hs He.
      destruct (WriteBits_holds w S T v width Hw Hn Hvw) as (w1 & Hrun & Hw1 & Hn1).
      destruct (IH w1 _ _ Hw1 Hn1 Hfit) as (w' & es & Hruns & Hbytes & HS & HL).
      exists w'. eexists. cbn [map app run_wops].
      rewrite Hop, Hrun. cbn [mbind result_mbind result_bind].
      rewrite Hruns. cbn [mbind result_mbind result_bind].
      split; [reflexivity |]. split; [exact Hbytes |].
      destruct Hvw as [Hwd _]. cbn in Hwd.
      rewrite Hs, He, HS, Z.pow_add_r by lia. split; [ring | exact HL]. }
    destruct o as [v width | x | ].
    + apply (Hstep v width Ho); reflexivity.
    + apply (Hstep (u64 (Z.land x 1)) 1).
      * pose proof (land_1_bit x). unfold fits_width. cbn.
        rewrite u64_small by lia. lia.
      * reflexivity.
      * pose proof (land_1_bit x). cbn [stream_from].
        rewrite u64_small by lia. reflexivity.
      * reflexivity.
    + destruct (Align_holds w S T Hw ltac:(lia)) as (w1 & Hrun & Hw1 & Hn1 & _).
      destruct (IH w1 _ _ Hw1 ltac:(lia) Hfit) as (w' & es & Hruns & Hbytes & HS & HL).
      exists w'. eexists. cbn [map app run_wops run_wop writer_op].
      rewrite Hrun. cbn [mbind result_mbind result_bind].
      rewrite Hruns. cbn [mbind result_mbind result_bind].
      split; [reflexivity |]. split; [exact Hbytes |].
      pose proof (pad_bounds T).
      cbn [stream_from end_of]. rewrite HS, Z.pow_add_r by lia.
      split; [ring | exact HL].
Qed.

Section AnySource.

Variable source : nat -> Z * option error.

Lemma ReadBits_loop_nbits (width : Z) (fuel : nat) :
  forall (r : Reader) (x n : Z) (r' : Reader) (v : Z),
  0 <= width <= 32 -> 0 <= n < width + 8 ->
  r_nbits r = u64 (8 - n) ->
  ReadBits_loop source fuel r width x n = Ok (r', v, None) ->
  1 <= r_nbits r' <= 8.
Proof.
  induction fuel as [| fuel IH]; intros r x n r' v Hw Hn Hnb; cbn [ReadBits_loop];
    rewrite (i64_small width), (i64_small n), (i64_small (width - n)) by lia.
  - destruct (0 <? width - n) eqn:Hmore; [intros H; discriminate H |].
    apply Z.ltb_ge in Hmore. intros H. injection H as <- _.
    cbn [r_nbits]. rewrite Hnb. unfold u64. rewrite Zplus_mod_idemp_l.
    rewrite Z.mod_small by lia. lia.
  - destruct (0 <? width - n) eqn:Hmore.
    + apply Z.ltb_lt in Hmore. cbn [r_err].
      destruct (r_err (Reader_read source r)) as [e |] eqn:He;
        [intros H; discriminate H |].
      apply IH; [exact Hw | rewrite u64_small by lia; lia |].
      cbn [r_nbits]. rewrite (u64_small (n + 8)) by lia.
      assert (Hkeep : r_nbits (Reader_read source r) = r_nbits r).
      { unfold Reader_read in *. destruct (r_err r); [discriminate He |].
        destruct (source (r_reads r)). reflexivity. }
      rewrite Hkeep, Hnb. unfold u64. rewrite Zminus_mod_idemp_l. f_equal. lia.
    + apply Z.ltb_ge in Hmore. intros H. injection H as <- _.
      cbn [r_nbits]. rewrite Hnb. unfold u64. rewrite Zplus_mod_idemp_l.
      rewrite Z.mod_small by lia. lia.
Qed.

(** A reader never holds a byte of which it has read nothing: after a
    successful [ReadBits] between 1 and 8 bits of the current byte are
    consumed. *)
Lemma ReadBits_nbits (r : Reader) (width : Z) (r' : Reader) (v : Z) :
  1 <= r_nbits r <= 8 -> 0 <= width <= 32 ->
  Reader_ReadBits source r width = Ok (r', v, None) ->
  1 <= r_nbits r' <= 8.
Proof.
  intros Hn Hw. unfold Reader_ReadBits.
  destruct (r_err r) as [e |]; [intros H; discriminate H |].
  rewrite (i64_small (r_nbits r)), (i64_small (8 - r_nbits r)), (i64_small width)
    by lia.
  destruct (width <? 8 - r_nbits r) eqn:Hshort.
  - apply Z.ltb_lt in Hshort. intros H. injection H as <- _.
    cbn [r_nbits]. rewrite u64_small by lia. lia.
  - apply Z.ltb_ge in Hshort. rewrite (u64_small (8 - r_nbits r)) by lia.
    apply ReadBits_loop_nbits; [exact Hw | lia |].
    replace (8 - (8 - r_nbits r)) with (r_nbits r) by lia.
    rewrite u64_small by lia. reflexivity.
Qed.

End AnySource.

Section ReadingLayout.

Variable bs : list Z.
Hypothesis bs_bytes : Forall is_byte bs.

Let S : Z := little_endian bs.

Lemma Reader_Align_at (r : Reader) (q : Z) :
  Reader_at bs r q -> 1 <= r_nbits r ->
  Reader_at bs (Reader_Align r) (q + pad q).
Proof.
  intros (He & Hn & Hb & Hq0 & Hq & _) Hn1.
  assert (Hpad : pad q = 8 - r_nbits r)
    by (apply (pad_unique q _ (Z.of_nat (r_reads r))); lia).
  unfold Reader_at, Reader_Align. cbn [r_err r_nbits r_bits r_reads].
  split; [exact He |]. split; [lia |]. split; [exact Hb |].
  split; [lia |]. split; [lia |].
  intros m Hm. replace m with 8 by lia.
  replace (8 - 8) with 0 by lia. change (2 ^ 0) with 1. rewrite Z.mod_1_r.
  apply Z.div_small. change (2 ^ 8) with 256. exact Hb.
Qed.

Lemma read_layout (ops : list sop) : forall (r : Reader) (q rest : Z),
  Forall sop_fits ops ->
  Reader_at bs r q -> 1 <= r_nbits r ->
  S / 2 ^ q = stream_from q ops + 2 ^ (end_of q ops - q) * rest ->
  end_of q ops <= 8 * Z.of_nat (length bs) ->
  exists r',
    run_rops (bytes_source bs) r (map reader_op ops) = Ok (r', map expected ops).
Proof.
  induction ops as [| o ops IH]; intros r q rest Hfit Hat Hn1 Hnext Hend.
  - exists r. reflexivity.
  - apply Forall_cons in Hfit as [Ho Hfit].
    assert (Hq0 : 0 <= q) by (destruct Hat as (_ & _ & _ & H & _); exact H).
    pose proof (pow2_pos q Hq0) as Hpq.
    assert (Hstep : forall v width, fits_width (v, width) ->
              stream_from q (o :: ops) = v + 2 ^ width * stream_from (q + width) ops ->
              end_of q (o :: ops) = end_of (q + width) ops ->
              exists r1,
                Reader_ReadBits (bytes_source bs) r width = Ok (r1, v, None) /\
                exists r',
                  run_rops (bytes_source bs) r1 (map reader_op ops)
                  = Ok (r', map expected ops)).
    { intros v width [Hw Hv] Hs He. cbn [fst snd] in Hw, Hv.
      pose proof (end_of_ge ops (q + width) Hfit) as Hge.
      rewrite Hs, He in Hnext. rewrite He in Hend.
      pose proof (pow2_pos width ltac:(lia)) as Hpw.
      destruct (ReadBits_at bs bs_bytes r q width Hat ltac:(lia) ltac:(lia))
        as (r1 & Hrun & Hat1).
      fold S in Hrun.
      assert (Hsplit : S / 2 ^ q
                = v + 2 ^ width * (stream_from (q + width) ops
                                   + 2 ^ (end_of (q + width) ops - (q + width)) * rest)).
      { rewrite Hnext.
        replace (end_of (q + width) ops - q)
          with (width + (end_of (q + width) ops - (q + width))) by lia.
        rewrite Z.pow_add_r by lia. ring. }
      assert (Hval : (S / 2 ^ q) mod 2 ^ width = v).
      { rewrite Hsplit, (Z.mul_comm (2 ^ width)), Z.mod_add by lia.
        apply Z.mod_small. exact Hv. }
      rewrite Hval in Hrun. exists r1. split; [exact Hrun |].
      apply (IH r1 (q + width) rest Hfit Hat1).
      - apply (ReadBits_nbits (bytes_source bs) r width r1 v); [| lia | exact Hrun].
        destruct Hat as (_ & ? & _). lia.
      - rewrite Z.pow_add_r, <- Z.div_div by lia.
        rewrite Hsplit, (Z.mul_comm (2 ^ width)), Z.div_add by lia.
        rewrite (Z.div_small v) by exact Hv. lia.
      - exact Hend. }
    destruct o as [v width | x | ].
    + destruct (Hstep v width Ho eq_refl eq_refl) as (r1 & Hrun & r' & Hruns).
      exists r'. cbn [map run_rops run_rop reader_op expected].
      rewrite Hrun. cbn [mbind result_mbind result_bind].
      rewrite Hruns. reflexivity.
    + pose proof (land_1_bit x) as Hbit.
      destruct (Hstep (Z.land x 1) 1) as (r1 & Hrun & r' & Hruns);
        [unfold fits_width; cbn; lia | reflexivity | reflexivity |].
      exists r'. cbn [map run_rops run_rop reader_op expected].
      unfold Reader_ReadBit. rewrite Hrun. cbn [mbind result_mbind result_bind].
      rewrite Hruns. cbn [mbind result_mbind result_bind].
      rewrite i64_small by lia. reflexivity.
    + pose proof (pad_bounds q) as Hpad.
      pose proof (end_of_ge ops (q + pad q) Hfit) as Hge.
      cbn [stream_from end_of] in Hnext, Hend.
      destruct (IH (Reader_Align r) (q + pad q) rest Hfit
                   (Reader_Align_at r q Hat Hn1)) as (r' & Hruns).
      * cbn. lia.
      * pose proof (pow2_pos (pad q) ltac:(lia)) as Hpp.
        rewrite Z.pow_add_r, <- Z.div_div by lia. rewrite Hnext.
        replace (end_of (q + pad q) ops - q)
          with (pad q + (end_of (q + pad q) ops - (q + pad q))) by lia.
        rewrite Z.pow_add_r by lia.
        replace (2 ^ pad q * stream_from (q + pad q) ops
                 + 2 ^ pad q * 2 ^ (end_of (q + pad q) ops - (q + pad q)) * rest)
          with ((stream_from (q + pad q) ops
                 + 2 ^ (end_of (q + pad q) ops - (q + pad q)) * rest) * 2 ^ pad q)
          by ring.
        apply Z.div_mul. lia.
      * exact Hend.
      * exists r'. cbn [map run_rops run_rop reader_op expected].
        cbn [mbind result_mbind result_bind]. rewrite Hruns. reflexivity.
Qed.

End ReadingLayout.

(** X4. Bits, single bits and alignments come back.  Whatever sequence of
    [WriteBits] (each value on at most 16 bits and below 2 to the power of
    its width), [WriteBit] (any integer) and [Align] the writer makes before
    [Close], a reader that makes [ReadBits] with the same width, [ReadBit]
    and [Align] at the same places of the bytes written gets every value
    back, and the low bit of the argument of every [WriteBit], without an
    error. *)
Theorem aligned_stream_is_read_back (ops : list sop) :
  Forall sop_fits ops -> transfer ops = Ok (map expected ops).
Proof.
  intros Hfit. unfold transfer, write_ops.
  destruct (write_layout ops NewWriter 0 0 NewWriter_holds ltac:(cbn; lia) Hfit)
    as (w & es & Hrun & Hbytes & HS & HL).
  rewrite Hrun. cbn [mbind result_mbind result_bind].
  pose proof (end_of_ge ops 0 Hfit) as Hge. pose proof (pad_bounds (end_of 0 ops)).
  destruct (read_layout (written w) Hbytes ops NewReader 0 0 Hfit
              (NewReader_at (written w))) as (r & Hread).
  - cbn. lia.
  - change (2 ^ 0) with 1 in *. rewrite Z.div_1_r, HS. ring.
  - lia.
  - rewrite Hread. reflexivity.
Qed.

(** X5. The bytes written are the bits rounded up: after the same kind of
    sequence and [Close], the writer has written exactly
    (end position + 7) / 8 bytes, where a write moves the position by its
    width and an [Align] moves it to the next multiple of 8. *)
Theorem Close_rounds_up_to_bytes (ops : list sop) :
  Forall sop_fits ops ->
  exists w es,
    write_ops ops = Ok (w, es) /\
    Z.of_nat (length (written w)) = (end_of 0 ops + 7) / 8.
Proof.
  intros Hfit. unfold write_ops.
  destruct (write_layout ops NewWriter 0 0 NewWriter_holds ltac:(cbn; lia) Hfit)
    as (w & es & Hrun & _ & _ & HL).
  exists w, es. split; [exact Hrun |].
  pose proof (pad_bounds (end_of 0 ops)) as Hpad.
  apply (Z.div_unique (end_of 0 ops + 7) 8 _ (7 - pad (end_of 0 ops))); lia.
Qed.

Lemma aligned_stream_is_read_back_witness :
  transfer [SBits 5 3; SBit 7; SAlign; SBits 65535 16; SBit 2; SAlign; SAlign; SBits 1 1]
  = Ok [Some (5, None); Some (1, None); None; Some (65535, None); Some (0, None);
        None; None; Some (1, None)].
Proof.
  apply (aligned_stream_is_read_back
           [SBits 5 3; SBit 7; SAlign; SBits 65535 16; SBit 2; SAlign; SAlign; SBits 1 1]).
  repeat (constructor; [cbn; unfold fits_width; cbn; lia |]). constructor.
Defined.

Lemma Close_rounds_up_to_bytes_witness :
  exists w es,
    write_ops [SBits 5 3; SBit 7; SAlign; SBits 65535 16; SBit 2] = Ok (w, es) /\
    Z.of_nat (length (written w)) = 4.
Proof.
  apply (Close_rounds_up_to_bytes [SBits 5 3; SBit 7; SAlign; SBits 65535 16; SBit 2]).
  repeat (constructor; [cbn; unfold fits_width; cbn; lia |]). constructor.
Defined.

(** ** bit/bit.go: reading to the end of the source and past it *)

Section ReadingToTheEnd.

Variable bs : list Z.
Hypothesis bs_bytes : Forall is_byte bs.

Lemma ReadBits_loop_EOF (width : Z) (fuel : nat) :
  forall (r : Reader) (x n : Z),
  0 <= width <= 32 ->
  r_err r = None ->
  0 <= n ->
  (r_reads r <= length bs)%nat ->
  8 * Z.of_nat (length bs) < 8 * Z.of_nat (r_reads r) - n + width ->
  width - n <= 8 * Z.of_nat fuel ->
  exists r',
    ReadBits_loop (bytes_source bs) fuel r width x n = Ok (r', 0, Some EOF) /\
    r_err r' = Some EOF.
Proof.
  induction fuel as [| fuel IH]; intros r x n Hw He Hn Hk Hpast Hfuel;
    cbn [ReadBits_loop];
    rewrite (i64_small width), (i64_small n), (i64_small (width - n)) by lia;
    replace (0 <? width - n) with true by (symmetry; apply Z.ltb_lt; lia).
  - lia.
  - unfold Reader_read. rewrite He. unfold bytes_source.
    destruct (bs !! r_reads r) as [b |] eqn:Hb.
    + cbn [r_err r_reads r_bits r_nbits].
      apply lookup_lt_Some in Hb.
      apply IH; cbn [r_err r_reads]; try lia; try reflexivity.
      * rewrite u64_small by lia. lia.
      * rewrite u64_small by lia. lia.
      * rewrite u64_small by lia. lia.
    + cbn [r_err]. eexists. split; reflexivity.
Qed.

Lemma ReadBits_EOF (r : Reader) (q width : Z) :
  Reader_at bs r q -> 1 <= r_nbits r -> q <= 8 * Z.of_nat (length bs) ->
  0 <= width <= 32 ->
  8 * Z.of_nat (length bs) < q + width ->
  exists r',
    Reader_ReadBits (bytes_source bs) r width = Ok (r', 0, Some EOF) /\
    r_err r' = Some EOF.
Proof.
  intros (He & Hn & Hb & Hq0 & Hq & _) Hn1 Hin Hw Hpast.
  unfold Reader_ReadBits. rewrite He.
  rewrite (i64_small (r_nbits r)), (i64_small (8 - r_nbits r)), (i64_small width)
    by lia.
  replace (width <? 8 - r_nbits r) with false by (symmetry; apply Z.ltb_ge; lia).
  rewrite (u64_small (8 - r_nbits r)) by lia.
  apply ReadBits_loop_EOF; try lia; try assumption.
  pose proof (Z.div_mod width 8 ltac:(lia)).
  pose proof (Z.mod_pos_bound width 8 ltac:(lia)).
  assert (0 <= width / 8) by (apply Z.div_pos; lia).
  rewrite Z2Nat.id by lia. lia.
Qed.

Lemma reads_of_failed (widths : list Z) :
  reads_of bs None widths = map (failed_answer EOF) (map OpReadBits widths).
Proof.
  induction widths as [| width widths IH]; [reflexivity |].
  cbn. rewrite IH. reflexivity.
Qed.

Lemma reads_from (widths : list Z) : forall (r : Reader) (q : Z),
  Forall (fun width => 0 <= width <= 32) widths ->
  Reader_at bs r q -> 1 <= r_nbits r -> q <= 8 * Z.of_nat (length bs) ->
  exists r',
    run_rops (bytes_source bs) r (map OpReadBits widths)
    = Ok (r', reads_of bs (Some q) widths).
Proof.
  induction widths as [| width widths IH]; intros r q Hws Hat Hn1 Hin.
  - exists r. reflexivity.
  - apply Forall_cons in Hws as [Hw Hws]. cbn [map run_rops run_rop reads_of].
    destruct (q + width <=? 8 * Z.of_nat (length bs)) eqn:Hfits.
    + apply Z.leb_le in Hfits.
      destruct (ReadBits_at bs bs_bytes r q width Hat Hw Hfits) as (r1 & Hrun & Hat1).
      assert (Hn1' : 1 <= r_nbits r1).
      { eapply (ReadBits_nbits (bytes_source bs) r width r1); [| exact Hw | exact Hrun].
        destruct Hat as (_ & ? & _). lia. }
      destruct (IH r1 (q + width) Hws Hat1 Hn1' Hfits) as (r' & Hruns).
      exists r'. rewrite Hrun. cbn [mbind result_mbind result_bind].
      rewrite Hruns. reflexivity.
    + apply Z.leb_gt in Hfits.
      destruct (ReadBits_EOF r q width Hat Hn1 Hin Hw Hfits) as (r1 & Hrun & He1).
      destruct (run_rops_failed (bytes_source bs) (map OpReadBits widths) r1 EOF He1)
        as (r' & Hruns & _).
      exists r'. rewrite Hrun. cbn [mbind result_mbind result_bind].
      rewrite Hruns, reads_of_failed. reflexivity.
Qed.

(** X6. What a reader over a byte slice returns.  For any sequence of
    widths of at most 32 bits, each [ReadBits] returns the bits of the
    slice at the position reached, lowest bit first, as long as they are all
    in the slice; the first [ReadBits] that needs a bit past the end returns
    the value 0 with [io.EOF], whatever part of the value was in the slice,
    and so does every [ReadBits] after it. *)
Theorem reads_follow_the_bytes_until_EOF (widths : list Z) :
  Forall (fun width => 0 <= width <= 32) widths ->
  exists r, read_all bs widths = Ok (r, reads_of bs (Some 0) widths).
Proof.
  intros Hws. unfold read_all.
  apply reads_from; [exact Hws | apply NewReader_at | cbn; lia | lia].
Qed.

End ReadingToTheEnd.

Lemma reads_follow_the_bytes_until_EOF_witness :
  exists r,
    read_all [255; 1] [4; 8; 4; 1; 0]
    = Ok (r, [Some (15, None); Some (31, None); Some (0, None);
              Some (0, Some EOF); Some (0, Some EOF)]).
Proof.
  apply (reads_follow_the_bytes_until_EOF [255; 1]).
  - repeat (constructor; [unfold is_byte; lia |]). constructor.
  - repeat (constructor; [lia |]). constructor.
Defined.

(** ** The flattened field accessors, entry by entry *)

Lemma entry_inverted (N k : Z) (f : field) :
  0 <= k < N -> 6 * N < 2 ^ 63 ->
  go_mod (entry N k f) N = Ok k /\ go_div (entry N k f) N = Ok (field_number f).
Proof.
  intros Hk HN. unfold go_mod, go_div, entry.
  assert (HN0 : (N =? 0) = false) by (apply Z.eqb_neq; lia).
  assert (Hf : 0 <= field_number f <= 5) by (destruct f; cbn; lia).
  assert (Hnn : 0 <= k + N * field_number f) by nia.
  rewrite HN0, Z.rem_mod_nonneg, Z.quot_div_nonneg by lia.
  rewrite (Z.mul_comm N), Z.mod_add, Z.div_add by lia.
  rewrite Z.mod_small, Z.div_small by lia.
  rewrite i64_small by lia. split; reflexivity.
Qed.

(** X7. The flattened domain is read back field by field: on frames of one
    length N, with 6N an [int], at the index k + N·f of object k and field
    f (A, B, C, X, Y, Z numbered 0 to 5) [Value6] returns field f of cube k,
    [Delta6] returns for every field but A that field of historic minus
    that field of baseline, and [Extra6] returns the field of current minus
    the field of baseline, plus what [Delta6] returns, on 32 bits. *)
Theorem accessors_at_entry (hist base cur : list Cube) (k : nat) (f : field) (h b c : Cube) :
  6 * len base < 2 ^ 63 ->
  hist !! k = Some h -> base !! k = Some b -> cur !! k = Some c ->
  let i := entry (len base) (Z.of_nat k) f in
  Value6 base i = Ok (field_get f b) /\
  (f <> FA -> Delta6 hist base i = Ok (field_delta f h b)) /\
  exists d, Delta6 hist base i = Ok d /\
            Extra6 hist base cur i = Ok (i32 (i32 (field_get f c - field_get f b) + d)).
Proof.
  intros HN Hh Hb Hc i.
  assert (Hk : 0 <= Z.of_nat k < len base)
    by (apply lookup_lt_Some in Hb; unfold len; lia).
  destruct (entry_inverted (len base) (Z.of_nat k) f Hk HN) as [Hm Hd].
  pose proof (index_of_nat _ _ _ Hh) as Hih.
  pose proof (index_of_nat _ _ _ Hb) as Hib.
  pose proof (index_of_nat _ _ _ Hc) as Hic.
  split; [exact (Value6_entry base i _ f b Hm Hd Hib) |].
  split.
  - intros Hf. rewrite (Delta6_entry hist base i _ f h b Hm Hd Hih Hib).
    rewrite (Delta6_case_one_field f h b Hf). reflexivity.
  - exists (Delta6_case f h b).
    split; [exact (Delta6_entry hist base i _ f h b Hm Hd Hih Hib) |].
    rewrite (Extra6_entry hist base cur i _ f h b c Hm Hd Hih Hib Hic).
    destruct f; reflexivity.
Qed.

Lemma accessors_at_entry_witness :
  Value6 [zero_Cube; mkCube 0 0 1 2 3 4 5 6] 9 = Ok 5 /\
  (FY <> FA ->
   Delta6 [zero_Cube; mkCube 0 0 9 9 9 9 9 9] [zero_Cube; mkCube 0 0 1 2 3 4 5 6] 9
   = Ok 4) /\
  exists d,
    Delta6 [zero_Cube; mkCube 0 0 9 9 9 9 9 9] [zero_Cube; mkCube 0 0 1 2 3 4 5 6] 9
    = Ok d /\
    Extra6 [zero_Cube; mkCube 0 0 9 9 9 9 9 9] [zero_Cube; mkCube 0 0 1 2 3 4 5 6]
           [zero_Cube; mkCube 0 0 1 2 3 4 7 6] 9
    = Ok (i32 (i32 (7 - 5) + d)).
Proof.
  apply (accessors_at_entry
           [zero_Cube; mkCube 0 0 9 9 9 9 9 9] [zero_Cube; mkCube 0 0 1 2 3 4 5 6]
           [zero_Cube; mkCube 0 0 1 2 3 4 7 6] 1 FY
           (mkCube 0 0 9 9 9 9 9 9) (mkCube 0 0 1 2 3 4 5 6) (mkCube 0 0 1 2 3 4 7 6));
    [unfold len; cbn; lia | reflexivity | reflexivity | reflexivity].
Defined.

(** X8. Outside the flattened domain the three accessors panic, and how
    they do depends on the index alone: on an empty baseline with an integer
    division by zero; at an index of at least 6N or at most -N with
    "invalid"; at a negative index above -N with an index out of range. *)
Theorem accessors_outside_the_domain (hist base cur : list Cube) (i : Z) :
  - 2 ^ 63 <= i < 2 ^ 63 ->
  let N := len base in
  let all_panic (p : panic) :=
    Value6 base i = Panic p /\ Delta6 hist base i = Panic p /\
    Extra6 hist base cur i = Panic p in
  (N = 0 -> all_panic DivideByZero) /\
  (0 < N -> (6 * N <= i \/ i <= - N) -> all_panic InvalidField) /\
  (0 < N -> - N < i < 0 -> all_panic IndexOutOfRange).
Proof.
  intros Hi N all_panic.
  assert (Hlen : 0 <= N) by (unfold N, len; lia).
  split; [| split].
  - intros HN. unfold all_panic, Value6, Delta6, Extra6, go_mod. fold N.
    rewrite HN. repeat split.
  - intros HN Hout.
    assert (HN0 : (N =? 0) = false) by (apply Z.eqb_neq; lia).
    assert (Hq : exists q, go_div i N = Ok q /\ (q < 0 \/ 5 < q)).
    { unfold go_div. rewrite HN0. eexists. split; [reflexivity |].
      pose proof (Z.quot_rem' i N) as Hqr.
      assert (Hqb : - 2 ^ 63 <= Z.quot i N < 2 ^ 63).
      { destruct (Z.le_gt_cases 0 i) as [Hpos | Hneg].
        - pose proof (Z.quot_pos i N Hpos HN).
          pose proof (Z.quot_le_upper_bound i N i HN ltac:(nia)). lia.
        - pose proof (Z.quot_opp_l i N ltac:(lia)) as Hopp.
          pose proof (Z.quot_pos (- i) N ltac:(lia) HN).
          pose proof (Z.quot_le_upper_bound (- i) N (- i) HN ltac:(nia)). lia. }
      rewrite i64_small by exact Hqb.
      destruct Hout as [Hhigh | Hlow].
      - right. pose proof (Z.rem_bound_pos i N ltac:(lia) HN). nia.
      - left. pose proof (Z.quot_opp_l i N ltac:(lia)) as Hopp.
        pose proof (Z.quot_le_lower_bound (- i) N 1 HN ltac:(lia)). lia. }
    destruct Hq as (q & Hq & Hrange).
    unfold all_panic, Value6, Delta6, Extra6, go_mod. fold N. rewrite HN0, Hq.
    cbn [mbind result_mbind result_bind].
    destruct q as [| p | p]; [lia | | repeat split].
    destruct p as [[[p | p |] | [p | p |] |] | [[p | p |] | [p | p |] |] |];
      try lia; repeat split.
  - intros HN Hneg.
    assert (HN0 : (N =? 0) = false) by (apply Z.eqb_neq; lia).
    assert (Hq : Z.quot i N = 0) by (apply Z.quot_small_iff; lia).
    assert (Hr : Z.rem i N = i) by (pose proof (Z.quot_rem' i N); lia).
    assert (Hidx : forall (s : list Cube), index s i = Panic IndexOutOfRange).
    { intros s. unfold index.
      replace (i <? 0) with true by (symmetry; apply Z.ltb_lt; lia). reflexivity. }
    unfold all_panic, Value6, Delta6, Extra6, go_mod, go_div. fold N.
    rewrite HN0, Hq, Hr. cbn. rewrite !Hidx. repeat split.
Qed.

Lemma accessors_outside_the_domain_witness :
  Value6 [zero_Cube; zero_Cube] 12 = Panic InvalidField /\
  Delta6 [] [zero_Cube; zero_Cube] 12 = Panic InvalidField /\
  Extra6 [] [zero_Cube; zero_Cube] [] 12 = Panic InvalidField.
Proof.
  destruct (accessors_outside_the_domain [] [zero_Cube; zero_Cube] [] 12 ltac:(lia))
    as (_ & Hinvalid & _).
  apply Hinvalid; unfold len; cbn; lia.
Defined.

(** ** index6 and the accessors *)

Lemma mapM_app_Ok {A B} (f : A -> result B) (l1 l2 : list A) (k1 k2 : list B) :
  mapM f l1 = Ok k1 -> mapM f l2 = Ok k2 -> mapM f (l1 ++ l2) = Ok (k1 ++ k2).
Proof.
  revert k1. induction l1 as [| a l1 IH]; intros k1 H1 H2.
  - cbn in H1. injection H1 as <-. exact H2.
  - rewrite mapM_cons_result in H1. cbn [app]. rewrite mapM_cons_result.
    destruct (f a) as [b | p]; [| discriminate H1]. cbn in *.
    destruct (mapM f l1) as [bs | p]; [| discriminate H1]. cbn in *.
    injection H1 as <-. rewrite (IH bs eq_refl H2). reflexivity.
Qed.

Lemma Value6_at_entry (base : list Cube) (n : nat) (f : field) (b : Cube) :
  6 * len base < 2 ^ 63 -> base !! n = Some b ->
  Value6 base (entry (len base) (Z.of_nat n) f) = Ok (field_get f b).
Proof.
  intros HN Hb.
  assert (Hk : 0 <= Z.of_nat n < len base)
    by (apply lookup_lt_Some in Hb; unfold len; lia).
  destruct (entry_inverted (len base) (Z.of_nat n) f Hk HN) as [Hm Hd].
  exact (Value6_entry base _ _ f b Hm Hd (index_of_nat _ _ _ Hb)).
Qed.

(** The six fields of a cube in the order of the flattened domain. *)
Lemma index6_step_entries (N v : Z) :
  0 <= v < N -> 6 * N < 2 ^ 63 ->
  index6_step N v = map (entry N v) [FA; FB; FC; FX; FY; FZ].
Proof.
  intros Hv HN. unfold index6_step, entry. cbn [map field_number].
  rewrite !i64_small by lia.
  repeat f_equal; lia.
Qed.

(** X9. [index6] lists six indices for each object it is given, whatever
    the objects; for objects of the frame (with 6N an [int]) these are the
    entries of the object for A, B, C, X, Y, Z in this order, so [Value6]
    over the list reads the six fields of each object, object by object. *)
Theorem index6_lists_the_six_fields (base : list Cube) (index : list Z) (ns : list nat) :
  6 * len base < 2 ^ 63 ->
  Forall (fun n => (n < length base)%nat) ns ->
  length (index6 index (len base)) = (6 * length index)%nat /\
  mapM (Value6 base) (index6 (map Z.of_nat ns) (len base))
  = Ok (concat (map (fun n => map (fun f => field_get f (cube_at base (Z.of_nat n)))
                                  [FA; FB; FC; FX; FY; FZ]) ns)).
Proof.
  intros HN Hns. split.
  - unfold index6. induction index as [| v index IH]; [reflexivity |].
    cbn [map concat]. rewrite length_app, IH. cbn. lia.
  - unfold index6. induction Hns as [| n ns Hn _ IH]; [reflexivity |].
    cbn [map concat]. apply mapM_app_Ok; [| exact IH].
    destruct (lookup_lt_is_Some_2 base n Hn) as [b Hb].
    assert (Hk : 0 <= Z.of_nat n < len base) by (unfold len; lia).
    rewrite (index6_step_entries _ _ Hk HN), (cube_at_of_nat _ _ _ Hb).
    cbn [map]. rewrite !mapM_cons_result.
    rewrite !(Value6_at_entry base n _ b HN Hb). reflexivity.
Qed.

Lemma index6_lists_the_six_fields_witness :
  length (index6 [7; 8; 9] (len [zero_Cube; mkCube 0 0 1 2 3 4 5 6])) = 18%nat /\
  mapM (Value6 [zero_Cube; mkCube 0 0 1 2 3 4 5 6])
       (index6 [1; 0] (len [zero_Cube; mkCube 0 0 1 2 3 4 5 6]))
  = Ok [1; 2; 3; 4; 5; 6; 0; 0; 0; 0; 0; 0].
Proof.
  apply (index6_lists_the_six_fields [zero_Cube; mkCube 0 0 1 2 3 4 5 6]
           [7; 8; 9] [1%nat; 0%nat]).
  - unfold len. cbn. lia.
  - repeat (constructor; [cbn; lia |]). constructor.
Defined.

(** ** State.Encode and State.Decode: edges *)

Lemma presence_of_same (cubes : list Cube) :
  zip_with presence_bit cubes cubes = replicate (length cubes) 0.
Proof.
  induction cubes as [| cube cubes IH]; [reflexivity |].
  cbn [zip_with length replicate]. rewrite IH. unfold presence_bit.
  rewrite bool_decide_true by reflexivity. reflexivity.
Qed.

Lemma ones_from_zeros (n : nat) : forall i, ones_from i (replicate n 0) = [].
Proof. induction n as [| n IH]; intros i; [reflexivity |]. cbn. apply IH. Qed.

(** X10. A frame equal to baseline costs the presence bitmap and nothing
    else: when current holds the cubes of baseline, whatever historic holds,
    [Encode] hands the coder one 0 for each object and no other bit, and
    returns the bytes of these zeros. *)
Theorem unchanged_frame_codes_zeros (c : Coder) (s : State) :
  Cubes (Current s) = Cubes (Baseline s) ->
  Encode_passes s = Ok (replicate (length (Cubes (Baseline s))) 0, [], []) /\
  Encode c s = Ok (Bytes c (replicate (length (Cubes (Baseline s))) 0)).
Proof.
  intros Hsame.
  assert (Hpasses : Encode_passes s
                    = Ok (replicate (length (Cubes (Baseline s))) 0, [], [])).
  { unfold Encode_passes. rewrite Hsame.
    pose proof (Encode_presence_bits (Cubes (Baseline s)) 0 (Cubes (Baseline s))
                  ltac:(lia)) as Hp.
    cbn zeta in Hp. rewrite drop_0, presence_of_same, ones_from_zeros in Hp.
    change (Z.of_nat 0) with 0 in Hp. rewrite Hp. reflexivity. }
  split; [exact Hpasses |].
  unfold Encode. rewrite Hpasses. cbn. rewrite app_nil_r. reflexivity.
Qed.

Lemma unchanged_frame_codes_zeros_witness :
  Encode_passes (mkState (mkFrame []) (Baseline flags_only) (Baseline flags_only))
  = Ok ([0; 0; 0], [], []) /\
  Encode plain_coder (mkState (mkFrame []) (Baseline flags_only) (Baseline flags_only))
  = Ok [0; 0; 0].
Proof.
  apply (unchanged_frame_codes_zeros plain_coder
           (mkState (mkFrame []) (Baseline flags_only) (Baseline flags_only))).
  reflexivity.
Defined.

Lemma changed_length (current baseline : list Cube) :
  (length (changed current baseline) <= length current)%nat.
Proof.
  unfold changed.
  etransitivity; [apply length_filter |]. rewrite length_map, length_seq. lia.
Qed.

(** X11. What a snapshot costs: on frames of one length N, [Encode] hands
    the coder N presence bits, then one bit and then two bits for each
    changed object, N + 3·(changed objects) in all, however many of the
    fields A, B, C, X, Y, Z changed and by how much. *)
Theorem Encode_codes_three_bits_per_change (s : State) :
  frames_fit s ->
  exists presence interacting largest,
    Encode_passes s = Ok (presence, interacting, largest) /\
    let k := length (changed (Cubes (Current s)) (Cubes (Baseline s))) in
    length presence = length (Cubes (Baseline s)) /\
    length interacting = k /\
    length largest = (2 * k)%nat /\
    (k <= length (Cubes (Baseline s)))%nat.
Proof.
  intros Hfit. pose proof (Encode_passes_bits s Hfit) as HE. cbn zeta in HE.
  destruct Hfit as (_ & Hlen & _).
  do 3 eexists. split; [exact HE |]. cbn zeta.
  rewrite length_zip_with, length_map.
  rewrite length_concat_pairs by reflexivity.
  pose proof (changed_length (Cubes (Current s)) (Cubes (Baseline s))).
  repeat split; lia.
Qed.

Lemma Encode_codes_three_bits_per_change_witness :
  exists presence interacting largest,
    Encode_passes flags_only = Ok (presence, interacting, largest) /\
    length presence = 3%nat /\ length interacting = 2%nat /\
    length largest = 4%nat /\ (2 <= 3)%nat.
Proof.
  apply (Encode_codes_three_bits_per_change flags_only).
  unfold frames_fit, len. cbn. lia.
Defined.

Lemma Encode_presence_short (current : list Cube) : forall (i : nat) (baseline : list Cube),
  (i <= length baseline < i + length current)%nat ->
  Encode_presence (Z.of_nat i) current baseline = Panic IndexOutOfRange.
Proof.
  induction current as [| cube rest IH]; intros i baseline Hlen; cbn [length] in Hlen;
    [lia |].
  cbn [Encode_presence].
  destruct (baseline !! i) as [base |] eqn:Hb.
  - rewrite (index_of_nat _ _ _ Hb). cbn [mbind result_mbind result_bind].
    apply lookup_lt_Some in Hb.
    replace (Z.of_nat i + 1) with (Z.of_nat (S i)) by lia.
    rewrite (IH (S i) baseline) by lia. reflexivity.
  - unfold index.
    replace (Z.of_nat i <? 0) with false by (symmetry; apply Z.ltb_ge; lia).
    rewrite Nat2Z.id, Hb. reflexivity.
Qed.

(** X12. [Encode] indexes baseline by the objects of current: when
    baseline holds fewer cubes than current, [Encode] panics with an index
    out of range and returns no snapshot, even if the cubes they share are
    equal. *)
Theorem Encode_needs_baseline_of_current (c : Coder) (s : State) :
  (length (Cubes (Baseline s)) < length (Cubes (Current s)))%nat ->
  Encode_passes s = Panic IndexOutOfRange /\ Encode c s = Panic IndexOutOfRange.
Proof.
  intros Hlen.
  assert (Hpasses : Encode_passes s = Panic IndexOutOfRange).
  { unfold Encode_passes.
    pose proof (Encode_presence_short (Cubes (Current s)) 0 (Cubes (Baseline s))
                  ltac:(lia)) as Hp.
    change (Z.of_nat 0) with 0 in Hp. rewrite Hp. reflexivity. }
  split; [exact Hpasses |]. unfold Encode. rewrite Hpasses. reflexivity.
Qed.

Lemma Encode_needs_baseline_of_current_witness :
  Encode_passes (mkState (mkFrame []) (mkFrame [zero_Cube])
                         (mkFrame [zero_Cube; zero_Cube]))
  = Panic IndexOutOfRange /\
  Encode plain_coder (mkState (mkFrame []) (mkFrame [zero_Cube])
                              (mkFrame [zero_Cube; zero_Cube]))
  = Panic IndexOutOfRange.
Proof.
  apply (Encode_needs_baseline_of_current plain_coder
           (mkState (mkFrame []) (mkFrame [zero_Cube]) (mkFrame [zero_Cube; zero_Cube]))).
  cbn. lia.
Defined.

(** X13. [Decode] writes two fields and no other: for every coder, every
    receiver state and every snapshot, the state it returns has the historic
    and baseline frames untouched, and every cube of its current frame has
    the A, B, C, X, Y and Z of the cube of baseline at the same index. *)
Theorem Decode_writes_two_fields_only (c : Coder) (s : State) (snapshot : list Z) :
  exists s',
    Decode c s snapshot = Ok s' /\
    Historic s' = Historic s /\ Baseline s' = Baseline s /\
    Forall2 same_six (Cubes (Baseline s)) (Cubes (Current s')).
Proof.
  eexists. split; [apply Decode_exact |].
  split; [reflexivity |]. split; [reflexivity |].
  apply Decode_keeps_six_fields.
Qed.

(** ** BoolsStr and SameBools *)

Import Bitmaps.

Lemma BoolsStr_length (a : list bool) : length (BoolsStr a) = length a.
Proof. unfold BoolsStr. apply length_map. Qed.

Lemma BoolsStr_injective (a : list bool) : forall b, BoolsStr a = BoolsStr b -> a = b.
Proof.
  induction a as [| x a IH]; intros [| y b] H; cbn in H;
    try discriminate H; [reflexivity |].
  injection H as Hxy Hab. f_equal; [| apply IH, Hab].
  destruct x, y; try reflexivity; discriminate Hxy.
Qed.

(** X14. [SameBools] is silent exactly on equal bitmaps: it panics when the
    two bitmaps differ in length, and only then; on bitmaps of one length
    it prints nothing when they are equal, and otherwise four lines, the two
    strings of [BoolsStr] between two rules, each string as long as the
    bitmaps; and [BoolsStr] gives different strings for different bitmaps. *)
Theorem SameBools_prints_on_difference (a b : list bool) :
  (SameBools a b = DifferentLength <-> length a <> length b) /\
  (SameBools a b = Printed [] <-> a = b) /\
  (length a = length b -> a <> b ->
   SameBools a b = Printed [dashes; BoolsStr a; BoolsStr b; dashes] /\
   length (BoolsStr a) = length a /\ length (BoolsStr b) = length a /\
   BoolsStr a <> BoolsStr b).
Proof.
  unfold SameBools.
  destruct (length a =? length b)%nat eqn:Hlen; cbn [negb].
  - apply Nat.eqb_eq in Hlen.
    destruct (decide (BoolsStr a = BoolsStr b)) as [Hstr | Hstr].
    + rewrite bool_decide_true by exact Hstr.
      pose proof (BoolsStr_injective a b Hstr) as Hab.
      split; [split; [intros H; discriminate H | intros H; contradiction] |].
      split; [split; [intros _; exact Hab | reflexivity] |].
      intros _ Hne. contradiction.
    + rewrite bool_decide_false by exact Hstr.
      split; [split; [intros H; discriminate H | intros H; contradiction] |].
      split; [split; [intros H; discriminate H | intros ->; contradiction] |].
      intros _ _. rewrite !BoolsStr_length. auto.
  - apply Nat.eqb_neq in Hlen.
    split; [split; [intros _; exact Hlen | reflexivity] |].
    split; [split; [intros H; discriminate H | intros ->; contradiction] |].
    intros H. contradiction.
Qed.

(** ** Deltas.Equals *)

Import MainMore.

Lemma Equals_from_decides (a : Deltas) : forall before b : Deltas,
  length a = length b ->
  Equals_from (Z.of_nat (length before)) a (before ++ b) = Ok (bool_decide (a = b)).
Proof.
  induction a as [| ax a IH]; intros before b Hlen.
  - destruct b; [| discriminate Hlen]. reflexivity.
  - destruct b as [| bx b]; [discriminate Hlen |]. injection Hlen as Hlen.
    cbn [Equals_from].
    rewrite (index_of_nat (before ++ bx :: b) (length before) bx)
      by (rewrite lookup_app_r, Nat.sub_diag by lia; reflexivity).
    cbn [mbind result_mbind result_bind].
    destruct (decide (ax = bx)) as [-> | Hne].
    + rewrite bool_decide_eq_false_2 by (intros H; apply H; reflexivity).
      replace (Z.of_nat (length before) + 1) with (Z.of_nat (length (before ++ [bx])))
        by (rewrite length_app; cbn; lia).
      replace (before ++ bx :: b) with ((before ++ [bx]) ++ b)
        by (rewrite <- app_assoc; reflexivity).
      rewrite (IH (before ++ [bx]) b Hlen). f_equal.
      apply bool_decide_ext. split; [intros ->; reflexivity | intros H; injection H; auto].
    + rewrite bool_decide_eq_true_2 by exact Hne.
      rewrite bool_decide_eq_false_2; [reflexivity |].
      intros H. injection H as H _. contradiction.
Qed.

(** X15. [Equals] never indexes [b] out of range, and it answers true
    exactly when the two frames have the same length and the same eight
    fields in every object. *)
Theorem Equals_decides_equality (a b : Deltas) :
  Equals a b = Ok (bool_decide (a = b)).
Proof.
  unfold Equals. destruct (length a =? length b)%nat eqn:Hlen; cbn [negb].
  - apply Nat.eqb_eq in Hlen. exact (Equals_from_decides a [] b Hlen).
  - apply Nat.eqb_neq in Hlen.
    rewrite bool_decide_eq_false_2; [reflexivity |]. intros ->. apply Hlen. reflexivity.
Qed.

(** ** NewOrdering *)

Lemma table_entries (n off : Z) (g : Z -> Z) :
  0 <= n ->
  (forall q, 0 <= q < 3 -> g q = q + off) ->
  let table := map (fun i => mkIndexValue (Z.rem i n) (g (Z.quot i n))) (seqZ 0 (n * 3)) in
  NoDup table /\
  forall iv, iv ∈ table <-> 0 <= Index iv < n /\ off <= Value iv < off + 3.
Proof.
  intros Hn Hg table.
  assert (Hparts : forall i, 0 <= i < n * 3 ->
            Z.rem i n = i mod n /\ Z.quot i n = i / n /\
            0 <= i mod n < n /\ 0 <= i / n < 3).
  { intros i Hi. assert (0 < n) by lia.
    rewrite Z.rem_mod_nonneg, Z.quot_div_nonneg by lia.
    split; [reflexivity |]. split; [reflexivity |].
    split; [apply Z.mod_pos_bound; lia |].
    split; [apply Z.div_pos; lia | apply Z.div_lt_upper_bound; lia]. }
  split.
  - apply NoDup_fmap_2_strong; [| apply NoDup_seqZ].
    intros i j Hi Hj Heq.
    apply elem_of_seqZ in Hi, Hj.
    destruct (Hparts i ltac:(lia)) as (Hri & Hqi & Hmi & Hdi).
    destruct (Hparts j ltac:(lia)) as (Hrj & Hqj & Hmj & Hdj).
    injection Heq as Hr Hq.
    rewrite Hri, Hrj in Hr. rewrite Hqi, Hqj, !Hg in Hq by lia.
    assert (0 < n) by lia.
    rewrite (Z.div_mod i n), (Z.div_mod j n) by lia.
    rewrite Hr. replace (i / n) with (j / n) by lia. reflexivity.
  - intros [k v]. cbn [Index Value]. unfold table. rewrite list_elem_of_fmap. split.
    + intros (i & Heq & Hi). apply elem_of_seqZ in Hi.
      destruct (Hparts i ltac:(lia)) as (Hri & Hqi & Hmi & Hdi).
      injection Heq as -> ->. rewrite Hri, Hqi, Hg by lia. lia.
    + intros [Hk Hv]. exists ((v - off) * n + k). split.
      * assert (Hq : ((v - off) * n + k) / n = v - off)
          by (symmetry; apply (Z.div_unique _ n (v - off) k); lia).
        assert (Hr : ((v - off) * n + k) mod n = k)
          by (symmetry; apply (Z.mod_unique _ n (v - off) k); lia).
        rewrite Z.rem_mod_nonneg, Z.quot_div_nonneg by nia.
        rewrite Hq, Hr, Hg by lia. f_equal. lia.
      * apply elem_of_seqZ. nia.
Qed.

(** X16. The tables of a new ordering for a frame of [n] objects: in ABC
    every pair of an object below [n] and of a field number 0, 1 or 2 occurs
    once and nothing else does; in XYZ the same with the field numbers 3, 4
    and 5; both have [3 * n] entries, and no byte conversion wraps. *)
Theorem NewOrdering_lists_every_pair_once (deltas : Deltas) :
  let n := Z.of_nat (length deltas) in
  let order := NewOrdering deltas in
  NoDup (ABC order) /\
  (forall iv, iv ∈ ABC order <-> 0 <= Index iv < n /\ 0 <= Value iv < 3) /\
  NoDup (XYZ order) /\
  (forall iv, iv ∈ XYZ order <-> 0 <= Index iv < n /\ 3 <= Value iv < 6) /\
  length (ABC order) = (3 * length deltas)%nat /\
  length (XYZ order) = (3 * length deltas)%nat.
Proof.
  intros n order.
  destruct (table_entries n 0 byte_of ltac:(lia)) as [Hnd1 Hin1].
  { intros q Hq. unfold byte_of. rewrite Z.mod_small by lia. lia. }
  destruct (table_entries n 3 (fun q => byte_of (q + 3)) ltac:(lia)) as [Hnd2 Hin2].
  { intros q Hq. unfold byte_of. rewrite Z.mod_small by lia. lia. }
  split; [exact Hnd1 |]. split; [exact Hin1 |].
  split; [exact Hnd2 |]. split; [exact Hin2 |].
  unfold order, NewOrdering. cbn [ABC XYZ].
  rewrite !length_map, !length_seqZ. fold n. lia.
Qed.

(** ** Ordering.Improve, tick after tick *)

Section AnyOrder.

Context {A : Type} (less : A -> A -> bool).

Lemma gap6_pass_permutes (turns : nat) : forall (i : nat) (l : list A),
  Sort.gap6_pass less turns i l ≡ₚ l.
Proof.
  induction turns as [| turns IH]; intros i l; [reflexivity |].
  cbn [Sort.gap6_pass]. rewrite IH.
  destruct (l !! i) as [x |] eqn:Hx; [| reflexivity].
  destruct (l !! (i - 6)%nat) as [y |] eqn:Hy; [| reflexivity].
  destruct (less x y); [| reflexivity].
  apply Permutation_insert_swap; assumption.
Qed.

Lemma move_left_permutes (x : A) (before : list A) :
  Sort.move_left less x before ≡ₚ x :: before.
Proof.
  induction before as [| y before IH]; [reflexivity |].
  cbn [Sort.move_left]. destruct (less x y); [| reflexivity].
  rewrite IH. apply Permutation_swap.
Qed.

Lemma insertion_loop_permutes (l : list A) : forall before : list A,
  foldl (fun before x => Sort.move_left less x before) before l ≡ₚ reverse l ++ before.
Proof.
  induction l as [| x l IH]; intros before; [reflexivity |].
  cbn [foldl]. rewrite IH, move_left_permutes, reverse_cons, <- app_assoc.
  reflexivity.
Qed.

End AnyOrder.

Lemma short_sort_permutes : SortMore.permutes Sort.short_sort.
Proof.
  intros A less l. unfold Sort.short_sort, Sort.insertionSort.
  rewrite reverse_Permutation, insertion_loop_permutes, app_nil_r, reverse_Permutation.
  apply gap6_pass_permutes.
Qed.

Section ImproveTicks.

Variable sort_Sort : Sort.sorter.
Variable byDelta_Less : Deltas -> Deltas -> IndexValue -> IndexValue -> bool.

Lemma seqZ_in_range (deltas baseline : Deltas) (order : list Z) :
  (length deltas <= length baseline)%nat ->
  order ≡ₚ seqZ 0 (Z.of_nat (length deltas)) ->
  Forall (fun i => in_range baseline i = true) order.
Proof.
  intros Hlen Hp. rewrite Hp. apply Forall_forall. intros i Hi.
  apply elem_of_seqZ in Hi. unfold in_range.
  apply andb_true_iff. split; [apply Z.leb_le | apply Z.ltb_lt]; lia.
Qed.

Lemma Improve_same_tables (deltas : Deltas) (order : Ordering) (historic baseline : Deltas) :
  SortMore.permutes sort_Sort ->
  (length deltas <= length baseline)%nat ->
  same_tables order (NewOrdering deltas) ->
  exists order',
    Improve sort_Sort byDelta_Less order historic baseline = Ok order' /\
    same_tables order' (NewOrdering deltas).
Proof.
  intros Hperm Hlen (HL & HI & Habc & Hxyz). unfold Improve. cbn [dontsort negb].
  rewrite (sort_byGetter_in_range sort_Sort (Largest order) baseline getLargest)
    by exact (seqZ_in_range deltas baseline _ Hlen HL).
  cbn [mbind result_mbind result_bind].
  rewrite (sort_byGetter_in_range sort_Sort (Interacting order) baseline getInteracting)
    by exact (seqZ_in_range deltas baseline _ Hlen HI).
  cbn [mbind result_mbind result_bind].
  eexists. split; [reflexivity |].
  unfold same_tables. cbn [Largest Interacting ABC XYZ].
  repeat split; (etrans; [apply Hperm | assumption]).
Qed.

(** X17. With a [sort.Sort] that only permutes, [Improve] can be applied
    tick after tick to a new ordering, whatever the frames hold, as long as
    every baseline has at least the objects the ordering was made for: no
    application indexes out of range, and after each one the four tables
    are permutations of the tables of the new ordering.  The order of
    [byDelta], declared outside the file, is any comparison of two
    entries. *)
Theorem Improve_keeps_the_tables (deltas : Deltas) (ticks : list (Deltas * Deltas)) :
  SortMore.permutes sort_Sort ->
  Forall (fun tick => (length deltas <= length (snd tick))%nat) ticks ->
  exists orders,
    Improve_each sort_Sort byDelta_Less (NewOrdering deltas) ticks = Ok orders /\
    length orders = length ticks /\
    Forall (fun order => same_tables order (NewOrdering deltas)) orders.
Proof.
  intros Hperm Hticks.
  assert (Hstart : same_tables (NewOrdering deltas) (NewOrdering deltas))
    by (repeat split; reflexivity).
  revert Hstart. generalize (NewOrdering deltas) at 1 3 as order.
  induction Hticks as [| [historic baseline] ticks Hlen _ IH]; intros order Horder.
  - exists []. repeat split. constructor.
  - cbn [Improve_each snd] in *.
    destruct (Improve_same_tables deltas order historic baseline Hperm Hlen Horder)
      as (order1 & Hrun & Hsame).
    rewrite Hrun. cbn [mbind result_mbind result_bind].
    destruct (IH order1 Hsame) as (orders & Heach & Hlength & Hall).
    rewrite Heach. cbn [mbind result_mbind result_bind].
    exists (order1 :: orders). split; [reflexivity |].
    split; [cbn; rewrite Hlength; reflexivity |].
    constructor; assumption.
Qed.

End ImproveTicks.

Lemma Improve_keeps_the_tables_witness :
  exists orders,
    Improve_each Sort.short_sort (fun _ _ _ _ => false) (NewOrdering seven)
                 [(seven, seven); (seven, replicate 8 zero_Delta)] = Ok orders /\
    length orders = 2%nat /\
    Forall (fun order => same_tables order (NewOrdering seven)) orders.
Proof.
  apply (Improve_keeps_the_tables Sort.short_sort (fun _ _ _ _ => false) seven
           [(seven, seven); (seven, replicate 8 zero_Delta)] short_sort_permutes).
  repeat constructor; cbn; lia.
Defined.

(** ** improveApprox *)

Import Approx.

Section ApproxPass.

Variable deltas : Deltas.
Variable get : Delta -> Z.

Local Abbreviation key := (byGetter_key deltas get).

Lemma index_at_index (i : Z) :
  in_range deltas i = true -> Physics.index deltas i = Ok (at_index deltas i).
Proof.
  unfold in_range, Physics.index, at_index. intros Hi.
  apply andb_true_iff in Hi as [Hlo Hhi].
  apply Z.leb_le in Hlo. apply Z.ltb_lt in Hhi.
  destruct (i <? 0) eqn:Hneg; [apply Z.ltb_lt in Hneg; lia |].
  destruct (lookup_lt_is_Some_2 deltas (Z.to_nat i) ltac:(lia)) as [d Hd].
  unfold Deltas in *. rewrite !Hd. reflexivity.
Qed.

Lemma swap_neighbours (done rest : list Z) (x y : Z) :
  <[S (length done) := x]> (<[(S (length done) - 1)%nat := y]> (done ++ x :: y :: rest))
  = (done ++ [y]) ++ x :: rest.
Proof.
  replace (S (length done) - 1)%nat with (length done + 0)%nat by lia.
  rewrite insert_app_r. cbn [insert list_insert].
  replace (S (length done)) with (length done + 1)%nat by lia.
  rewrite insert_app_r. cbn [insert list_insert].
  rewrite <- app_assoc. reflexivity.
Qed.

Lemma approx_pass_carries (rest : list Z) : forall (done : list Z) (x : Z) (swapped : bool),
  Forall (fun i => in_range deltas i = true) (x :: rest) ->
  approx_pass deltas get (length rest) (S (length done)) (done ++ x :: rest) (key x) swapped
  = Ok (done ++ carry key x rest, swapped || carry_swaps key x rest).
Proof.
  induction rest as [| y rest IH]; intros done x swapped Hin.
  - cbn. rewrite orb_false_r. reflexivity.
  - cbn [length approx_pass carry carry_swaps].
    rewrite (index_of_nat (done ++ x :: y :: rest) (S (length done)) y).
    2:{ rewrite lookup_app_r by lia.
        replace (S (length done) - length done)%nat with 1%nat by lia. reflexivity. }
    cbn [mbind result_mbind result_bind].
    inversion Hin as [| ? ? Hx Hrest]; subst.
    inversion Hrest as [| ? ? Hy Hrest']; subst.
    rewrite (index_at_index y Hy). cbn [mbind result_mbind result_bind].
    change (get (at_index deltas y)) with (key y).
    destruct (key y <? key x) eqn:Hlt.
    + replace (Z.of_nat (S (length done)) - 1) with (Z.of_nat (length done)) by lia.
      rewrite (index_of_nat (done ++ x :: y :: rest) (length done) x).
      2:{ rewrite lookup_app_r, Nat.sub_diag by lia. reflexivity. }
      cbn [mbind result_mbind result_bind].
      rewrite swap_neighbours.
      replace (S (S (length done))) with (S (length (done ++ [y])))
        by (rewrite length_app; cbn; lia).
      rewrite IH by (constructor; assumption).
      rewrite <- app_assoc, orb_true_r. reflexivity.
    + replace (done ++ x :: y :: rest) with ((done ++ [x]) ++ y :: rest)
        by (rewrite <- app_assoc; reflexivity).
      replace (S (S (length done))) with (S (length (done ++ [x])))
        by (rewrite length_app; cbn; lia).
      rewrite IH by assumption.
      rewrite <- app_assoc. reflexivity.
Qed.

Lemma approx_pass_as_carry_pass (order : list Z) :
  keys_are_int32 deltas get ->
  Forall (fun i => in_range deltas i = true) order ->
  approx_pass deltas get (length order) 0 order min_int32 false
  = Ok (carry_pass key order).
Proof.
  intros Hkeys Hin. destruct order as [| x rest]; [reflexivity |].
  cbn [length approx_pass carry_pass].
  rewrite (index_of_nat (x :: rest) 0 x) by reflexivity.
  cbn [mbind result_mbind result_bind].
  inversion Hin as [| ? ? Hx Hrest]; subst.
  rewrite (index_at_index x Hx). cbn [mbind result_mbind result_bind].
  assert (Hmin : (get (at_index deltas x) <? min_int32) = false).
  { apply Z.ltb_ge. unfold keys_are_int32 in Hkeys. rewrite Forall_forall in Hkeys.
    apply Hkeys. unfold at_index, in_range in *.
    apply andb_true_iff in Hx as [Hlo Hhi].
    apply Z.leb_le in Hlo. apply Z.ltb_lt in Hhi.
    destruct (deltas !! Z.to_nat x) as [d |] eqn:Hd.
    - cbn. eapply list_elem_of_lookup_2. exact Hd.
    - apply lookup_ge_None in Hd. lia. }
  rewrite Hmin.
  exact (approx_pass_carries rest [] x false Hin).
Qed.

Lemma carry_Permutation (l : list Z) : forall x, carry key x l ≡ₚ x :: l.
Proof.
  induction l as [| y l IH]; intros x; [reflexivity |].
  cbn [carry]. destruct (key y <? key x).
  - rewrite IH. apply Permutation_swap.
  - rewrite IH. reflexivity.
Qed.

Lemma carry_pass_Permutation (l : list Z) : (carry_pass key l).1 ≡ₚ l.
Proof. destruct l as [| x l]; [reflexivity | apply carry_Permutation]. Qed.

Lemma approx_steps_as_carry_steps (steps : nat) : forall order : list Z,
  keys_are_int32 deltas get ->
  Forall (fun i => in_range deltas i = true) order ->
  approx_steps deltas get steps order = Ok (carry_steps key steps order).
Proof.
  induction steps as [| steps IH]; intros order Hkeys Hin; [reflexivity |].
  cbn [approx_steps carry_steps].
  rewrite (approx_pass_as_carry_pass order Hkeys Hin).
  cbn [mbind result_mbind result_bind].
  pose proof (carry_pass_Permutation order) as Hp.
  destruct (carry_pass key order) as [order1 swapped]. cbn [fst] in Hp.
  destruct swapped; cbn [negb]; [| reflexivity].
  apply IH; [exact Hkeys |]. rewrite Hp. exact Hin.
Qed.

Lemma carry_steps_Permutation (steps : nat) : forall l : list Z,
  carry_steps key steps l ≡ₚ l.
Proof.
  induction steps as [| steps IH]; intros l; [reflexivity |].
  cbn [carry_steps].
  pose proof (carry_pass_Permutation l) as Hp.
  destruct (carry_pass key l) as [l1 swapped]. cbn [fst] in Hp.
  destruct swapped; cbn [negb]; [rewrite IH |]; exact Hp.
Qed.

(** A pass swaps an entry only with one of a strictly smaller key. *)
Lemma carry_keeps_ties (v : Z) (l : list Z) : forall x,
  filter (fun a => key a = v) (carry key x l) = filter (fun a => key a = v) (x :: l).
Proof.
  induction l as [| y l IH]; intros x; [reflexivity |].
  cbn [carry]. destruct (key y <? key x) eqn:Hlt.
  - apply Z.ltb_lt in Hlt.
    rewrite (filter_cons _ y (carry key x l)), IH.
    rewrite (filter_cons _ x (y :: l)), (filter_cons _ y l), (filter_cons _ x l).
    destruct (decide (key y = v)), (decide (key x = v)); try reflexivity. lia.
  - rewrite (filter_cons _ x (carry key y l)), IH.
    rewrite (filter_cons _ x (y :: l)). reflexivity.
Qed.

Lemma carry_steps_keeps_ties (steps : nat) : forall l : list Z,
  Sort.keeps_ties key l (carry_steps key steps l).
Proof.
  induction steps as [| steps IH]; intros l v; [reflexivity |].
  cbn [carry_steps].
  assert (Hpass : filter (fun a => key a = v) (carry_pass key l).1
                  = filter (fun a => key a = v) l)
    by (destruct l as [| x l]; [reflexivity | apply carry_keeps_ties]).
  destruct (carry_pass key l) as [l1 swapped]. cbn [fst] in Hpass.
  destruct swapped; cbn [negb]; [rewrite (IH l1 v) |]; exact Hpass.
Qed.

(** X18. On a table of indices of the frame, [improveApprox] returns
    without indexing out of range (not even at [order[i-1]] in the first
    turn of a pass); the table it leaves is a permutation of the one it
    found, and entries with equal attributes keep their relative order. *)
Theorem improveApprox_is_a_stable_permutation (order : list Z) :
  keys_are_int32 deltas get ->
  Forall (fun i => in_range deltas i = true) order ->
  exists order',
    improveApprox order deltas get = Ok order' /\
    order' ≡ₚ order /\
    Sort.keeps_ties (byGetter_key deltas get) order order'.
Proof.
  intros Hkeys Hin. exists (carry_steps key max_steps order).
  split; [exact (approx_steps_as_carry_steps max_steps order Hkeys Hin) |].
  split; [apply carry_steps_Permutation | apply carry_steps_keeps_ties].
Qed.

Lemma carry_no_swaps (l : list Z) : forall x,
  carry_swaps key x l = false <-> ascending key (x :: l).
Proof.
  unfold ascending.
  induction l as [| y l IH]; intros x.
  - cbn. split; [repeat constructor | reflexivity].
  - cbn [carry_swaps]. destruct (key y <? key x) eqn:Hlt.
    + apply Z.ltb_lt in Hlt. split; [discriminate |].
      intros Hs. inversion Hs as [| ? ? _ Hall]; subst.
      inversion Hall; subst. lia.
    + apply Z.ltb_ge in Hlt. rewrite IH. split.
      * intros Hs. constructor; [exact Hs |].
        inversion Hs as [| ? ? _ Hall]; subst.
        constructor; [exact Hlt |].
        eapply Forall_impl; [exact Hall |]. cbn. intros z Hz. lia.
      * intros Hs. inversion Hs; subst. assumption.
Qed.

Lemma carry_ascending (l : list Z) : forall x,
  ascending key (x :: l) -> carry key x l = x :: l.
Proof.
  induction l as [| y l IH]; intros x Hs; [reflexivity |].
  cbn [carry]. inversion Hs as [| ? ? Hs' Hall]; subst.
  inversion Hall as [| ? ? Hxy _]; subst.
  destruct (key y <? key x) eqn:Hlt; [apply Z.ltb_lt in Hlt; lia |].
  rewrite (IH y Hs'). reflexivity.
Qed.

Lemma carry_pass_ascending (l : list Z) :
  (carry_pass key l).2 = false <-> ascending key l.
Proof.
  destruct l as [| x l]; [split; [constructor | reflexivity] |].
  apply carry_no_swaps.
Qed.

Lemma carry_pass_fixes_ascending (l : list Z) :
  ascending key l -> carry_pass key l = (l, false).
Proof.
  intros Hs. destruct l as [| x l]; [reflexivity |]. cbn [carry_pass].
  rewrite (carry_ascending l x Hs).
  apply carry_no_swaps in Hs. rewrite Hs. reflexivity.
Qed.

(** X19. A table that is in ascending order of the attribute already is
    returned by [improveApprox] as it is, and one pass is enough for that:
    with a limit of one step the result is the same. *)
Theorem improveApprox_leaves_sorted_tables (order : list Z) :
  keys_are_int32 deltas get ->
  Forall (fun i => in_range deltas i = true) order ->
  ascending (byGetter_key deltas get) order ->
  improveApprox order deltas get = Ok order /\
  approx_steps deltas get 1 order = Ok order.
Proof.
  intros Hkeys Hin Hs. unfold improveApprox.
  rewrite !(approx_steps_as_carry_steps _ order Hkeys Hin).
  unfold max_steps. cbn [carry_steps].
  rewrite (carry_pass_fixes_ascending order Hs). cbn [negb].
  split; reflexivity.
Qed.

End ApproxPass.

Lemma improveApprox_is_a_stable_permutation_witness :
  exists order',
    improveApprox [0; 1; 2; 3; 4; 5; 6] seven getLargest = Ok order' /\
    order' ≡ₚ [0; 1; 2; 3; 4; 5; 6] /\
    Sort.keeps_ties (byGetter_key seven getLargest) [0; 1; 2; 3; 4; 5; 6] order'.
Proof.
  apply (improveApprox_is_a_stable_permutation seven getLargest [0; 1; 2; 3; 4; 5; 6]).
  - unfold keys_are_int32, seven, min_int32. cbn. repeat constructor; cbn; lia.
  - repeat constructor.
Defined.

Lemma improveApprox_leaves_sorted_tables_witness :
  improveApprox [6; 0; 1; 2; 3; 4; 5] seven getLargest = Ok [6; 0; 1; 2; 3; 4; 5] /\
  approx_steps seven getLargest 1 [6; 0; 1; 2; 3; 4; 5] = Ok [6; 0; 1; 2; 3; 4; 5].
Proof.
  apply (improveApprox_leaves_sorted_tables seven getLargest [6; 0; 1; 2; 3; 4; 5]).
  - unfold keys_are_int32, seven, min_int32. cbn. repeat constructor; cbn; lia.
  - repeat constructor.
  - unfold ascending. repeat constructor; vm_compute; intros H; discriminate H.
Defined.

Section ApproxSettles.

Variable deltas : Deltas.
Variable get : Delta -> Z.

Local Abbreviation key := (byGetter_key deltas get).

Lemma carry_snoc (l : list Z) : forall x,
  exists init m,
    carry key x l = init ++ [m] /\
    Forall (fun a => key a <= key m) init /\ key x <= key m.
Proof.
  induction l as [| y l IH]; intros x.
  - exists [], x. cbn. split; [reflexivity |]. split; [constructor | lia].
  - cbn [carry]. destruct (key y <? key x) eqn:Hlt.
    + apply Z.ltb_lt in Hlt. destruct (IH x) as (init & m & -> & Hinit & Hx).
      exists (y :: init), m. split; [reflexivity |].
      split; [constructor; [lia | exact Hinit] | exact Hx].
    + apply Z.ltb_ge in Hlt. destruct (IH y) as (init & m & -> & Hinit & Hy).
      exists (x :: init), m. split; [reflexivity |].
      split; [constructor; [lia | exact Hinit] | lia].
Qed.

Lemma carry_not_nil (l : list Z) (x : Z) : carry key x l <> [].
Proof. destruct l as [| y l]; cbn; [| destruct (key y <? key x)]; discriminate. Qed.

Lemma carry_app (l1 l2 : list Z) : forall x init m,
  carry key x l1 = init ++ [m] ->
  carry key x (l1 ++ l2) = init ++ carry key m l2.
Proof.
  induction l1 as [| y l1 IH]; intros x init m Hc.
  - cbn in Hc. destruct init as [| a init].
    + injection Hc as ->. reflexivity.
    + injection Hc as _ Hc. destruct init; discriminate Hc.
  - cbn [carry app] in *. destruct (key y <? key x).
    + destruct init as [| a init].
      * injection Hc as _ Hc. destruct (carry_not_nil l1 x Hc).
      * injection Hc as <- Hc. rewrite (IH x init m Hc). reflexivity.
    + destruct init as [| a init].
      * injection Hc as _ Hc. destruct (carry_not_nil l1 y Hc).
      * injection Hc as <- Hc. rewrite (IH y init m Hc). reflexivity.
Qed.

Lemma ascending_settled (k : nat) (l : list Z) : ascending key l -> settled key k l.
Proof.
  intros Hs. exists (take (length l - k) l), (drop (length l - k) l).
  split; [symmetry; apply take_drop |].
  split; [rewrite length_drop; lia |].
  unfold ascending in *. rewrite <- (take_drop (length l - k) l) in Hs.
  apply StronglySorted_app in Hs as (Hcross & _ & Hback).
  split; [exact Hback |].
  apply Forall_forall. intros a Ha. apply Forall_forall. intros b Hb.
  exact (Hcross a b Ha Hb).
Qed.

Lemma carry_pass_settles (k : nat) (l : list Z) :
  settled key k l -> settled key (S k) (carry_pass key l).1.
Proof.
  intros (front & back & -> & Hlen & Hs & Hdom).
  destruct front as [| x front].
  - cbn [app] in *. rewrite (carry_pass_fixes_ascending deltas get back Hs). cbn [fst].
    exists [], back. split; [reflexivity |]. split; [lia |].
    split; [exact Hs | constructor].
  - cbn [app carry_pass fst].
    destruct (carry_snoc front x) as (init & m & Hc & Hinit & Hxm).
    rewrite (carry_app front back x init m Hc).
    assert (Hp : init ++ [m] ≡ₚ x :: front)
      by (rewrite <- Hc; apply (carry_Permutation deltas get)).
    assert (Hm : Forall (fun b => key m <= key b) back).
    { rewrite Forall_forall in Hdom. apply Hdom. rewrite <- Hp.
      apply elem_of_app. right. apply list_elem_of_singleton. reflexivity. }
    assert (Hsm : ascending key (m :: back)) by (constructor; assumption).
    rewrite (carry_ascending deltas get back m Hsm).
    exists init, (m :: back). split; [reflexivity |].
    apply Permutation_length in Hp. rewrite length_app in Hp.
    rewrite !length_app in *. cbn [length] in *.
    split; [lia |]. split; [exact Hsm |].
    apply Forall_forall. intros a Ha. constructor.
    + rewrite Forall_forall in Hinit. exact (Hinit a Ha).
    + rewrite Forall_forall in Hdom. apply Hdom.
      assert (Hp' : init ++ [m] ≡ₚ x :: front)
        by (rewrite <- Hc; apply (carry_Permutation deltas get)).
      rewrite <- Hp'. apply elem_of_app. left. exact Ha.
Qed.

Lemma carry_steps_settles (steps : nat) : forall (k : nat) (l : list Z),
  settled key k l -> settled key (k + steps) (carry_steps key steps l).
Proof.
  induction steps as [| steps IH]; intros k l Hk.
  - rewrite Nat.add_0_r. exact Hk.
  - cbn [carry_steps].
    pose proof (carry_pass_settles k l Hk) as Hpass.
    pose proof (carry_pass_ascending deltas get l) as Hasc.
    pose proof (carry_pass_fixes_ascending deltas get l) as Hfix.
    destruct (carry_pass key l) as [l1 swapped]. cbn [fst snd] in *.
    destruct swapped; cbn [negb].
    + rewrite Nat.add_succ_r. exact (IH (S k) l1 Hpass).
    + assert (Hl : ascending key l) by (apply Hasc; reflexivity).
      specialize (Hfix Hl). injection Hfix as ->.
      apply ascending_settled, Hl.
Qed.

(** X20. Each pass of [improveApprox] carries the largest attribute still
    out of place to its position: in the table it returns, the last ten
    entries (all of them, if there are fewer) are in ascending order and no
    entry before them has a larger attribute.  A table of at most eleven
    entries is returned in ascending order. *)
Theorem improveApprox_settles_ten_entries (order : list Z) :
  keys_are_int32 deltas get ->
  Forall (fun i => in_range deltas i = true) order ->
  exists order',
    improveApprox order deltas get = Ok order' /\
    settled (byGetter_key deltas get) 10 order' /\
    ((length order <= 11)%nat -> ascending (byGetter_key deltas get) order').
Proof.
  intros Hkeys Hin. exists (carry_steps key max_steps order).
  split; [exact (approx_steps_as_carry_steps deltas get max_steps order Hkeys Hin) |].
  assert (Hstart : settled key 0 order).
  { exists order, []. rewrite app_nil_r. split; [reflexivity |].
    split; [reflexivity |]. split; [constructor |].
    apply Forall_forall. intros a _. constructor. }
  pose proof (carry_steps_settles max_steps 0 order Hstart) as Hend.
  cbn [Nat.add] in Hend. unfold max_steps in *.
  split; [exact Hend |].
  intros Hlen.
  pose proof (carry_steps_Permutation deltas get 10 order) as Hp.
  apply Permutation_length in Hp.
  destruct Hend as (front & back & Heq & Hback & Hs & Hdom).
  rewrite Heq in *. rewrite length_app in *.
  destruct front as [| a front]; [exact Hs |].
  destruct front as [| a' front]; [| cbn [length] in *; lia].
  cbn [app]. inversion Hdom; subst. constructor; assumption.
Qed.

End ApproxSettles.

Lemma improveApprox_settles_ten_entries_witness :
  exists order',
    improveApprox [0; 1; 2; 3; 4; 5; 6] seven getLargest = Ok order' /\
    settled (byGetter_key seven getLargest) 10 order' /\
    ((length [0; 1; 2; 3; 4; 5; 6] <= 11)%nat ->
     ascending (byGetter_key seven getLargest) order').
Proof.
  apply (improveApprox_settles_ten_entries seven getLargest [0; 1; 2; 3; 4; 5; 6]).
  - unfold keys_are_int32, seven, min_int32. cbn. repeat constructor; cbn; lia.
  - repeat constructor.
Defined.

(** ** Delta.WriteTo, Delta.ReadFrom and ReadDelta *)

Import Wire.

Lemma Uint32_PutUint32 (v : Z) :
  Physics.int32_range v -> i32 (Uint32 (PutUint32 v)) = v.
Proof.
  unfold Physics.int32_range, PutUint32, Uint32, byte_of. intros Hv.
  change (2 ^ 31) with 2147483648 in Hv. change (2 ^ 32) with 4294967296.
  set (u := v mod 4294967296).
  assert (Hu : 0 <= u < 4294967296) by (apply Z.mod_pos_bound; lia).
  rewrite !Z.shiftr_div_pow2 by lia.
  change (2 ^ 8) with 256. change (2 ^ 16) with 65536. change (2 ^ 24) with 16777216.
  pose proof (Z.mod_pos_bound u 256 ltac:(lia)) as H0.
  pose proof (Z.mod_pos_bound (u / 256) 256 ltac:(lia)) as H1.
  pose proof (Z.mod_pos_bound (u / 65536) 256 ltac:(lia)) as H2.
  pose proof (Z.mod_pos_bound (u / 16777216) 256 ltac:(lia)) as H3.
  rewrite (lor_above (u mod 256) ((u / 256) mod 256) 8);
    [| lia | change (2 ^ 8) with 256; lia | lia].
  rewrite (lor_above _ ((u / 65536) mod 256) 16);
    [| lia | change (2 ^ 8) with 256; change (2 ^ 16) with 65536; lia | lia].
  rewrite (lor_above _ ((u / 16777216) mod 256) 24);
    [| lia
     | change (2 ^ 8) with 256; change (2 ^ 16) with 65536;
       change (2 ^ 24) with 16777216; lia
     | lia].
  change (2 ^ 8) with 256. change (2 ^ 16) with 65536. change (2 ^ 24) with 16777216.
  unfold i32. change (2 ^ 31) with 2147483648. change (2 ^ 32) with 4294967296.
  clear H0 H1 H2 H3. subst u. Z.div_mod_to_equations. lia.
Qed.

Lemma binary_Read_PutUint32 (v : Z) (rest : list Z) :
  binary_Read (PutUint32 v ++ rest) = (rest, Some (i32 (Uint32 (PutUint32 v))), None).
Proof. reflexivity. Qed.

Lemma read_PutUint32 (v : Z) (rest : list Z) (set : Delta -> Z -> Delta)
      (vs : list (Delta -> Z -> Delta)) (d : Delta) :
  Physics.int32_range v ->
  read (PutUint32 v ++ rest) (set :: vs) d = read rest vs (set d v).
Proof.
  intros Hv. cbn [read]. rewrite binary_Read_PutUint32, (Uint32_PutUint32 v Hv).
  reflexivity.
Qed.

Lemma Delta_bytes_fields (d : Delta) :
  Delta_bytes d = concat (map PutUint32 (Delta_values d)).
Proof. reflexivity. Qed.

Lemma Delta_bytes_length (d : Delta) : length (Delta_bytes d) = 32%nat.
Proof. reflexivity. Qed.

Lemma ReadFrom_Delta_bytes (d d0 : Delta) (rest : list Z) :
  Delta_int32 d ->
  Delta_ReadFrom (Delta_bytes d ++ rest) d0 = (rest, d, None).
Proof.
  unfold Delta_int32. intros Hd. rewrite Delta_bytes_fields.
  destruct d as [l a b c x y z i]. unfold Delta_values in *.
  cbn [Delta_Largest Delta_A Delta_B Delta_C Delta_X Delta_Y Delta_Z
       Delta_Interacting] in *.
  repeat match goal with
         | H : Forall _ (_ :: _) |- _ =>
             let Hv := fresh "Hv" in
             let Ht := fresh "Ht" in
             apply Forall_cons in H as [Hv Ht]
         end.
  unfold Delta_ReadFrom, Delta_pointers. cbn [map concat].
  rewrite <- !app_assoc.
  rewrite !read_PutUint32 by assumption.
  reflexivity.
Qed.

(** X21. [WriteTo] hands a writer that takes everything eight times four
    bytes and returns no error; [ReadFrom] on these 32 bytes rebuilds the
    object, whatever it held before, and leaves the input behind them. *)
Theorem ReadFrom_inverts_WriteTo (d d0 : Delta) (rest : list Z) :
  Delta_int32 d ->
  exists calls,
    Delta_WriteTo Bit.buffer_sink [] d = (calls, None) /\
    length calls = 8%nat /\ Forall (fun bs => length bs = 4%nat) calls /\
    Delta_ReadFrom (concat calls ++ rest) d0 = (rest, d, None).
Proof.
  intros Hd. eexists. split; [reflexivity |].
  split; [reflexivity |]. split; [repeat constructor |].
  exact (ReadFrom_Delta_bytes d d0 rest Hd).
Qed.

(** X22. [ReadDelta] on the bytes of a frame written object by object
    overwrites [current] with that frame, returns no error and leaves the
    bytes that follow the frame in the input. *)
Theorem ReadDelta_reads_a_frame (frame current : Deltas) (rest : list Z) :
  Forall Delta_int32 frame ->
  length current = length frame ->
  ReadDelta (concat (map Delta_bytes frame) ++ rest) current = (rest, frame, None).
Proof.
  intros Hframe. revert current.
  induction Hframe as [| d frame Hd _ IH]; intros current Hlen.
  - destruct current; [reflexivity | discriminate Hlen].
  - destruct current as [| d0 current]; [discriminate Hlen |].
    injection Hlen as Hlen.
    cbn [map concat ReadDelta]. rewrite <- app_assoc.
    rewrite (ReadFrom_Delta_bytes d d0 _ Hd).
    rewrite (IH current Hlen). reflexivity.
Qed.

Lemma binary_Read_enough (input : list Z) :
  (4 <= length input)%nat ->
  exists v, binary_Read input = (drop 4 input, Some v, None).
Proof.
  intros Hlen. unfold binary_Read, ReadFull.
  destruct (4 <=? length input)%nat eqn:Hle; [| apply Nat.leb_gt in Hle; lia].
  eexists. reflexivity.
Qed.

Lemma binary_Read_short (input : list Z) :
  (length input < 4)%nat ->
  binary_Read input = ([], None, Some (early_end input)).
Proof.
  intros Hlen. unfold binary_Read, ReadFull, early_end.
  destruct (4 <=? length input)%nat eqn:Hle; [apply Nat.leb_le in Hle; lia |].
  rewrite Nat.mod_small by lia.
  destruct (length input =? 0)%nat; reflexivity.
Qed.

Lemma early_end_drop (n : nat) (input : list Z) :
  (4 * n <= length input)%nat -> early_end (drop (4 * n) input) = early_end input.
Proof.
  intros Hlen. unfold early_end. rewrite length_drop.
  replace (length input) with ((length input - 4 * n) + n * 4)%nat at 2 by lia.
  rewrite Nat.Div0.mod_add. reflexivity.
Qed.

Lemma read_enough (vs : list (Delta -> Z -> Delta)) : forall (input : list Z) (d : Delta),
  (4 * length vs <= length input)%nat ->
  exists d', read input vs d = (drop (4 * length vs) input, d', None).
Proof.
  induction vs as [| set vs IH]; intros input d Hlen.
  - exists d. reflexivity.
  - cbn [length] in Hlen. cbn [read].
    destruct (binary_Read_enough input ltac:(lia)) as [v ->].
    destruct (IH (drop 4 input) (set d v)) as [d' ->];
      [rewrite length_drop; lia |].
    exists d'. rewrite drop_drop. do 3 f_equal. cbn [length]. lia.
Qed.

Lemma read_short (vs : list (Delta -> Z -> Delta)) : forall (input : list Z) (d : Delta),
  (length input < 4 * length vs)%nat ->
  exists d', read input vs d = ([], d', Some (early_end input)).
Proof.
  induction vs as [| set vs IH]; intros input d Hlen.
  - cbn [length] in Hlen. lia.
  - cbn [length] in Hlen. cbn [read].
    destruct (Nat.lt_ge_cases (length input) 4) as [Hshort | Henough].
    + rewrite (binary_Read_short input Hshort). exists d. reflexivity.
    + destruct (binary_Read_enough input Henough) as [v ->].
      destruct (IH (drop 4 input) (set d v)) as [d' ->];
        [rewrite length_drop; lia |].
      exists d'. pose proof (early_end_drop 1 input ltac:(lia)) as Hend.
      cbn [Nat.mul Nat.add] in Hend. rewrite Hend. reflexivity.
Qed.

(** X23. When the input holds fewer bytes than the frame takes, [ReadDelta]
    uses it up and returns an error: [io.EOF] if the input ends between two
    fields (its length is a multiple of four, be it in the middle of an
    object), [io.ErrUnexpectedEOF] if it ends inside a field.  The objects
    behind the one at which the input ends are left as they were. *)
Theorem ReadDelta_on_short_input (current : Deltas) : forall input : list Z,
  (length input < 32 * length current)%nat ->
  exists current',
    ReadDelta input current = ([], current', Some (early_end input)) /\
    length current' = length current /\
    drop (S (length input / 32)) current' = drop (S (length input / 32)) current.
Proof.
  induction current as [| d current IH]; intros input Hlen.
  - cbn [length] in Hlen. lia.
  - cbn [length] in Hlen. cbn [ReadDelta]. unfold Delta_ReadFrom.
    destruct (Nat.lt_ge_cases (length input) 32) as [Hshort | Henough].
    + destruct (read_short Delta_pointers input d) as [d' ->]; [cbn; lia |].
      exists (d' :: current). split; [reflexivity |]. split; [reflexivity |].
      rewrite Nat.div_small by lia. reflexivity.
    + destruct (read_enough Delta_pointers input d) as [d' ->]; [cbn; lia |].
      change (4 * length Delta_pointers)%nat with (4 * 8)%nat.
      destruct (IH (drop (4 * 8) input)) as (current' & -> & Hsame & Htail);
        [rewrite length_drop; lia |].
      exists (d' :: current'). rewrite (early_end_drop 8 input) by lia.
      split; [reflexivity |]. split; [cbn; rewrite Hsame; reflexivity |].
      rewrite length_drop in Htail.
      replace (length input / 32)%nat with (S ((length input - 4 * 8) / 32))%nat.
      * cbn [drop]. exact Htail.
      * replace (length input) with ((length input - 4 * 8) + 1 * 32)%nat at 2 by lia.
        rewrite Nat.div_add by lia. lia.
Qed.

Lemma ReadFrom_inverts_WriteTo_witness :
  exists calls,
    Delta_WriteTo Bit.buffer_sink []
                  (mkDelta 1 (-1) 256 (-2147483648) 2147483647 0 7 1) = (calls, None) /\
    length calls = 8%nat /\ Forall (fun bs => length bs = 4%nat) calls /\
    Delta_ReadFrom (concat calls ++ [9]) zero_Delta
    = ([9], mkDelta 1 (-1) 256 (-2147483648) 2147483647 0 7 1, None).
Proof.
  apply (ReadFrom_inverts_WriteTo
           (mkDelta 1 (-1) 256 (-2147483648) 2147483647 0 7 1) zero_Delta [9]).
  unfold Delta_int32, Physics.int32_range.
  repeat constructor; vm_compute; first [reflexivity | intros H; discriminate H].
Defined.

Lemma ReadDelta_reads_a_frame_witness :
  ReadDelta (concat (map Delta_bytes [mkDelta 1 (-1) 256 (-2147483648) 2147483647 0 7 1;
                                      zero_Delta]) ++ [9])
            [zero_Delta; zero_Delta]
  = ([9], [mkDelta 1 (-1) 256 (-2147483648) 2147483647 0 7 1; zero_Delta], None).
Proof.
  apply (ReadDelta_reads_a_frame
           [mkDelta 1 (-1) 256 (-2147483648) 2147483647 0 7 1; zero_Delta]
           [zero_Delta; zero_Delta] [9]).
  - unfold Delta_int32, Physics.int32_range.
    repeat constructor; vm_compute; first [reflexivity | intros H; discriminate H].
  - reflexivity.
Defined.

Lemma ReadDelta_on_short_input_witness :
  exists current',
    ReadDelta [1; 0; 0; 0; 255; 255; 255; 255] [zero_Delta; zero_Delta]
    = ([], current', Some (early_end [1; 0; 0; 0; 255; 255; 255; 255])) /\
    length current' = 2%nat /\
    drop (S (length [1; 0; 0; 0; 255; 255; 255; 255] / 32)) current'
    = drop (S (length [1; 0; 0; 0; 255; 255; 255; 255] / 32)) [zero_Delta; zero_Delta].
Proof.
  apply (ReadDelta_on_short_input [zero_Delta; zero_Delta]
                                 [1; 0; 0; 0; 255; 255; 255; 255]).
  cbn. lia.
Defined.

(** ** Ordering.Improve: two runs *)

Import Agreement.

Section EntriesOnly.

Context {A : Type} (less1 less2 : A -> A -> bool).

Lemma gap6_pass_entries_only (turns : nat) : forall (i : nat) (l : list A),
  agree_on less1 less2 l -> Sort.gap6_pass less1 turns i l = Sort.gap6_pass less2 turns i l.
Proof.
  induction turns as [| turns IH]; intros i l Hl; [reflexivity |].
  cbn [Sort.gap6_pass].
  destruct (l !! i) as [x |] eqn:Hx; [| apply IH, Hl].
  destruct (l !! (i - 6)%nat) as [y |] eqn:Hy; [| apply IH, Hl].
  rewrite <- (Hl x y) by (eapply list_elem_of_lookup_2; eassumption).
  destruct (less1 x y); [| apply IH, Hl].
  apply IH. intros a b Ha Hb.
  assert (Hp : <[(i - 6)%nat := x]> (<[i := y]> l) ≡ₚ l)
    by (apply Permutation_insert_swap; assumption).
  rewrite Hp in Ha, Hb. exact (Hl a b Ha Hb).
Qed.

Lemma move_left_entries_only (x : A) (before : list A) :
  (forall y, y ∈ before -> less1 x y = less2 x y) ->
  Sort.move_left less1 x before = Sort.move_left less2 x before.
Proof.
  induction before as [| y before IH]; intros Hx; [reflexivity |].
  cbn [Sort.move_left]. rewrite <- (Hx y) by (left).
  destruct (less1 x y); [| reflexivity].
  rewrite IH; [reflexivity |]. intros z Hz. apply Hx. right. exact Hz.
Qed.

Lemma insertion_loop_entries_only (l : list A) : forall before : list A,
  agree_on less1 less2 (l ++ before) ->
  foldl (fun before x => Sort.move_left less1 x before) before l
  = foldl (fun before x => Sort.move_left less2 x before) before l.
Proof.
  induction l as [| x l IH]; intros before Hl; [reflexivity |].
  cbn [foldl].
  rewrite <- (move_left_entries_only x before).
  2:{ intros y Hy. apply Hl; [left |]. apply elem_of_app. right. exact Hy. }
  apply IH. intros a b Ha Hb.
  assert (Hin : forall c, c ∈ l ++ Sort.move_left less1 x before ->
                          c ∈ (x :: l) ++ before).
  { intros c Hc. rewrite move_left_permutes in Hc.
    apply elem_of_app in Hc as [Hc | Hc].
    - cbn [app]. right. apply elem_of_app. left. exact Hc.
    - apply elem_of_cons in Hc as [-> | Hc]; [left |].
      cbn [app]. right. apply elem_of_app. right. exact Hc. }
  apply Hl; apply Hin; assumption.
Qed.

End EntriesOnly.

Lemma short_sort_compares_entries_only : compares_entries_only Sort.short_sort.
Proof.
  intros A less1 less2 l Hl.
  assert (Hagree : agree_on less1 less2 l).
  { intros a b Ha Hb. rewrite Forall_forall in Hl.
    specialize (Hl a Ha). rewrite Forall_forall in Hl. exact (Hl b Hb). }
  unfold Sort.short_sort, Sort.insertionSort.
  rewrite <- (gap6_pass_entries_only less1 less2 _ _ l Hagree). f_equal.
  apply insertion_loop_entries_only. intros a b Ha Hb.
  rewrite app_nil_r, gap6_pass_permutes in Ha, Hb. exact (Hagree a b Ha Hb).
Qed.

Lemma distinct_keys_are_injective {A} (key : A -> Z) (l : list A) :
  NoDup (map key l) ->
  forall a b, a ∈ l -> b ∈ l -> key a = key b -> a = b.
Proof.
  induction l as [| c l IH]; intros Hnd a b Ha Hb Hkey; [inversion Ha |].
  cbn [map] in Hnd. apply NoDup_cons in Hnd as [Hc Hnd].
  apply elem_of_cons in Ha as [-> | Ha]; apply elem_of_cons in Hb as [-> | Hb].
  - reflexivity.
  - destruct Hc. rewrite Hkey. apply list_elem_of_fmap. exists b. auto.
  - destruct Hc. rewrite <- Hkey. apply list_elem_of_fmap. exists a. auto.
  - exact (IH Hnd a b Ha Hb Hkey).
Qed.

(** Where the attribute values of a table are pairwise distinct, the
    contract of [sort.Sort] leaves one result: two routines that sort give
    the same table. *)
Lemma distinct_attributes_fix_the_table
      (sort1 sort2 : Sort.sorter) {A} (key : A -> Z) (l : list A) :
  Sort.sorts sort1 -> Sort.sorts sort2 ->
  NoDup (map key l) ->
  sort1 A (Sort.less_by key) l = sort2 A (Sort.less_by key) l.
Proof.
  intros Hs1 Hs2 Hnd.
  destruct (Hs1 A key l) as [Hp1 Hsorted1].
  destruct (Hs2 A key l) as [Hp2 Hsorted2].
  apply (StronglySorted_unique_strong (fun a b => key a <= key b));
    [| exact Hsorted1 | exact Hsorted2 | rewrite Hp1, Hp2; reflexivity].
  intros a b Ha Hb Hab Hba. rewrite Hp1 in Ha. rewrite Hp2 in Hb.
  apply (distinct_keys_are_injective key l Hnd a b Ha Hb). lia.
Qed.

Section TwoRuns.

Variable sort_Sort : Sort.sorter.
Variable byDelta_Less : Deltas -> Deltas -> IndexValue -> IndexValue -> bool.

Hypothesis entries_only : compares_entries_only sort_Sort.

Lemma sort_byGetter_agrees (order : list Z) (baseline1 baseline2 : Deltas)
      (get : Delta -> Z) :
  same_attribute get baseline1 baseline2 order ->
  sort_byGetter sort_Sort order baseline1 get
  = sort_byGetter sort_Sort order baseline2 get.
Proof.
  intros Hsame. unfold sort_byGetter.
  assert (Hrange : forallb (in_range baseline1) order
                   = forallb (in_range baseline2) order).
  { induction Hsame as [| i order Hi _ IH]; [reflexivity |].
    cbn [forallb]. rewrite IH. f_equal. unfold attribute_at in Hi.
    destruct (in_range baseline1 i), (in_range baseline2 i);
      first [reflexivity | discriminate Hi]. }
  rewrite <- Hrange.
  destruct (forallb (in_range baseline1) order) eqn:Hall.
  - rewrite orb_true_r. f_equal. apply entries_only.
    assert (Hkey : forall i, i ∈ order ->
              byGetter_key baseline1 get i = byGetter_key baseline2 get i).
    { intros i Hi. rewrite forallb_forall in Hall.
      pose proof (Hall i (proj1 (list_elem_of_In order i) Hi)) as Hin.
      unfold same_attribute in Hsame. rewrite Forall_forall in Hsame.
      specialize (Hsame i Hi). unfold attribute_at in Hsame. rewrite Hin in Hsame.
      destruct (in_range baseline2 i); [| discriminate Hsame].
      injection Hsame as Hsame. exact Hsame. }
    apply Forall_forall. intros a Ha. apply Forall_forall. intros b Hb.
    unfold Sort.less_by. rewrite (Hkey a Ha), (Hkey b Hb). reflexivity.
  - rewrite orb_false_r.
    destruct (length order <=? 1)%nat eqn:Hlen; [| reflexivity].
    f_equal. apply entries_only.
    destruct order as [| i [| j order]]; [constructor | | discriminate Hlen].
    repeat constructor. unfold Sort.less_by. rewrite !Z.ltb_irrefl. reflexivity.
Qed.

Lemma Improve_agrees (order : Ordering) (historic1 baseline1 historic2 baseline2 : Deltas) :
  reads_agree byDelta_Less order historic1 baseline1 historic2 baseline2 ->
  Improve sort_Sort byDelta_Less order historic1 baseline1
  = Improve sort_Sort byDelta_Less order historic2 baseline2.
Proof.
  intros (HL & HI & Habc & Hxyz). unfold Improve. cbn [dontsort negb].
  rewrite (sort_byGetter_agrees _ baseline1 baseline2 getLargest HL).
  rewrite (sort_byGetter_agrees _ baseline1 baseline2 getInteracting HI).
  rewrite (entries_only IndexValue _ _ (ABC order) Habc).
  rewrite (entries_only IndexValue _ _ (XYZ order) Hxyz).
  reflexivity.
Qed.

Hypothesis only_permutes : SortMore.permutes sort_Sort.

Lemma Improve_Ok_same_tables (order order' : Ordering) (historic baseline : Deltas) :
  Improve sort_Sort byDelta_Less order historic baseline = Ok order' ->
  same_tables order' order.
Proof.
  unfold Improve, sort_byGetter. cbn [dontsort negb]. intros Hrun.
  destruct ((length (Largest order) <=? 1)%nat
            || forallb (in_range baseline) (Largest order)); [| discriminate Hrun].
  cbn [mbind result_mbind result_bind] in Hrun.
  destruct ((length (Interacting order) <=? 1)%nat
            || forallb (in_range baseline) (Interacting order)); [| discriminate Hrun].
  cbn [mbind result_mbind result_bind] in Hrun.
  injection Hrun as <-. unfold same_tables. cbn [Largest Interacting ABC XYZ].
  repeat split; apply only_permutes.
Qed.

Lemma same_order_Permutation (historic1 baseline1 historic2 baseline2 : Deltas)
      (table table' : list IndexValue) :
  table' ≡ₚ table ->
  same_order byDelta_Less historic1 baseline1 historic2 baseline2 table ->
  same_order byDelta_Less historic1 baseline1 historic2 baseline2 table'.
Proof.
  unfold same_order. intros Hp Hsame.
  apply Forall_forall. intros a Ha. apply Forall_forall. intros b Hb.
  rewrite Hp in Ha, Hb. rewrite Forall_forall in Hsame.
  specialize (Hsame a Ha). rewrite Forall_forall in Hsame. exact (Hsame b Hb).
Qed.

Lemma same_attribute_Permutation (get : Delta -> Z) (baseline1 baseline2 : Deltas)
      (table table' : list Z) :
  table' ≡ₚ table ->
  same_attribute get baseline1 baseline2 table ->
  same_attribute get baseline1 baseline2 table'.
Proof.
  unfold same_attribute. intros Hp Hsame.
  apply Forall_forall. intros i Hi. rewrite Hp in Hi.
  rewrite Forall_forall in Hsame. exact (Hsame i Hi).
Qed.

Lemma reads_agree_same_tables (order order0 : Ordering)
      (historic1 baseline1 historic2 baseline2 : Deltas) :
  same_tables order order0 ->
  reads_agree byDelta_Less order0 historic1 baseline1 historic2 baseline2 ->
  reads_agree byDelta_Less order historic1 baseline1 historic2 baseline2.
Proof.
  intros (HL & HI & Habc & Hxyz) (HL0 & HI0 & Habc0 & Hxyz0).
  repeat split;
    eauto using same_attribute_Permutation, same_order_Permutation.
Qed.

Lemma Improve_each_agrees (order0 : Ordering) (ticks1 ticks2 : list (Deltas * Deltas)) :
  ticks_agree byDelta_Less order0 ticks1 ticks2 ->
  forall order, same_tables order order0 ->
    Improve_each sort_Sort byDelta_Less order ticks1
    = Improve_each sort_Sort byDelta_Less order ticks2.
Proof.
  induction 1 as [| [historic1 baseline1] [historic2 baseline2] ticks1 ticks2 Htick _ IH];
    intros order Hsame; [reflexivity |].
  cbn [Improve_each]. cbn [fst snd] in Htick.
  rewrite (Improve_agrees order historic1 baseline1 historic2 baseline2)
    by exact (reads_agree_same_tables order order0 _ _ _ _ Hsame Htick).
  destruct (Improve sort_Sort byDelta_Less order historic2 baseline2)
    as [order1 | p] eqn:Hrun; [| reflexivity].
  cbn [mbind result_mbind result_bind].
  rewrite (IH order1); [reflexivity |].
  destruct (Improve_Ok_same_tables order order1 historic2 baseline2 Hrun)
    as (HL & HI & Habc & Hxyz).
  destruct Hsame as (HL0 & HI0 & Habc0 & Hxyz0).
  repeat split; etrans; eassumption.
Qed.


End TwoRuns.

